(** * Verification of the handshake coordinator and its cipher layer

    A shallow embedding of [lib/security.ts], [lib/link.ts] and the
    coordinator functions of [App.tsx].

    - A JavaScript string is the list of its UTF-16 code units.
    - An [ArrayBuffer] / [Uint8Array] is a list of bytes.
    - A function that can throw returns a [completion].
    - React state ([useState], [useRef]) is a record threaded through the
      handlers; [alert] and [console.error] append to logs kept in it.
    - The platform functions the code calls ([btoa], [atob], [TextEncoder],
      [TextDecoder], [JSON]) are modelled after their standards; the
      compression library and the Web Crypto cipher are interfaces. *)

From Stdlib Require Import ZArith List Lia Bool Ascii String.
From Stdlib.Strings Require Import Byte.
Import ListNotations.
Open Scope Z_scope.

Set Warnings "-register-all".

(** [length] is the length of a list throughout. *)
Abbreviation length := List.length (only parsing).

(* ================================================================== *)
(** * Values shared by every module *)
(* ================================================================== *)

(** A UTF-16 code unit, and a JavaScript string. *)
Definition code_unit := Z.
Definition jsstring := list code_unit.

(** An ASCII literal as a JavaScript string. *)
Definition str (s : string) : jsstring :=
  map (fun a => Z.of_N (N_of_ascii a)) (list_ascii_of_string s).

(** A literal in which an apostrophe stands for a double quote. *)
Definition json (s : string) : jsstring :=
  map (fun c => if c =? 39 then 34 else c) (str s).

Definition jsstring_eqb (a b : jsstring) : bool :=
  if list_eq_dec Z.eq_dec a b then true else false.

(** The exceptions the modelled code can meet. *)
Inductive exn : Type :=
| InvalidCharacterError   (* btoa / atob *)
| SyntaxError             (* JSON.parse *)
| TypeError               (* property access on null *)
| DataError               (* subtle.importKey *)
| OperationError          (* subtle.decrypt *)
| LibraryError            (* raised inside LZString *)
| TransportError.         (* raised by RTCPeerConnection *)

(** The outcome of evaluating an expression that may throw. *)
Inductive completion (A : Type) : Type :=
| Normal (a : A)
| Throw (e : exn).
Arguments Normal {A} a.
Arguments Throw {A} e.

Definition bind {A B} (c : completion A) (k : A -> completion B) : completion B :=
  match c with
  | Normal a => k a
  | Throw e => Throw e
  end.

Notation "'let?' x ':=' c 'in' k" := (bind c (fun x => k))
  (at level 10, x name, c at level 100, k at level 200).

(** An [ArrayBuffer], and its view as a [Uint8Array]. *)
Definition ArrayBuffer := list byte.

(** Bytes of a [Uint8Array]. *)
Definition Z_of_byte (b : byte) : Z := Z.of_N (Byte.to_N b).

(** Storing a number into a [Uint8Array] keeps it modulo 256. *)
Definition byte_of_Z (z : Z) : byte :=
  match Byte.of_N (Z.to_N (z mod 256)) with
  | Some b => b
  | None => x00
  end.

(* ================================================================== *)
(** * [window.btoa] and [window.atob] *)
(* ================================================================== *)

Module Base64.

(** The base64 alphabet: the character of a 6-bit value. *)
Definition enc (n : Z) : code_unit :=
  if n <? 26 then 65 + n
  else if n <? 52 then 97 + (n - 26)
  else if n <? 62 then 48 + (n - 52)
  else if n =? 62 then 43
  else 47.

(** The 6-bit value of an alphabet character. *)
Definition dec (c : code_unit) : option Z :=
  if (65 <=? c) && (c <=? 90) then Some (c - 65)
  else if (97 <=? c) && (c <=? 122) then Some (c - 97 + 26)
  else if (48 <=? c) && (c <=? 57) then Some (c - 48 + 52)
  else if c =? 43 then Some 62
  else if c =? 47 then Some 63
  else None.

Definition pad : code_unit := 61.

(** Three octets give four characters; a last group of one or two octets
    is padded with [=]. *)
Fixpoint encode (l : list Z) : jsstring :=
  match l with
  | [] => []
  | [a] =>
      [enc (Z.shiftr a 2); enc (Z.shiftl (Z.land a 3) 4); pad; pad]
  | [a; b] =>
      [enc (Z.shiftr a 2);
       enc (Z.lor (Z.shiftl (Z.land a 3) 4) (Z.shiftr b 4));
       enc (Z.shiftl (Z.land b 15) 2); pad]
  | a :: b :: c :: r =>
      enc (Z.shiftr a 2)
      :: enc (Z.lor (Z.shiftl (Z.land a 3) 4) (Z.shiftr b 4))
      :: enc (Z.lor (Z.shiftl (Z.land b 15) 2) (Z.shiftr c 6))
      :: enc (Z.land c 63)
      :: encode r
  end.

Definition is_latin1 (c : code_unit) : bool := (0 <=? c) && (c <=? 255).

(** [btoa]: throws on a code unit above U+00FF. *)
Definition btoa (s : jsstring) : completion jsstring :=
  if forallb is_latin1 s then Normal (encode s) else Throw InvalidCharacterError.

Definition is_ascii_whitespace (c : code_unit) : bool :=
  (c =? 9) || (c =? 10) || (c =? 12) || (c =? 13) || (c =? 32).

Definition is_padding_tail (d : jsstring) : bool :=
  match d with
  | [x] => x =? pad
  | [x; y] => (x =? pad) && (y =? pad)
  | _ => false
  end.

(** Removes one or two [=] that end the data. *)
Fixpoint strip_padding (d : jsstring) : jsstring :=
  match d with
  | [] => []
  | x :: r => if is_padding_tail d then [] else x :: strip_padding r
  end.

Fixpoint sextets (d : jsstring) : option (list Z) :=
  match d with
  | [] => Some []
  | c :: r =>
      match dec c, sextets r with
      | Some n, Some ns => Some (n :: ns)
      | _, _ => None
      end
  end.

(** Four 6-bit values give three octets; a last group of two or three
    values gives one or two octets, and the bits left over are dropped. *)
Fixpoint decode (l : list Z) : list Z :=
  match l with
  | s1 :: s2 :: s3 :: s4 :: r =>
      Z.lor (Z.shiftl s1 2) (Z.shiftr s2 4)
      :: Z.lor (Z.shiftl (Z.land s2 15) 4) (Z.shiftr s3 2)
      :: Z.lor (Z.shiftl (Z.land s3 3) 6) s4
      :: decode r
  | [s1; s2; s3] =>
      [Z.lor (Z.shiftl s1 2) (Z.shiftr s2 4);
       Z.lor (Z.shiftl (Z.land s2 15) 4) (Z.shiftr s3 2)]
  | [s1; s2] => [Z.lor (Z.shiftl s1 2) (Z.shiftr s2 4)]
  | _ => []
  end.

(** [atob], the forgiving base64 decoding of the HTML standard. *)
Definition atob (s : jsstring) : completion jsstring :=
  let d := filter (fun c => negb (is_ascii_whitespace c)) s in
  let d := if Z.of_nat (length d) mod 4 =? 0 then strip_padding d else d in
  if Z.of_nat (length d) mod 4 =? 1 then Throw InvalidCharacterError
  else
    match sextets d with
    | Some ns => Normal (decode ns)
    | None => Throw InvalidCharacterError
    end.

End Base64.

(* ================================================================== *)
(** * [TextEncoder] and [TextDecoder] (UTF-8) *)
(* ================================================================== *)

Module UTF8.

Definition is_high_surrogate (c : Z) : bool := (0xD800 <=? c) && (c <=? 0xDBFF).
Definition is_low_surrogate (c : Z) : bool := (0xDC00 <=? c) && (c <=? 0xDFFF).
Definition is_surrogate (c : Z) : bool := (0xD800 <=? c) && (c <=? 0xDFFF).

Definition replacement : Z := 0xFFFD.
Definition byte_order_mark : Z := 0xFEFF.

(** The scalar values of a string: a surrogate pair is one value, a
    surrogate on its own is replaced by U+FFFD. *)
Fixpoint scalar_values (s : jsstring) : list Z :=
  match s with
  | [] => []
  | c :: tl =>
      match tl with
      | d :: r =>
          if is_high_surrogate c && is_low_surrogate d
          then (0x10000 + Z.shiftl (c - 0xD800) 10 + (d - 0xDC00))
               :: scalar_values r
          else (if is_surrogate c then replacement else c) :: scalar_values tl
      | [] => [if is_surrogate c then replacement else c]
      end
  end.

(** The UTF-8 bytes of one scalar value. *)
Definition encode_scalar (cp : Z) : list Z :=
  if cp <? 0x80 then [cp]
  else if cp <? 0x800 then
    [Z.lor 0xC0 (Z.shiftr cp 6); Z.lor 0x80 (Z.land cp 0x3F)]
  else if cp <? 0x10000 then
    [Z.lor 0xE0 (Z.shiftr cp 12);
     Z.lor 0x80 (Z.land (Z.shiftr cp 6) 0x3F);
     Z.lor 0x80 (Z.land cp 0x3F)]
  else
    [Z.lor 0xF0 (Z.shiftr cp 18);
     Z.lor 0x80 (Z.land (Z.shiftr cp 12) 0x3F);
     Z.lor 0x80 (Z.land (Z.shiftr cp 6) 0x3F);
     Z.lor 0x80 (Z.land cp 0x3F)].

(** [new TextEncoder().encode(text)]. *)
Definition TextEncoder_encode (text : jsstring) : list byte :=
  map byte_of_Z (flat_map encode_scalar (scalar_values text)).

(** The state of the UTF-8 decoder of the Encoding standard. *)
Record decoder : Type := mkDecoder {
  code_point : Z;
  bytes_needed : Z;
  lower_boundary : Z;
  upper_boundary : Z
}.

Definition initial : decoder := mkDecoder 0 0 0x80 0xBF.

(** A byte read when no sequence is open: the scalar values emitted and
    the next state. *)
Definition lead (b : Z) : list Z * decoder :=
  if b <=? 0x7F then ([b], initial)
  else if (0xC2 <=? b) && (b <=? 0xDF) then
    ([], mkDecoder (Z.land b 0x1F) 1 0x80 0xBF)
  else if (0xE0 <=? b) && (b <=? 0xEF) then
    ([], mkDecoder (Z.land b 0xF) 2
           (if b =? 0xE0 then 0xA0 else 0x80)
           (if b =? 0xED then 0x9F else 0xBF))
  else if (0xF0 <=? b) && (b <=? 0xF4) then
    ([], mkDecoder (Z.land b 0x7) 3
           (if b =? 0xF0 then 0x90 else 0x80)
           (if b =? 0xF4 then 0x8F else 0xBF))
  else ([replacement], initial).

(** The decoder run over the bytes.  A byte outside the boundaries of an
    open sequence ends it with U+FFFD and is read again as a lead byte;
    an open sequence at the end of the input gives U+FFFD. *)
Fixpoint run (st : decoder) (bs : list Z) : list Z :=
  match bs with
  | [] => if bytes_needed st =? 0 then [] else [replacement]
  | b :: r =>
      if bytes_needed st =? 0 then
        let (out, st') := lead b in out ++ run st' r
      else if (lower_boundary st <=? b) && (b <=? upper_boundary st) then
        let cp := Z.lor (Z.shiftl (code_point st) 6) (Z.land b 0x3F) in
        if bytes_needed st =? 1 then cp :: run initial r
        else run (mkDecoder cp (bytes_needed st - 1) 0x80 0xBF) r
      else
        let (out, st') := lead b in replacement :: out ++ run st' r
  end.

(** A scalar value as UTF-16 code units. *)
Definition code_units (cp : Z) : jsstring :=
  if cp <? 0x10000 then [cp]
  else
    [0xD800 + Z.shiftr (cp - 0x10000) 10;
     0xDC00 + Z.land (cp - 0x10000) 0x3FF].

(** A byte order mark that starts the output is dropped ([ignoreBOM] is
    [false] by default). *)
Definition drop_byte_order_mark (cps : list Z) : list Z :=
  match cps with
  | cp :: r => if cp =? byte_order_mark then r else cps
  | [] => []
  end.

(** [new TextDecoder().decode(buffer)]: never throws ([fatal] is [false]
    by default). *)
Definition TextDecoder_decode (buffer : list byte) : jsstring :=
  flat_map code_units
    (drop_byte_order_mark (run initial (map Z_of_byte buffer))).

(** [String.prototype.isWellFormed]: code units in range and every
    surrogate paired. *)
Fixpoint well_formed (s : jsstring) : bool :=
  match s with
  | [] => true
  | c :: tl =>
      (0 <=? c) && (c <=? 0xFFFF) &&
      match tl with
      | d :: r =>
          if is_high_surrogate c
          then is_low_surrogate d && well_formed r
          else negb (is_surrogate c) && well_formed tl
      | [] => negb (is_surrogate c)
      end
  end.

Definition starts_with_byte_order_mark (s : jsstring) : bool :=
  match s with
  | c :: _ => c =? byte_order_mark
  | [] => false
  end.

End UTF8.

(* ================================================================== *)
(** * [JSON.parse] and [JSON.stringify] *)
(* ================================================================== *)

Module JSON.

(** A number is kept as the decimal literal that denotes it: sign,
    integer digits, digits after the point (none when there is no point)
    and exponent.  What the program sees of it, whether it is zero and
    how it prints, is read off the double it denotes ([Number_value],
    below). *)
Record number : Type := mkNumber {
  negative : bool;
  integer : jsstring;
  fraction : jsstring;
  exponent : option (bool * jsstring)
}.

(** The values [JSON.parse] returns.  An object is the list of its
    members in source order; when a name occurs twice the last member is
    the one a property access reads. *)
Inductive value : Type :=
| VNull
| VBool (b : bool)
| VNum (n : number)
| VStr (s : jsstring)
| VArr (elements : list value)
| VObj (members : list (jsstring * value)).

Definition is_digit (c : code_unit) : bool := (48 <=? c) && (c <=? 57).

Definition is_whitespace (c : code_unit) : bool :=
  (c =? 32) || (c =? 9) || (c =? 10) || (c =? 13).

(** ** Serialization *)

Definition hex_digit (n : Z) : code_unit :=
  if n <? 10 then 48 + n else 97 + (n - 10).

(** [\uXXXX], in lower case. *)
Definition unicode_escape (c : code_unit) : jsstring :=
  [92; 117;
   hex_digit (Z.land (Z.shiftr c 12) 15); hex_digit (Z.land (Z.shiftr c 8) 15);
   hex_digit (Z.land (Z.shiftr c 4) 15); hex_digit (Z.land c 15)].

(** The escape of one code unit that is not part of a surrogate pair. *)
Definition escape (c : code_unit) : jsstring :=
  if c =? 8 then [92; 98]
  else if c =? 9 then [92; 116]
  else if c =? 10 then [92; 110]
  else if c =? 12 then [92; 102]
  else if c =? 13 then [92; 114]
  else if c =? 34 then [92; 34]
  else if c =? 92 then [92; 92]
  else if (c <? 32) || UTF8.is_surrogate c then unicode_escape c
  else [c].

Fixpoint quote_body (s : jsstring) : jsstring :=
  match s with
  | [] => []
  | c :: tl =>
      match tl with
      | d :: r =>
          if UTF8.is_high_surrogate c && UTF8.is_low_surrogate d
          then c :: d :: quote_body r
          else escape c ++ quote_body tl
      | [] => escape c
      end
  end.

(** [QuoteJSONString]. *)
Definition quote (s : jsstring) : jsstring := 34 :: quote_body s ++ [34].

Definition print_fraction (fs : jsstring) : jsstring :=
  match fs with
  | [] => []
  | _ :: _ => 46 :: fs
  end.

Definition print_exponent (ex : option (bool * jsstring)) : jsstring :=
  match ex with
  | None => []
  | Some (neg, ds) => 101 :: (if neg then 45 else 43) :: ds
  end.

Definition print_number (n : number) : jsstring :=
  (if negative n then [45] else [])
  ++ integer n ++ print_fraction (fraction n) ++ print_exponent (exponent n).

(** [JSON.stringify(v)], without indentation. *)
Fixpoint stringify (v : value) : jsstring :=
  match v with
  | VNull => str "null"
  | VBool true => str "true"
  | VBool false => str "false"
  | VNum n => print_number n
  | VStr s => quote s
  | VArr l =>
      91 :: (fix elements (l : list value) : jsstring :=
               match l with
               | [] => []
               | v :: l' =>
                   stringify v
                   ++ match l' with [] => [] | _ :: _ => 44 :: elements l' end
               end) l
         ++ [93]
  | VObj l =>
      123 :: (fix members (l : list (jsstring * value)) : jsstring :=
                match l with
                | [] => []
                | (k, v) :: l' =>
                    quote k ++ 58 :: stringify v
                    ++ match l' with [] => [] | _ :: _ => 44 :: members l' end
                end) l
          ++ [125]
  end.

(** ** Parsing *)

Fixpoint skip_whitespace (s : jsstring) : jsstring :=
  match s with
  | c :: r => if is_whitespace c then skip_whitespace r else s
  | [] => []
  end.

(** The digits that start [s], and what follows them. *)
Fixpoint digits (s : jsstring) : jsstring * jsstring :=
  match s with
  | c :: r =>
      if is_digit c then let (ds, rest) := digits r in (c :: ds, rest)
      else ([], s)
  | [] => ([], [])
  end.

Definition hex_value (c : code_unit) : option Z :=
  if is_digit c then Some (c - 48)
  else if (97 <=? c) && (c <=? 102) then Some (c - 97 + 10)
  else if (65 <=? c) && (c <=? 70) then Some (c - 65 + 10)
  else None.

(** The character an escape letter stands for. *)
Definition unescape (c : code_unit) : option code_unit :=
  if c =? 34 then Some 34
  else if c =? 92 then Some 92
  else if c =? 47 then Some 47
  else if c =? 98 then Some 8
  else if c =? 102 then Some 12
  else if c =? 110 then Some 10
  else if c =? 114 then Some 13
  else if c =? 116 then Some 9
  else None.

(** A string, after its opening quote: its code units and what follows
    the closing quote. *)
Fixpoint parse_string (s : jsstring) : option (jsstring * jsstring) :=
  match s with
  | [] => None
  | c :: r =>
      if c =? 34 then Some ([], r)
      else if c =? 92 then
        match r with
        | e :: r1 =>
            if e =? 117 then
              match r1 with
              | h1 :: h2 :: h3 :: h4 :: r2 =>
                  match hex_value h1, hex_value h2, hex_value h3, hex_value h4,
                        parse_string r2 with
                  | Some a, Some b, Some c', Some d, Some (x, rest) =>
                      Some (Z.lor (Z.shiftl a 12)
                              (Z.lor (Z.shiftl b 8) (Z.lor (Z.shiftl c' 4) d))
                            :: x, rest)
                  | _, _, _, _, _ => None
                  end
              | _ => None
              end
            else
              match unescape e, parse_string r1 with
              | Some u, Some (x, rest) => Some (u :: x, rest)
              | _, _ => None
              end
        | [] => None
        end
      else if c <? 32 then None
      else
        match parse_string r with
        | Some (x, rest) => Some (c :: x, rest)
        | None => None
        end
  end.

(** The integer part: [0], or digits that do not start with [0]. *)
Definition parse_integer (s : jsstring) : option (jsstring * jsstring) :=
  match s with
  | [] => None
  | c :: r =>
      if negb (is_digit c) then None
      else if c =? 48 then Some ([c], r)
      else let (ds, rest) := digits r in Some (c :: ds, rest)
  end.

(** The fraction, if a point follows: at least one digit. *)
Definition parse_fraction (s : jsstring) : option (jsstring * jsstring) :=
  match s with
  | p :: r =>
      if p =? 46 then
        let (fs, rest) := digits r in
        match fs with
        | [] => None
        | _ :: _ => Some (fs, rest)
        end
      else Some ([], s)
  | [] => Some ([], s)
  end.

(** The exponent, if [e] or [E] follows: a sign or none, and at least one
    digit. *)
Definition parse_exponent (s : jsstring)
  : option (option (bool * jsstring) * jsstring) :=
  match s with
  | e :: r =>
      if (e =? 101) || (e =? 69) then
        let (neg, r') :=
          match r with
          | g :: r' =>
              if g =? 45 then (true, r')
              else if g =? 43 then (false, r')
              else (false, r)
          | [] => (false, r)
          end in
        let (es, rest) := digits r' in
        match es with
        | [] => None
        | _ :: _ => Some (Some (neg, es), rest)
        end
      else Some (None, s)
  | [] => Some (None, s)
  end.

Definition parse_number (s : jsstring) : option (number * jsstring) :=
  let (neg, s1) :=
    match s with
    | c :: r => if c =? 45 then (true, r) else (false, s)
    | [] => (false, s)
    end in
  match parse_integer s1 with
  | None => None
  | Some (int, s2) =>
      match parse_fraction s2 with
      | None => None
      | Some (fs, s3) =>
          match parse_exponent s3 with
          | None => None
          | Some (ex, rest) => Some (mkNumber neg int fs ex, rest)
          end
      end
  end.

(** The rest of a literal name. *)
Fixpoint expect (word s : jsstring) : option jsstring :=
  match word with
  | [] => Some s
  | w :: word' =>
      match s with
      | c :: r => if c =? w then expect word' r else None
      | [] => None
      end
  end.

Definition literal (word : jsstring) (v : value) (s : jsstring)
  : option (value * jsstring) :=
  match expect word s with
  | Some rest => Some (v, rest)
  | None => None
  end.

(** A value, the elements of an array after its first bracket, and the
    members of an object after its first brace.  [fuel] bounds the calls;
    [JSON_parse] gives enough of it. *)
Fixpoint parse_value (fuel : nat) (s : jsstring) : option (value * jsstring) :=
  match fuel with
  | O => None
  | S fuel =>
      match skip_whitespace s with
      | [] => None
      | c :: r =>
          if c =? 110 then literal (str "ull") VNull r
          else if c =? 116 then literal (str "rue") (VBool true) r
          else if c =? 102 then literal (str "alse") (VBool false) r
          else if c =? 34 then
            match parse_string r with
            | Some (x, rest) => Some (VStr x, rest)
            | None => None
            end
          else if c =? 91 then
            match skip_whitespace r with
            | c' :: r' =>
                if c' =? 93 then Some (VArr [], r')
                else
                  match parse_elements fuel r with
                  | Some (vs, rest) => Some (VArr vs, rest)
                  | None => None
                  end
            | [] => None
            end
          else if c =? 123 then
            match skip_whitespace r with
            | c' :: r' =>
                if c' =? 125 then Some (VObj [], r')
                else
                  match parse_members fuel r with
                  | Some (ms, rest) => Some (VObj ms, rest)
                  | None => None
                  end
            | [] => None
            end
          else
            match parse_number (c :: r) with
            | Some (n, rest) => Some (VNum n, rest)
            | None => None
            end
      end
  end
with parse_elements (fuel : nat) (s : jsstring)
  : option (list value * jsstring) :=
  match fuel with
  | O => None
  | S fuel =>
      match parse_value fuel s with
      | Some (v, r) =>
          match skip_whitespace r with
          | c :: r' =>
              if c =? 44 then
                match parse_elements fuel r' with
                | Some (vs, rest) => Some (v :: vs, rest)
                | None => None
                end
              else if c =? 93 then Some ([v], r')
              else None
          | [] => None
          end
      | None => None
      end
  end
with parse_members (fuel : nat) (s : jsstring)
  : option (list (jsstring * value) * jsstring) :=
  match fuel with
  | O => None
  | S fuel =>
      match skip_whitespace s with
      | q :: r =>
          if q =? 34 then
            match parse_string r with
            | Some (k, r1) =>
                match skip_whitespace r1 with
                | c :: r2 =>
                    if c =? 58 then
                      match parse_value fuel r2 with
                      | Some (v, r3) =>
                          match skip_whitespace r3 with
                          | c' :: r4 =>
                              if c' =? 44 then
                                match parse_members fuel r4 with
                                | Some (ms, rest) => Some ((k, v) :: ms, rest)
                                | None => None
                                end
                              else if c' =? 125 then Some ([(k, v)], r4)
                              else None
                          | [] => None
                          end
                      | None => None
                      end
                    else None
                | [] => None
                end
            | None => None
            end
          else None
      | [] => None
      end
  end.

(** [JSON.parse(text)]: the whole text is one value; anything else is a
    [SyntaxError]. *)
Definition parse (text : jsstring) : completion value :=
  match parse_value (2 * length text + 2) text with
  | Some (v, rest) =>
      match skip_whitespace rest with
      | [] => Normal v
      | _ :: _ => Throw SyntaxError
      end
  | None => Throw SyntaxError
  end.

(** ** Numbers *)

(** The value of a string of digits. *)
Definition decimal (ds : jsstring) : Z :=
  fold_left (fun acc d => 10 * acc + (d - 48)) ds 0.

(** The mathematical value of a literal is, up to its sign,
    [significand n * 10 ^ scale n]. *)
Definition significand (n : number) : Z := decimal (integer n ++ fraction n).

Definition scale (n : number) : Z :=
  match exponent n with
  | Some (true, es) => - decimal es
  | Some (false, es) => decimal es
  | None => 0
  end
  - Z.of_nat (length (fraction n)).

(** A Number that is not NaN, up to its sign: zero, [m * 2 ^ e] with
    [m < 2 ^ 53] and [-1074 <= e <= 971], or infinity. *)
Inductive magnitude : Type :=
| Zero
| Finite (m e : Z)
| Infinity.

Definition magnitude_eqb (x y : magnitude) : bool :=
  match x, y with
  | Zero, Zero => true
  | Finite m e, Finite m' e' => (m =? m') && (e =? e')
  | Infinity, Infinity => true
  | _, _ => false
  end.

(** [2 ^ k] and [10 ^ k] for [k] above zero, and 1 below: [x * 2 ^ k] is
    the fraction of [x * pow2 k] and [pow2 (- k)]. *)
Definition pow2 (k : Z) : Z := 2 ^ Z.max 0 k.
Definition pow10 (k : Z) : Z := 10 ^ Z.max 0 k.

(** The Number value for the positive rational [num / den]: the nearest
    double, and of two equally near the one with the even significand
    (roundTiesToEven of IEEE 754); [2 ^ p] is the power of two at or
    below the rational, [2 ^ e] the distance of the doubles around it. *)
Definition round (num den : Z) : magnitude :=
  let l := Z.log2 num - Z.log2 den in
  let p := if den * pow2 l <=? num * pow2 (- l) then l else l - 1 in
  let e := Z.max (p - 52) (-1074) in
  let N := num * pow2 (- e) in
  let D := den * pow2 e in
  let q := N / D in
  let r := N mod D in
  let m := if (D <? 2 * r) || ((D =? 2 * r) && Z.odd q) then q + 1 else q in
  let (m, e) := if m =? 2 ^ 53 then (2 ^ 52, e + 1) else (m, e) in
  if m =? 0 then Zero
  else if 971 <? e then Infinity
  else Finite m e.

(** The Number a literal denotes, up to its sign. *)
Definition Number_value (n : number) : magnitude :=
  let m := significand n in
  let k := scale n in
  if m =? 0 then Zero else round (m * pow10 k) (pow10 (- k)).

(** [x < 10 ^ n], for [x = xn / xd]. *)
Definition below_pow10 (xn xd n : Z) : bool :=
  xn * pow10 (- n) <? xd * pow10 n.

(** The least [n], from [n] on, with [x < 10 ^ n]. *)
Fixpoint magnitude10 (fuel : nat) (xn xd n : Z) : Z :=
  match fuel with
  | O => n
  | S fuel =>
      if below_pow10 xn xd n then n else magnitude10 fuel xn xd (n + 1)
  end.

(** The pairs [(n, s)], [s] having [k] digits, for which
    [s * 10 ^ (n - k)] has the Number value [x]: [s] is one of the two
    integers around [x / 10 ^ (n - k)]. *)
Definition candidates (x : magnitude) (xn xd k n : Z) : list (Z * Z) :=
  let f := (xn * pow10 (k - n)) / (xd * pow10 (n - k)) in
  filter
    (fun c =>
       let s := snd c in
       (10 ^ (k - 1) <=? s) && (s <? 10 ^ k)
       && magnitude_eqb (round (s * pow10 (n - k)) (pow10 (k - n))) x)
    [(n, f); (n, f + 1)].

(** [c1] is nearer to [x] than [c2]; of two equally near, the one with
    the even [s]. *)
Definition nearer (xn xd k : Z) (c1 c2 : Z * Z) : bool :=
  let distance (c : Z * Z) :=
    (Z.abs (snd c * pow10 (fst c - k) * xd - xn * pow10 (k - fst c)),
     pow10 (k - fst c) * xd) in
  let (a1, b1) := distance c1 in
  let (a2, b2) := distance c2 in
  (a1 * b2 <? a2 * b1) || ((a1 * b2 =? a2 * b1) && Z.even (snd c1)).

Definition nearest (xn xd k : Z) (cs : list (Z * Z)) : option (Z * Z) :=
  fold_left
    (fun best c =>
       match best with
       | None => Some c
       | Some b => if nearer xn xd k b c then Some b else Some c
       end)
    cs None.

(** The [n], [k] and [s] of Number::toString: [k] as small as possible,
    from [k] on. *)
Fixpoint shortest (fuel : nat) (x : magnitude) (xn xd n0 k : Z)
  : option (Z * Z * Z) :=
  match fuel with
  | O => None
  | S fuel =>
      match nearest xn xd k
              (candidates x xn xd k n0 ++ candidates x xn xd k (n0 + 1)) with
      | Some (n, s) => Some (n, k, s)
      | None => shortest fuel x xn xd n0 (k + 1)
      end
  end.

(** The last [k] decimal digits of [s]. *)
Fixpoint digits_of (k : nat) (s : Z) : jsstring :=
  match k with
  | O => []
  | S k => digits_of k (s / 10) ++ [48 + s mod 10]
  end.

(** A natural number in decimal. *)
Definition print_decimal (z : Z) : jsstring :=
  (fix print (fuel : nat) (z : Z) : jsstring :=
     match fuel with
     | O => []
     | S fuel =>
         if z <? 10 then [48 + z] else print fuel (z / 10) ++ [48 + z mod 10]
     end) (S (Z.to_nat (Z.log2 z))) z.

(** Number::toString, radix ten, with the digits that the standard
    recommends where it leaves the last one open: of the shortest, those
    nearest to the value.  Seventeen digits determine a double, so
    [shortest] finds some. *)
Definition Number_toString (negative : bool) (x : magnitude) : jsstring :=
  let sign : jsstring := if negative then [45] else [] in
  match x with
  | Zero => [48]
  | Infinity => sign ++ str "Infinity"
  | Finite m e =>
      let xn := m * pow2 e in
      let xd := pow2 (- e) in
      let n0 := magnitude10 640 xn xd (-324) in
      match shortest 17 x xn xd n0 1 with
      | None => []
      | Some (n, k, s) =>
          let ds := digits_of (Z.to_nat k) s in
          sign ++
          if (k <=? n) && (n <=? 21) then ds ++ repeat 48 (Z.to_nat (n - k))
          else if (0 <? n) && (n <=? 21) then
            firstn (Z.to_nat n) ds ++ [46] ++ skipn (Z.to_nat n) ds
          else if (-6 <? n) && (n <=? 0) then
            [48; 46] ++ repeat 48 (Z.to_nat (- n)) ++ ds
          else
            let e10 :=
              [101] ++ (if 0 <=? n - 1 then [43] else [45])
              ++ print_decimal (Z.abs (n - 1)) in
            match ds with
            | [] => []
            | [d] => [d] ++ e10
            | d :: r => [d] ++ [46] ++ r ++ e10
            end
      end
  end.

(** ** The values as JavaScript sees them *)

(** [ToBoolean]: a number is falsy when the double it denotes is zero,
    as the literals below half of the least double are. *)
Definition truthy (v : value) : bool :=
  match v with
  | VNull => false
  | VBool b => b
  | VNum n =>
      match Number_value n with
      | Zero => false
      | _ => true
      end
  | VStr s => match s with [] => false | _ :: _ => true end
  | VArr _ => true
  | VObj _ => true
  end.

Fixpoint lookup (name : jsstring) (members : list (jsstring * value))
  : option value :=
  match members with
  | [] => None
  | (k, v) :: r =>
      match lookup name r with
      | Some v' => Some v'
      | None => if jsstring_eqb k name then Some v else None
      end
  end.

(** [v.name], for a name that no prototype defines ([s], [k], [iv],
    [data]): [None] is [undefined]; reading a property of [null] throws. *)
Definition get (v : value) (name : jsstring) : completion (option value) :=
  match v with
  | VNull => Throw TypeError
  | VObj members => Normal (lookup name members)
  | _ => Normal None
  end.

(** [ToBoolean] of a value that may be [undefined]. *)
Definition truthy_opt (v : option value) : bool :=
  match v with
  | Some v => truthy v
  | None => false
  end.

(** [ToString], which [atob] applies to its argument.  An array is
    joined with commas, [null] giving nothing.  An object gives
    [[object Object]] through the [toString] it inherits; when it has a
    member of that name, which is no function, neither that nor the
    [valueOf] it has or inherits gives a primitive value, and the
    conversion throws. *)
Fixpoint ToString (v : value) : completion jsstring :=
  match v with
  | VNull => Normal (str "null")
  | VBool true => Normal (str "true")
  | VBool false => Normal (str "false")
  | VNum n => Normal (Number_toString (negative n) (Number_value n))
  | VStr s => Normal s
  | VArr l =>
      (fix join (l : list value) : completion jsstring :=
         match l with
         | [] => Normal []
         | v :: l' =>
             match (match v with VNull => Normal [] | _ => ToString v end) with
             | Throw e => Throw e
             | Normal x =>
                 match l' with
                 | [] => Normal x
                 | _ :: _ =>
                     match join l' with
                     | Throw e => Throw e
                     | Normal r => Normal (x ++ 44 :: r)
                     end
                 end
             end
         end) l
  | VObj members =>
      match lookup (str "toString") members with
      | Some _ => Throw TypeError
      | None => Normal (str "[object Object]")
      end
  end.

(** ** The values [JSON.stringify] is given *)

Definition in_range (c : code_unit) : bool := (0 <=? c) && (c <=? 0xFFFF).

(** A literal of the JSON grammar. *)
Definition number_ok (n : number) : bool :=
  match integer n with
  | [] => false
  | c :: ds =>
      if c =? 48 then match ds with [] => true | _ :: _ => false end
      else is_digit c && forallb is_digit ds
  end
  && forallb is_digit (fraction n)
  && match exponent n with
     | None => true
     | Some (_, es) =>
         match es with [] => false | _ :: _ => forallb is_digit es end
     end.

(** Code units in range and numbers of the grammar, throughout. *)
Fixpoint well_formed (v : value) : bool :=
  match v with
  | VNull => true
  | VBool _ => true
  | VNum n => number_ok n
  | VStr s => forallb in_range s
  | VArr l => forallb well_formed l
  | VObj l =>
      (fix members (l : list (jsstring * value)) : bool :=
         match l with
         | [] => true
         | (k, v) :: l' => forallb in_range k && well_formed v && members l'
         end) l
  end.

End JSON.

(* ================================================================== *)
(** * The Web Crypto interface *)
(* ================================================================== *)

(** AES-GCM as [window.crypto.subtle] offers it.  The two laws are those
    of the mode: decryption with the key and nonce of the encryption
    returns the plaintext; and under one key two different 96-bit nonces
    never give the same output for the same plaintext (if the counter-mode
    parts agree, the tags differ, the block cipher being a permutation). *)
Record WebCrypto : Type := {
  CryptoKey : Type;
  subtle_encrypt : CryptoKey -> ArrayBuffer -> ArrayBuffer -> ArrayBuffer;
  subtle_decrypt : CryptoKey -> ArrayBuffer -> ArrayBuffer -> option ArrayBuffer;
  subtle_importKey : ArrayBuffer -> option CryptoKey;
  subtle_exportKey : CryptoKey -> ArrayBuffer;
  decrypt_encrypt :
    forall k iv p, subtle_decrypt k iv (subtle_encrypt k iv p) = Some p;
  encrypt_nonce :
    forall k iv1 iv2 p,
      length iv1 = 12%nat -> length iv2 = 12%nat ->
      subtle_encrypt k iv1 p = subtle_encrypt k iv2 p -> iv1 = iv2
}.

(** The random source: the bytes it will give, in order. *)
Definition entropy := nat -> byte.

(** [window.crypto.getRandomValues(new Uint8Array(n))]. *)
Definition getRandomValues (n : nat) (rng : entropy) : ArrayBuffer * entropy :=
  (map rng (seq 0 n), fun i => rng (n + i)%nat).

(* ================================================================== *)
(** * [lib/security.ts]: the helpers *)
(* ================================================================== *)

(** [arrayBufferToBase64]: one character per byte, then [btoa]. *)
Definition arrayBufferToBase64 (buffer : ArrayBuffer) : completion jsstring :=
  let binary := map Z_of_byte buffer in
  Base64.btoa binary.

(** [base64ToArrayBuffer]: [atob], then one byte per character. *)
Definition base64ToArrayBuffer (base64 : jsstring) : completion ArrayBuffer :=
  let? binary_string := Base64.atob base64 in
  Normal (map byte_of_Z binary_string).

Section Security.
Context (W : WebCrypto).

(** The object [encryptData] returns. *)
Record encrypted : Type := mkEncrypted { iv : jsstring; data : jsstring }.

(** [exportKey]. *)
Definition exportKey (key : CryptoKey W) : completion jsstring :=
  let exported := subtle_exportKey W key in
  arrayBufferToBase64 exported.

(** [importKey]. *)
Definition importKey (base64Key : jsstring) : completion (CryptoKey W) :=
  let? rawKey := base64ToArrayBuffer base64Key in
  match subtle_importKey W rawKey with
  | Some key => Normal key
  | None => Throw DataError
  end.

(** [encryptData]: the nonce is the next twelve bytes of the random
    source. *)
Definition encryptData (text : jsstring) (key : CryptoKey W) (rng : entropy)
  : completion encrypted * entropy :=
  let encoded := UTF8.TextEncoder_encode text in
  let (iv, rng') := getRandomValues 12 rng in
  let encrypted := subtle_encrypt W key iv encoded in
  (let? iv64 := arrayBufferToBase64 iv in
   let? data64 := arrayBufferToBase64 encrypted in
   Normal (mkEncrypted iv64 data64),
   rng').

(** [decryptData]. *)
Definition decryptData (encryptedData ivStr : jsstring) (key : CryptoKey W)
  : completion jsstring :=
  let? iv := base64ToArrayBuffer ivStr in
  let? data := base64ToArrayBuffer encryptedData in
  match subtle_decrypt W key iv data with
  | Some decrypted => Normal (UTF8.TextDecoder_decode decrypted)
  | None => Throw OperationError
  end.

(** The two functions as the coordinator calls them, with fields of a
    parsed payload that need not be strings (the types of TypeScript are
    erased): [atob] converts its argument with [ToString], in
    [decryptData] that of the nonce first, and decodes it before the
    ciphertext is converted. *)
Definition importKey_untyped (base64Key : JSON.value)
  : completion (CryptoKey W) :=
  let? base64Key := JSON.ToString base64Key in
  importKey base64Key.

Definition decryptData_untyped (encryptedData ivStr : JSON.value)
    (key : CryptoKey W) : completion jsstring :=
  let? ivStr := JSON.ToString ivStr in
  let? _ := base64ToArrayBuffer ivStr in
  let? encryptedData := JSON.ToString encryptedData in
  decryptData encryptedData ivStr key.

End Security.


(* ================================================================== *)
(** * The compression library *)
(* ================================================================== *)

(** [LZString], declared in [lib/link.ts] and loaded from outside the
    repository.  Decompression may return a string or [null] ([None]), or
    throw; it returns what was compressed. *)
Record LZString : Type := {
  compressToEncodedURIComponent : jsstring -> jsstring;
  decompressFromEncodedURIComponent : jsstring -> completion (option jsstring);
  decompress_compress :
    forall s, s <> [] ->
      decompressFromEncodedURIComponent (compressToEncodedURIComponent s)
      = Normal (Some s)
}.

(* ================================================================== *)
(** * Code with effects *)
(* ================================================================== *)

(** How a call of an [async] function stands: it returned, it threw, or
    it waits on a promise that has not been resolved. *)
Inductive outcome (A : Type) : Type :=
| Done (a : A)
| Thrown (e : exn)
| Suspended.
Arguments Done {A} a.
Arguments Thrown {A} e.
Arguments Suspended {A}.

(** A computation over a state [S]. *)
Definition M (S A : Type) : Type := S -> outcome A * S.

Definition ret {S A} (a : A) : M S A := fun s => (Done a, s).

Definition andThen {S A B} (m : M S A) (k : A -> M S B) : M S B :=
  fun s =>
    match m s with
    | (Done a, s') => k a s'
    | (Thrown e, s') => (Thrown e, s')
    | (Suspended, s') => (Suspended, s')
    end.

(** [try { body } catch (e) { handler }]: a suspended body stays so. *)
Definition try_catch {S A} (body : M S A) (handler : exn -> M S A) : M S A :=
  fun s =>
    match body s with
    | (Thrown e, s') => handler e s'
    | other => other
    end.

(** A platform call. *)
Definition lift {S A} (c : completion A) : M S A :=
  fun s =>
    match c with
    | Normal a => (Done a, s)
    | Throw e => (Thrown e, s)
    end.

Definition modify {S} (f : S -> S) : M S unit := fun s => (Done tt, f s).

Definition read {S A} (f : S -> A) : M S A := fun s => (Done (f s), s).

Notation "x <- m ;; k" := (andThen m (fun x => k))
  (at level 61, m at next level, right associativity).
Notation "m ;; k" := (andThen m (fun _ => k))
  (at level 61, right associativity).

(** What [console.error] wrote: the message and the error. *)
Definition Console := list (jsstring * exn).

Definition console_error (message : jsstring) (e : exn) : M Console unit :=
  modify (fun c => c ++ [(message, e)]).

(* ================================================================== *)
(** * [lib/link.ts] *)
(* ================================================================== *)

Section Link.
Context (L : LZString).

Import JSON.

(** [generateLinkHash]. *)
Definition generateLinkHash (sdp : value) (key : jsstring) : jsstring :=
  let payload := stringify (VObj [(str "s", sdp); (str "k", VStr key)]) in
  compressToEncodedURIComponent L payload.

(** [parseLinkHash].  [!decompressed] holds of [null] and of the empty
    string. *)
Definition parseLinkHash (hash : jsstring) : M Console value :=
  try_catch
    (decompressed <- lift (decompressFromEncodedURIComponent L hash) ;;
     match decompressed with
     | None => ret VNull
     | Some [] => ret VNull
     | Some (c :: r) => lift (parse (c :: r))
     end)
    (fun e => console_error (str "Link parse error") e ;; ret VNull).

End Link.

(* ================================================================== *)
(** * The transport *)
(* ================================================================== *)

Inductive RTCSdpType : Type := offer | pranswer | answer | rollback.

Record RTCSessionDescription : Type := {
  sdp_type : RTCSdpType;
  sdp : jsstring
}.

Definition RTCSdpType_string (t : RTCSdpType) : jsstring :=
  match t with
  | offer => str "offer"
  | pranswer => str "pranswer"
  | answer => str "answer"
  | rollback => str "rollback"
  end.

(** What [JSON.stringify] sees of [pc.localDescription]: the result of
    its [toJSON], or [null]. *)
Definition toJSON (d : option RTCSessionDescription) : JSON.value :=
  match d with
  | None => JSON.VNull
  | Some d =>
      JSON.VObj [(str "type", JSON.VStr (RTCSdpType_string (sdp_type d)));
                 (str "sdp", JSON.VStr (sdp d))]
  end.

Inductive RTCIceGatheringState : Type :=
| gathering_new | gathering | complete.

Inductive RTCIceConnectionState : Type :=
| connection_new | checking | connected | completed | failed
| disconnected | closed.

(** One [RTCPeerConnection], by what it answers: the results of its
    calls, its gathering state when [waitForIce] is called, the
    [icegatheringstatechange] events it fires from then on (each with the
    state it has then), and the local description it has after them. *)
Record RTCPeerConnection : Type := {
  createOffer : completion RTCSessionDescription;
  createAnswer : completion RTCSessionDescription;
  setLocalDescription : RTCSessionDescription -> completion unit;
  setRemoteDescription : JSON.value -> completion unit;
  iceGatheringState : RTCIceGatheringState;
  icegatheringstatechange : list RTCIceGatheringState;
  localDescription : option RTCSessionDescription
}.

Definition is_complete (g : RTCIceGatheringState) : bool :=
  match g with
  | complete => true
  | _ => false
  end.

(** The promise of [waitForIce]: whether [check] is registered, and how
    often [resolve] was called. *)
Record ice_wait : Type := { listening : bool; resolved : nat }.

(** The executor of the promise. *)
Definition waitForIce_start (g : RTCIceGatheringState) : ice_wait :=
  if is_complete g then {| listening := false; resolved := 1 |}
  else {| listening := true; resolved := 0 |}.

(** One [icegatheringstatechange] event, the connection being in state
    [g]: [check] runs if it is registered. *)
Definition check (w : ice_wait) (g : RTCIceGatheringState) : ice_wait :=
  if listening w then
    if is_complete g
    then {| listening := false; resolved := S (resolved w) |}
    else w
  else w.

Definition waitForIce_events (pc : RTCPeerConnection) : ice_wait :=
  fold_left check (icegatheringstatechange pc)
    (waitForIce_start (iceGatheringState pc)).

(** [await waitForIce(pc)]. *)
Definition waitForIce {S} (pc : RTCPeerConnection) : M S unit :=
  fun s =>
    match resolved (waitForIce_events pc) with
    | O => (Suspended, s)
    | S _ => (Done tt, s)
    end.

(* ================================================================== *)
(** * [App.tsx]: the coordinator *)
(* ================================================================== *)

Inductive State : Type :=
| INIT
| HOST_GENERATING
| HOST_WAITING
| GUEST_PROCESSING
| GUEST_ANSWER_READY
| CONNECTED.

Inductive Sender : Type := me | peer.

Record Message : Type := {
  id : jsstring;
  text : jsstring;
  sender : Sender;
  timestamp : Z
}.

(** The white space [String.prototype.trim] removes. *)
Definition is_trimmed (c : code_unit) : bool :=
  ((9 <=? c) && (c <=? 13)) || (c =? 32) || (c =? 0xA0) || (c =? 0x1680)
  || ((0x2000 <=? c) && (c <=? 0x200A)) || (c =? 0x2028) || (c =? 0x2029)
  || (c =? 0x202F) || (c =? 0x205F) || (c =? 0x3000) || (c =? 0xFEFF).

Fixpoint trim_start (s : jsstring) : jsstring :=
  match s with
  | c :: r => if is_trimmed c then trim_start r else s
  | [] => []
  end.

Definition trim (s : jsstring) : jsstring :=
  rev (trim_start (rev (trim_start s))).

(** [!s] for a string. *)
Definition is_empty (s : jsstring) : bool :=
  match s with
  | [] => true
  | _ :: _ => false
  end.

(** [s.startsWith('{')]. *)
Definition startsWith_brace (s : jsstring) : bool :=
  match s with
  | c :: _ => c =? 123
  | [] => false
  end.

Section App.
Context (W : WebCrypto) (L : LZString).

Import JSON.

(** A data channel as [setupDataChannel] leaves it: its [onmessage]
    handler is a closure of the render that created it, and holds the
    [sharedKey] of that render. *)
Record RTCDataChannel : Type := {
  label : jsstring;
  onmessage_sharedKey : option (CryptoKey W)
}.

(** The state of the component: [useState] values, [useRef] values, and
    what it has shown with [alert] and [console.error]. *)
Record App : Type := mkApp {
  state : State;
  sharedKey : option (CryptoKey W);
  messages : list Message;
  offerLink : jsstring;
  answerData : jsstring;
  manualInput : jsstring;
  pcRef : option RTCPeerConnection;
  dcRef : option RTCDataChannel;
  alerts : list jsstring;
  console : Console
}.

(** The state after the first render. *)
Definition initial : App :=
  mkApp INIT None [] [] [] [] None None [] [].

Definition setState (x : State) : M App unit :=
  modify (fun a => mkApp x (sharedKey a) (messages a) (offerLink a)
                     (answerData a) (manualInput a) (pcRef a) (dcRef a)
                     (alerts a) (console a)).

Definition setSharedKey (k : CryptoKey W) : M App unit :=
  modify (fun a => mkApp (state a) (Some k) (messages a) (offerLink a)
                     (answerData a) (manualInput a) (pcRef a) (dcRef a)
                     (alerts a) (console a)).

(** [setMessages(prev => [...prev, m])]. *)
Definition appendMessage (m : Message) : M App unit :=
  modify (fun a => mkApp (state a) (sharedKey a) (messages a ++ [m])
                     (offerLink a) (answerData a) (manualInput a) (pcRef a)
                     (dcRef a) (alerts a) (console a)).

Definition setOfferLink (x : jsstring) : M App unit :=
  modify (fun a => mkApp (state a) (sharedKey a) (messages a) x
                     (answerData a) (manualInput a) (pcRef a) (dcRef a)
                     (alerts a) (console a)).

Definition setAnswerData (x : jsstring) : M App unit :=
  modify (fun a => mkApp (state a) (sharedKey a) (messages a) (offerLink a)
                     x (manualInput a) (pcRef a) (dcRef a)
                     (alerts a) (console a)).

Definition setManualInput (x : jsstring) : M App unit :=
  modify (fun a => mkApp (state a) (sharedKey a) (messages a) (offerLink a)
                     (answerData a) x (pcRef a) (dcRef a)
                     (alerts a) (console a)).

Definition set_pcRef (pc : RTCPeerConnection) : M App unit :=
  modify (fun a => mkApp (state a) (sharedKey a) (messages a) (offerLink a)
                     (answerData a) (manualInput a) (Some pc) (dcRef a)
                     (alerts a) (console a)).

Definition set_dcRef (dc : RTCDataChannel) : M App unit :=
  modify (fun a => mkApp (state a) (sharedKey a) (messages a) (offerLink a)
                     (answerData a) (manualInput a) (pcRef a) (Some dc)
                     (alerts a) (console a)).

Definition alert (message : jsstring) : M App unit :=
  modify (fun a => mkApp (state a) (sharedKey a) (messages a) (offerLink a)
                     (answerData a) (manualInput a) (pcRef a) (dcRef a)
                     (alerts a ++ [message]) (console a)).

(** A computation on the console, run on the console of the component. *)
Definition on_console {A} (m : M Console A) : M App A :=
  fun a =>
    let (r, c) := m (console a) in
    (r, mkApp (state a) (sharedKey a) (messages a) (offerLink a)
          (answerData a) (manualInput a) (pcRef a) (dcRef a) (alerts a) c).

(** What the handlers get from outside the component. *)
Record Environment : Type := {
  generateKey : completion (CryptoKey W);   (* Security.generateKey() *)
  new_RTCPeerConnection : RTCPeerConnection; (* new RTCPeerConnection(..) *)
  location : jsstring                        (* origin and pathname *)
}.

(** [pc.oniceconnectionstatechange], set by [initPeer]. *)
Definition oniceconnectionstatechange (s : RTCIceConnectionState)
  : M App unit :=
  match s with
  | disconnected => alert (str "Connection lost") ;; setState INIT
  | _ => ret tt
  end.

(** [initPeer]. *)
Definition initPeer (env : Environment) : M App RTCPeerConnection :=
  let pc := new_RTCPeerConnection env in
  set_pcRef pc ;; ret pc.

(** [dc.onopen]. *)
Definition onopen : M App unit := setState CONNECTED.

(** [dc.onmessage], as the closure that holds [sharedKey]: [data] is
    [e.data]; [fresh] and [now] are the [id] and the time of the message
    it may append. *)
Definition onmessage (sharedKey : option (CryptoKey W))
    (data fresh : jsstring) (now : Z) : M App unit :=
  try_catch
    (payload <- lift (parse data) ;;
     iv <- lift (get payload (str "iv")) ;;
     if truthy_opt iv then
       d <- lift (get payload (str "data")) ;;
       match iv, d, sharedKey with
       | Some iv, Some d, Some key =>
           if truthy d then
             text <- lift (decryptData_untyped W d iv key) ;;
             appendMessage {| id := fresh; text := text; sender := peer;
                              timestamp := now |}
           else ret tt
       | _, _, _ => ret tt
       end
     else ret tt)
    (fun err => on_console (console_error (str "Decryption failed") err)).

(** [setupDataChannel], in the render [snapshot]. *)
Definition setupDataChannel (snapshot : App) (name : jsstring) : M App unit :=
  set_dcRef {| label := name; onmessage_sharedKey := sharedKey snapshot |}.

(** [startHost], in the render [snapshot]. *)
Definition startHost (snapshot : App) (env : Environment) : M App unit :=
  setState HOST_GENERATING ;;
  try_catch
    (key <- lift (generateKey env) ;;
     setSharedKey key ;;
     rawKey <- lift (exportKey W key) ;;
     pc <- initPeer env ;;
     setupDataChannel snapshot (str "secure-chat") ;;
     offer <- lift (createOffer pc) ;;
     lift (setLocalDescription pc offer) ;;
     waitForIce pc ;;
     let hash := generateLinkHash L (toJSON (localDescription pc)) rawKey in
     let link := location env ++ str "#" ++ hash in
     setOfferLink link ;;
     setState HOST_WAITING)
    (fun e =>
       on_console (console_error [] e) ;;
       alert (str "Failed to initialize host") ;;
       setState INIT).

(** The statements of [handleHostProcessAnswer] that fill [answerSDP],
    each from the value the one before left in it.  First the compressed
    token: [payload.s], if there is a payload and it has one. *)
Definition answer_from_token (manualInput : jsstring) (answerSDP : value)
  : M App value :=
  try_catch
    (payload <- on_console (parseLinkHash L manualInput) ;;
     if truthy payload then
       s <- lift (get payload (str "s")) ;;
       match s with
       | Some s => if truthy s then ret s else ret answerSDP
       | None => ret answerSDP
       end
     else ret answerSDP)
    (fun _ => ret answerSDP).

(** Then, if [answerSDP] is still falsy, base64 of JSON text. *)
Definition answer_from_base64 (manualInput : jsstring) (answerSDP : value)
  : M App value :=
  if negb (truthy answerSDP) then
    try_catch
      (binary <- lift (Base64.atob manualInput) ;;
       lift (parse binary))
      (fun _ => ret answerSDP)
  else ret answerSDP.

(** Then, if it is still falsy and the input starts with a brace, JSON
    text; this [JSON.parse] is in no [try] of its own. *)
Definition answer_from_text (manualInput : jsstring) (answerSDP : value)
  : M App value :=
  if negb (truthy answerSDP) && startsWith_brace manualInput
  then lift (parse manualInput)
  else ret answerSDP.

(** The last statement: the answer goes to the connection, or the code
    is reported invalid. *)
Definition apply_answer (answerSDP : value) : M App unit :=
  pc <- read pcRef ;;
  match pc with
  | Some pc =>
      if truthy answerSDP then lift (setRemoteDescription pc answerSDP)
      else alert (str "Invalid Answer Code")
  | None => alert (str "Invalid Answer Code")
  end.

(** [handleHostProcessAnswer], in the render [snapshot]. *)
Definition handleHostProcessAnswer (snapshot : App) : M App unit :=
  let manualInput := manualInput snapshot in
  if is_empty (trim manualInput) then ret tt
  else
    try_catch
      (let answerSDP := VNull in
       answerSDP <- answer_from_token manualInput answerSDP ;;
       answerSDP <- answer_from_base64 manualInput answerSDP ;;
       answerSDP <- answer_from_text manualInput answerSDP ;;
       apply_answer answerSDP)
      (fun e =>
         on_console (console_error [] e) ;;
         alert (str "Error connecting")).

(** [handleGuestLoad], in the render [snapshot]. *)
Definition handleGuestLoad (snapshot : App) (env : Environment)
    (hash : jsstring) : M App unit :=
  setState GUEST_PROCESSING ;;
  try_catch
    (data <- on_console (parseLinkHash L hash) ;;
     s <- (if truthy data then lift (get data (str "s")) else ret None) ;;
     k <- (if truthy_opt s then lift (get data (str "k")) else ret None) ;;
     match s, k with
     | Some s, Some k =>
         if truthy s && truthy k then
           key <- lift (importKey_untyped W k) ;;
           setSharedKey key ;;
           pc <- initPeer env ;;
           lift (setRemoteDescription pc s) ;;
           answer <- lift (createAnswer pc) ;;
           lift (setLocalDescription pc answer) ;;
           waitForIce pc ;;
           answerString <-
             lift (Base64.btoa (stringify (toJSON (localDescription pc)))) ;;
           setAnswerData answerString ;;
           setState GUEST_ANSWER_READY
         else alert (str "Invalid Invite Link") ;; setState INIT
     | _, _ => alert (str "Invalid Invite Link") ;; setState INIT
     end)
    (fun e =>
       on_console (console_error [] e) ;;
       alert (str "Failed to join session") ;;
       setState INIT).

(** A handler called in the render of the current state. *)
Definition run {A} (handler : App -> M App A) (a : App) : outcome A * App :=
  handler a a.

End App.

Arguments label {W} r.
Arguments onmessage_sharedKey {W} r.
Arguments state {W} a.
Arguments sharedKey {W} a.
Arguments messages {W} a.
Arguments offerLink {W} a.
Arguments answerData {W} a.
Arguments manualInput {W} a.
Arguments pcRef {W} a.
Arguments dcRef {W} a.
Arguments alerts {W} a.
Arguments console {W} a.
Arguments generateKey {W} e.
Arguments new_RTCPeerConnection {W} e.
Arguments location {W} e.
Arguments run {W A} handler a.

(* ================================================================== *)
(** * [App.tsx]: sending, and the channel the Guest is given *)
(* ================================================================== *)

Section Chat.
Context (W : WebCrypto) (L : LZString).

Import JSON.

(** The component with the rest of what [sendMessage] touches: the text
    being typed ([inputText]), the strings given to [dc.send], in order,
    and the random source of the page. *)
Record Chat : Type := mkChat {
  component : App W;
  inputText : jsstring;
  sent : list jsstring;
  random : entropy
}.

(** A handler of the component, run on the component of the page. *)
Definition on_app {A} (m : M (App W) A) : M Chat A :=
  fun c =>
    let (r, a) := m (component c) in
    (r, mkChat a (inputText c) (sent c) (random c)).

Definition setInputText (x : jsstring) : M Chat unit :=
  modify (fun c => mkChat (component c) x (sent c) (random c)).

(** [await Security.encryptData(text, key)], the nonce being drawn from
    the random source of the page. *)
Definition await_encryptData (text : jsstring) (key : CryptoKey W)
  : M Chat encrypted :=
  fun c =>
    let (r, rng') := encryptData W text key (random c) in
    lift r (mkChat (component c) (inputText c) (sent c) rng').

(** [dcRef.current.send(x)]: [channel] is what the channel answers (it
    throws when it is not open); a string it accepts is on the wire. *)
Definition send (channel : completion unit) (x : jsstring) : M Chat unit :=
  lift channel ;;
  modify (fun c => mkChat (component c) (inputText c) (sent c ++ [x]) (random c)).

(** [sendMessage], in the render [snapshot]: [fresh] and [now] are the
    [id] and the time of the message it may append. *)
Definition sendMessage (snapshot : Chat) (channel : completion unit)
    (fresh : jsstring) (now : Z) : M Chat unit :=
  let inputText := inputText snapshot in
  let sharedKey := sharedKey (component snapshot) in
  if is_empty (trim inputText) then ret tt
  else
    match sharedKey with
    | None => ret tt
    | Some sharedKey =>
        dc <- read (fun c => dcRef (component c)) ;;
        match dc with
        | None => ret tt
        | Some _ =>
            try_catch
              (e <- await_encryptData inputText sharedKey ;;
               send channel
                 (stringify (VObj [(str "iv", VStr (iv e));
                                   (str "data", VStr (data e))])) ;;
               on_app (appendMessage W {| id := fresh; text := inputText;
                                          sender := me; timestamp := now |}) ;;
               setInputText [])
              (fun e =>
                 on_app (on_console W (console_error (str "Send failed") e)))
        end
    end.


End Chat.

Arguments component {W} c.
Arguments inputText {W} c.
Arguments sent {W} c.
Arguments random {W} c.


(* ================================================================== *)
(** * The vocabulary of the statements *)
(* ================================================================== *)

(** The transport has signalled that gathering is complete: the state
    was [complete] when [waitForIce] was called, or an event since then
    found it so. *)
Definition gathering_complete (pc : RTCPeerConnection) : bool :=
  is_complete (iceGatheringState pc)
  || existsb is_complete (icegatheringstatechange pc).

(** The descriptor and the key of a decoded invite, when it has both and
    both are truthy. *)
Definition invite_fields (data : JSON.value)
  : option (JSON.value * JSON.value) :=
  match data with
  | JSON.VObj members =>
      match JSON.lookup (str "s") members, JSON.lookup (str "k") members with
      | Some s, Some k =>
          if JSON.truthy s && JSON.truthy k then Some (s, k) else None
      | _, _ => None
      end
  | _ => None
  end.

(** A descriptor out of a text that may be missing: the value
    [JSON.parse] gives, if it is truthy. *)
Definition structured (text : completion jsstring) : option JSON.value :=
  match (let? t := text in JSON.parse t) with
  | Normal v => if JSON.truthy v then Some v else None
  | Throw _ => None
  end.

(** Base64 of JSON text, and JSON text, as decodings of a pasted answer. *)
Definition base64_structured (input : jsstring) : option JSON.value :=
  structured (Base64.atob input).

Definition raw_structured (input : jsstring) : option JSON.value :=
  structured (Normal input).

(** The first decoding that gives a descriptor. *)
Fixpoint first_valid (branches : list (option JSON.value))
  : option JSON.value :=
  match branches with
  | [] => None
  | Some d :: _ => Some d
  | None :: rest => first_valid rest
  end.

Section Vocabulary.
Context (W : WebCrypto) (L : LZString).
Import JSON.

(** What [parseLinkHash] returns, by what the library and [JSON.parse]
    make of the token. *)
Definition decoded (hash : jsstring) : value :=
  match decompressFromEncodedURIComponent L hash with
  | Normal (Some (x :: r)) =>
      match parse (x :: r) with
      | Normal v => v
      | Throw _ => VNull
      end
  | _ => VNull
  end.

(** The compressed token as a decoding of a pasted answer: the field [s]
    of the payload, if it is truthy. *)
Definition compressed_token (input : jsstring) : option value :=
  match decoded input with
  | VObj members =>
      match lookup (str "s") members with
      | Some s => if truthy s then Some s else None
      | None => None
      end
  | _ => None
  end.

(** The component with another console. *)
Definition with_console (a : App W) (c : Console) : App W :=
  mkApp W (state a) (sharedKey a) (messages a) (offerLink a) (answerData a)
    (manualInput a) (pcRef a) (dcRef a) (alerts a) c.

(** The component in state [x] after an alert, with the console [c]: the
    key, the connection, the channel and the tokens are those of [a]. *)
Definition reported (a : App W) (x : State) (message : jsstring)
    (c : Console) : App W :=
  mkApp W x (sharedKey a) (messages a) (offerLink a) (answerData a)
    (manualInput a) (pcRef a) (dcRef a) (alerts a ++ [message]) c.

(** The component once the key is imported and the connection made. *)
Definition joined (a : App W) (x : State) (key : CryptoKey W)
    (pc : RTCPeerConnection) (new_alerts : list jsstring) (c : Console)
    (token : jsstring) : App W :=
  mkApp W x (Some key) (messages a) (offerLink a) token (manualInput a)
    (Some pc) (dcRef a) (alerts a ++ new_alerts) c.

(** The component after [console.error("Decryption failed", e)]. *)
Definition logged (a : App W) (e : exn) : App W :=
  mkApp W (state a) (sharedKey a) (messages a) (offerLink a) (answerData a)
    (manualInput a) (pcRef a) (dcRef a) (alerts a)
    (console a ++ [(str "Decryption failed", e)]).

(** The component after a message from the peer was appended. *)
Definition received (a : App W) (m : Message) : App W :=
  mkApp W (state a) (sharedKey a) (messages a ++ [m]) (offerLink a)
    (answerData a) (manualInput a) (pcRef a) (dcRef a) (alerts a)
    (console a).

(** The component after [alert("Invalid Answer Code")]. *)
Definition invalid_answer (a : App W) : App W :=
  mkApp W (state a) (sharedKey a) (messages a) (offerLink a) (answerData a)
    (manualInput a) (pcRef a) (dcRef a)
    (alerts a ++ [str "Invalid Answer Code"]) (console a).

(** The component after [console.error(e)] and
    [alert("Error connecting")]. *)
Definition error_connecting (a : App W) (e : exn) : App W :=
  mkApp W (state a) (sharedKey a) (messages a) (offerLink a) (answerData a)
    (manualInput a) (pcRef a) (dcRef a)
    (alerts a ++ [str "Error connecting"]) (console a ++ [([], e)]).

(** A descriptor handed to the connection, if there is one. *)
Definition handed (a : App W) (d : value) : App W :=
  match pcRef a with
  | Some pc =>
      match setRemoteDescription pc d with
      | Normal _ => a
      | Throw e => error_connecting a e
      end
  | None => invalid_answer a
  end.

End Vocabulary.

Arguments with_console {W} a c.
Arguments reported {W} a x message c.
Arguments joined {W} a x key pc new_alerts c token.
Arguments logged {W} a e.
Arguments received {W} a m.
Arguments invalid_answer {W} a.
Arguments error_connecting {W} a e.
Arguments handed {W} a d.

(* ================================================================== *)
(** * The vocabulary of the statements on sending and hosting *)
(* ================================================================== *)

(** A character of the base64 alphabet. *)
Definition base64_alphabet (c : code_unit) : bool :=
  match Base64.dec c with
  | Some _ => true
  | None => false
  end.

(** A character of base64 text: of the alphabet, or [=]. *)
Definition base64_character (c : code_unit) : bool :=
  base64_alphabet c || (c =? Base64.pad).

(** A character that [atob] reads or skips: of base64 text, or ASCII
    white space. *)
Definition atob_accepts (c : code_unit) : bool :=
  base64_character c || Base64.is_ascii_whitespace c.

(** The message [sendMessage] puts on the wire for what [encryptData]
    returned. *)
Definition wire (e : encrypted) : jsstring :=
  JSON.stringify
    (JSON.VObj [(str "iv", JSON.VStr (iv e));
                (str "data", JSON.VStr (data e))]).

Section Outcomes.
Context (W : WebCrypto).

(** The page after [sendMessage] sent [payload] and appended [m]: the
    input is cleared and the random source is [rng]. *)
Definition delivered (c : Chat W) (m : Message) (payload : jsstring)
    (rng : entropy) : Chat W :=
  mkChat W (received (component c) m) [] (sent c ++ [payload]) rng.

(** The page after [console.error("Send failed", e)]: nothing is on the
    wire, nothing is appended and the input is as it was. *)
Definition send_failed (c : Chat W) (e : exn) (rng : entropy) : Chat W :=
  mkChat W
    (with_console (component c) (console (component c) ++ [(str "Send failed", e)]))
    (inputText c) (sent c) rng.

(** The Host once the key is made, the connection and the channel set
    up. *)
Definition hosted (a : App W) (x : State) (key : CryptoKey W)
    (pc : RTCPeerConnection) (dc : RTCDataChannel W)
    (new_alerts : list jsstring) (c : Console) (link : jsstring) : App W :=
  mkApp W x (Some key) (messages a) link (answerData a) (manualInput a)
    (Some pc) (Some dc) (alerts a ++ new_alerts) c.

End Outcomes.

Arguments delivered {W} c m payload rng.
Arguments send_failed {W} c e rng.
Arguments hosted {W} a x key pc dc new_alerts c link.


(* ================================================================== *)
(** * An instance of the Web Crypto interface *)
(* ================================================================== *)

(** A cipher that satisfies the two laws of [WebCrypto], to instantiate
    the statements below at concrete inputs.  The output carries the
    nonce and the key in clear before the text: it stands for the
    interface, not for AES-GCM. *)
Module ModelCipher.

Fixpoint strip_prefix (pre l : ArrayBuffer) : option ArrayBuffer :=
  match pre with
  | [] => Some l
  | x :: pre' =>
      match l with
      | y :: l' => if Byte.eqb x y then strip_prefix pre' l' else None
      | [] => None
      end
  end.

Definition encrypt (k iv p : ArrayBuffer) : ArrayBuffer := iv ++ k ++ p.

Definition decrypt (k iv c : ArrayBuffer) : option ArrayBuffer :=
  strip_prefix (iv ++ k) c.

(** A raw key is 16, 24 or 32 bytes long. *)
Definition importKey (raw : ArrayBuffer) : option ArrayBuffer :=
  if (length raw =? 16)%nat || (length raw =? 24)%nat || (length raw =? 32)%nat
  then Some raw else None.

Lemma strip_prefix_app pre l : strip_prefix pre (pre ++ l) = Some l.
Proof.
  induction pre as [|x pre IH]; cbn [strip_prefix app]; [reflexivity|].
  now rewrite (Byte.byte_dec_lb eq_refl).
Qed.

Lemma decrypt_after_encrypt k iv p : decrypt k iv (encrypt k iv p) = Some p.
Proof.
  unfold decrypt, encrypt. rewrite app_assoc. apply strip_prefix_app.
Qed.

Lemma encrypt_distinct_nonces k iv1 iv2 p :
  length iv1 = 12%nat -> length iv2 = 12%nat ->
  encrypt k iv1 p = encrypt k iv2 p -> iv1 = iv2.
Proof.
  unfold encrypt. intros H1 H2 E.
  apply app_inv_tail in E. exact E.
Qed.

Definition crypto : WebCrypto :=
  {| CryptoKey := ArrayBuffer;
     subtle_encrypt := encrypt;
     subtle_decrypt := decrypt;
     subtle_importKey := importKey;
     subtle_exportKey := fun k => k;
     decrypt_encrypt := decrypt_after_encrypt;
     encrypt_nonce := encrypt_distinct_nonces |}.

(** A random source that counts. *)
Definition counter : entropy := fun i => byte_of_Z (Z.of_nat i).

Definition key : ArrayBuffer := map byte_of_Z [1; 2; 3; 4; 5; 6; 7; 8; 9; 10; 11; 12; 13; 14; 15; 16].

End ModelCipher.

(* ================================================================== *)
(** * An instance of the compression interface *)
(* ================================================================== *)

(** A codec that satisfies the law of [LZString], to instantiate the
    statements below at concrete inputs: a token is the text after a
    mark, and a text without the mark decompresses to [null]. *)
Module ModelLZ.

Definition mark : code_unit := 78.

Definition compress (s : jsstring) : jsstring := mark :: s.

Definition decompress (s : jsstring) : completion (option jsstring) :=
  match s with
  | c :: r => if c =? mark then Normal (Some r) else Normal None
  | [] => Normal None
  end.

Lemma decompress_after_compress s :
  s <> [] -> decompress (compress s) = Normal (Some s).
Proof. reflexivity. Qed.

Definition codec : LZString :=
  {| compressToEncodedURIComponent := compress;
     decompressFromEncodedURIComponent := decompress;
     decompress_compress := decompress_after_compress |}.

End ModelLZ.

(* ================================================================== *)
(** * A session with the model cipher and codec *)
(* ================================================================== *)

Module Scenario.

Definition W : WebCrypto := ModelCipher.crypto.
Definition L : LZString := ModelLZ.codec.

Definition offered : RTCSessionDescription :=
  {| sdp_type := offer; sdp := str "v=0 o=host" |}.

Definition answered : RTCSessionDescription :=
  {| sdp_type := answer; sdp := str "v=0 o=guest" |}.

(** A connection that gathers and accepts what it is given. *)
Definition accepting : RTCPeerConnection :=
  {| createOffer := Normal offered;
     createAnswer := Normal answered;
     setLocalDescription := fun _ => Normal tt;
     setRemoteDescription := fun _ => Normal tt;
     iceGatheringState := gathering;
     icegatheringstatechange := [gathering; complete];
     localDescription := Some answered |}.

(** A connection that rejects the remote description. *)
Definition rejecting : RTCPeerConnection :=
  {| createOffer := Normal offered;
     createAnswer := Normal answered;
     setLocalDescription := fun _ => Normal tt;
     setRemoteDescription := fun _ => Throw TransportError;
     iceGatheringState := gathering;
     icegatheringstatechange := [gathering; complete];
     localDescription := Some answered |}.

Definition environment (pc : RTCPeerConnection) : Environment W :=
  {| generateKey := Normal (ModelCipher.key : CryptoKey W);
     new_RTCPeerConnection := pc;
     location := str "https://chat.example/" |}.

(** The invite the host makes for [offered] and the model key. *)
Definition invite : jsstring :=
  generateLinkHash L (toJSON (Some offered)) (str "AQIDBAUGBwgJCgsMDQ4PEA==").

End Scenario.

Module HostScenario.
Import Scenario.

(** The Host after [startHost], waiting for the answer. *)
Definition hosting : App W :=
  snd (run (fun snapshot => startHost W L snapshot (environment accepting))
         (initial W)).

(** The same, with [input] typed into the answer field. *)
Definition pasted (input : jsstring) : App W :=
  snd (setManualInput W input hosting).

Definition process (a : App W) : outcome unit * App W :=
  run (fun snapshot => handleHostProcessAnswer W L snapshot) a.

End HostScenario.

(* ================================================================== *)
(** * A conversation with the model cipher and codec *)
(* ================================================================== *)

Module ChatScenario.
Import Scenario.

(** The connection of a Host: it gathers, and its local description is
    the offer. *)
Definition offering : RTCPeerConnection :=
  {| createOffer := Normal offered;
     createAnswer := Normal answered;
     setLocalDescription := fun _ => Normal tt;
     setRemoteDescription := fun _ => Normal tt;
     iceGatheringState := gathering;
     icegatheringstatechange := [gathering; complete];
     localDescription := Some offered |}.

(** A page whose render holds the key and a channel, with [input] typed
    and nothing sent yet. *)
Definition typing (input : jsstring) : Chat W :=
  mkChat W (snd (setSharedKey W ModelCipher.key HostScenario.hosting))
    input [] ModelCipher.counter.

End ChatScenario.


(* ================================================================== *)
(** * Properties of [btoa] and [atob] *)
(* ================================================================== *)

Module BitFacts.

Lemma lor_shiftl_add (u y k : Z) :
  0 <= k -> 0 <= y < 2 ^ k -> Z.lor (Z.shiftl u k) y = u * 2 ^ k + y.
Proof.
  intros Hk Hy.
  rewrite Z.shiftl_mul_pow2 by lia.
  assert (H0 : Z.land (u * 2 ^ k) y = 0);
    [| pose proof (Z.add_lor_land (u * 2 ^ k) y); lia].
  apply Z.bits_inj'. intros n Hn.
  rewrite Z.land_spec, Z.bits_0.
  destruct (Z.ltb_spec n k).
  - rewrite Z.mul_pow2_bits_low by lia. reflexivity.
  - destruct (Z.eq_dec y 0) as [->|Hy0].
    + rewrite Z.bits_0. apply andb_false_r.
    + rewrite (Z.bits_above_log2 y n); [apply andb_false_r|lia|].
      apply Z.log2_lt_pow2; try lia.
      apply Z.lt_le_trans with (2^k); try lia.
      apply Z.pow_le_mono_r; lia.
Qed.

Ltac divmod :=
  cbn [Z.pow Z.pow_pos Pos.iter Z.mul Pos.mul] in *;
  Z.div_mod_to_equations; lia.

(** Shifts and masks of small numbers as divisions and remainders. *)
Ltac bits :=
  change 3 with (Z.ones 2); change 15 with (Z.ones 4);
  change 63 with (Z.ones 6);
  rewrite ?Z.land_ones by lia;
  rewrite ?Z.shiftr_div_pow2 by lia;
  repeat match goal with
  | |- context [Z.lor (Z.shiftl ?u ?k) ?y] =>
      rewrite (lor_shiftl_add u y k)
        by first [ lia | rewrite ?Z.shiftl_mul_pow2 by lia; divmod ]
  end;
  rewrite ?Z.shiftl_mul_pow2 by lia.

(** Case analysis on the comparisons of the goal, pruning the cases
    that the hypotheses exclude. *)
Ltac cases_cmp :=
  repeat match goal with
  | |- context [?a <? ?b] => destruct (Z.ltb_spec a b); try lia
  | |- context [?a =? ?b] => destruct (Z.eqb_spec a b); try lia
  | |- context [?a <=? ?b] => destruct (Z.leb_spec a b); try lia
  end.

Definition octet (a : Z) : Prop := 0 <= a < 256.

(** Induction on a list three elements at a time. *)
Lemma list_ind3 (A : Type) (P : list A -> Prop) :
  P [] -> (forall a, P [a]) -> (forall a b, P [a; b]) ->
  (forall a b c r, P r -> P (a :: b :: c :: r)) ->
  forall l, P l.
Proof.
  intros H0 H1 H2 H3.
  fix IH 1.
  intros [|a [|b [|c r]]];
    [exact H0 | apply H1 | apply H2 | apply H3, IH].
Qed.

(** Induction on a list one or two elements at a time. *)
Lemma pair_ind (A : Type) (P : list A -> Prop) :
  P [] -> (forall c, P [c]) ->
  (forall c d r, P r -> P (d :: r) -> P (c :: d :: r)) ->
  forall s, P s.
Proof.
  intros H0 H1 H2 s.
  assert (H : P s /\ forall c, P (c :: s)); [|exact (proj1 H)].
  induction s as [|d r [IHr IHc]]; split; auto.
Qed.

End BitFacts.

Module Base64Facts.
Import Base64 BitFacts.

Definition sextet (n : Z) : Prop := 0 <= n < 64.

Lemma sextet_1 a : octet a -> sextet (Z.shiftr a 2).
Proof. unfold octet, sextet. intros. bits. divmod. Qed.

Lemma sextet_2 a b :
  octet a -> octet b ->
  sextet (Z.lor (Z.shiftl (Z.land a 3) 4) (Z.shiftr b 4)).
Proof. unfold octet, sextet. intros. bits. divmod. Qed.

Lemma sextet_2_last a : octet a -> sextet (Z.shiftl (Z.land a 3) 4).
Proof. unfold octet, sextet. intros. bits. divmod. Qed.

Lemma sextet_3 b c :
  octet b -> octet c ->
  sextet (Z.lor (Z.shiftl (Z.land b 15) 2) (Z.shiftr c 6)).
Proof. unfold octet, sextet. intros. bits. divmod. Qed.

Lemma sextet_3_last b : octet b -> sextet (Z.shiftl (Z.land b 15) 2).
Proof. unfold octet, sextet. intros. bits. divmod. Qed.

Lemma sextet_4 c : octet c -> sextet (Z.land c 63).
Proof. unfold octet, sextet. intros. bits. divmod. Qed.

Lemma octet_1 a b :
  octet a -> octet b ->
  Z.lor (Z.shiftl (Z.shiftr a 2) 2)
        (Z.shiftr (Z.lor (Z.shiftl (Z.land a 3) 4) (Z.shiftr b 4)) 4) = a.
Proof. unfold octet. intros. bits. divmod. Qed.

Lemma octet_1_last a :
  octet a ->
  Z.lor (Z.shiftl (Z.shiftr a 2) 2)
        (Z.shiftr (Z.shiftl (Z.land a 3) 4) 4) = a.
Proof. unfold octet. intros. bits. divmod. Qed.

Lemma octet_2 a b c :
  octet a -> octet b -> octet c ->
  Z.lor (Z.shiftl (Z.land (Z.lor (Z.shiftl (Z.land a 3) 4) (Z.shiftr b 4)) 15) 4)
        (Z.shiftr (Z.lor (Z.shiftl (Z.land b 15) 2) (Z.shiftr c 6)) 2) = b.
Proof. unfold octet. intros. bits. divmod. Qed.

Lemma octet_2_last a b :
  octet a -> octet b ->
  Z.lor (Z.shiftl (Z.land (Z.lor (Z.shiftl (Z.land a 3) 4) (Z.shiftr b 4)) 15) 4)
        (Z.shiftr (Z.shiftl (Z.land b 15) 2) 2) = b.
Proof. unfold octet. intros. bits. divmod. Qed.

Lemma octet_3 b c :
  octet b -> octet c ->
  Z.lor (Z.shiftl (Z.land (Z.lor (Z.shiftl (Z.land b 15) 2) (Z.shiftr c 6)) 3) 6)
        (Z.land c 63) = c.
Proof. unfold octet. intros. bits. divmod. Qed.

Lemma dec_enc n : sextet n -> dec (enc n) = Some n.
Proof.
  unfold sextet, enc. intros H.
  cases_cmp; unfold dec; cases_cmp; cbn [andb]; f_equal; lia.
Qed.

Lemma enc_not_pad n : sextet n -> (enc n =? pad) = false.
Proof.
  unfold sextet, enc, pad. intros H. apply Z.eqb_neq. cases_cmp.
Qed.

Lemma enc_not_whitespace n : sextet n -> is_ascii_whitespace (enc n) = false.
Proof.
  unfold sextet, enc. intros H.
  cases_cmp; unfold is_ascii_whitespace; cases_cmp; reflexivity.
Qed.

(** The 6-bit values [encode] writes, before they become characters. *)
Fixpoint groups (l : list Z) : list Z :=
  match l with
  | [] => []
  | [a] => [Z.shiftr a 2; Z.shiftl (Z.land a 3) 4]
  | [a; b] =>
      [Z.shiftr a 2;
       Z.lor (Z.shiftl (Z.land a 3) 4) (Z.shiftr b 4);
       Z.shiftl (Z.land b 15) 2]
  | a :: b :: c :: r =>
      Z.shiftr a 2
      :: Z.lor (Z.shiftl (Z.land a 3) 4) (Z.shiftr b 4)
      :: Z.lor (Z.shiftl (Z.land b 15) 2) (Z.shiftr c 6)
      :: Z.land c 63
      :: groups r
  end.

Ltac octets :=
  repeat match goal with
  | H : Forall octet (_ :: _) |- _ => inversion H; subst; clear H
  end.

Lemma groups_sextet l : Forall octet l -> Forall sextet (groups l).
Proof.
  induction l as [| a | a b | a b c r IH] using list_ind3;
    intros H; octets; cbn [groups];
    repeat apply Forall_cons; try apply Forall_nil;
    auto using sextet_1, sextet_2, sextet_2_last, sextet_3,
               sextet_3_last, sextet_4.
Qed.

Lemma decode_groups l : Forall octet l -> decode (groups l) = l.
Proof.
  induction l as [| a | a b | a b c r IH] using list_ind3;
    intros H; octets; cbn [groups decode].
  - reflexivity.
  - now rewrite octet_1_last.
  - now rewrite octet_1, octet_2_last.
  - rewrite octet_1, octet_2, octet_3, IH by assumption. reflexivity.
Qed.

Lemma length_groups l : Z.of_nat (length (groups l)) mod 4 <> 1.
Proof.
  induction l as [| a | a b | a b c r IH] using list_ind3;
    cbn [groups length]; try discriminate.
  rewrite !Nat2Z.inj_succ.
  set (n := Z.of_nat (length (groups r))) in *.
  replace (Z.succ (Z.succ (Z.succ (Z.succ n)))) with (n + 1 * 4) by lia.
  now rewrite Z.mod_add by lia.
Qed.

Lemma length_encode l : Z.of_nat (length (encode l)) mod 4 = 0.
Proof.
  induction l as [| a | a b | a b c r IH] using list_ind3;
    cbn [encode length]; try reflexivity.
  rewrite !Nat2Z.inj_succ.
  set (n := Z.of_nat (length (encode r))) in *.
  replace (Z.succ (Z.succ (Z.succ (Z.succ n)))) with (n + 1 * 4) by lia.
  now rewrite Z.mod_add by lia.
Qed.

Lemma strip_padding_cons x l :
  (x =? pad) = false -> strip_padding (x :: l) = x :: strip_padding l.
Proof.
  intros Hx. cbn [strip_padding is_padding_tail].
  destruct l as [|y [|z l]]; rewrite ?Hx; reflexivity.
Qed.

Lemma strip_padding_encode l :
  Forall octet l -> strip_padding (encode l) = map enc (groups l).
Proof.
  induction l as [| a | a b | a b c r IH] using list_ind3;
    intros H; octets; cbn [encode groups map].
  - reflexivity.
  - rewrite !strip_padding_cons
      by auto using enc_not_pad, sextet_1, sextet_2_last.
    reflexivity.
  - rewrite !strip_padding_cons
      by auto using enc_not_pad, sextet_1, sextet_2, sextet_3_last.
    reflexivity.
  - rewrite !strip_padding_cons
      by auto using enc_not_pad, sextet_1, sextet_2, sextet_3, sextet_4.
    now rewrite IH.
Qed.

Lemma filter_encode l :
  Forall octet l ->
  filter (fun c => negb (is_ascii_whitespace c)) (encode l) = encode l.
Proof.
  induction l as [| a | a b | a b c r IH] using list_ind3;
    intros H; octets; cbn [encode filter];
    rewrite ?enc_not_whitespace
      by auto using sextet_1, sextet_2, sextet_2_last, sextet_3,
                    sextet_3_last, sextet_4;
    cbn [negb is_ascii_whitespace pad Z.eqb orb]; try reflexivity.
  now rewrite IH.
Qed.

Lemma sextets_map_enc ns : Forall sextet ns -> sextets (map enc ns) = Some ns.
Proof.
  induction 1 as [|n ns Hn _ IH]; cbn [map sextets]; [reflexivity|].
  now rewrite dec_enc, IH.
Qed.

Lemma forallb_is_latin1 s : Forall octet s -> forallb is_latin1 s = true.
Proof.
  induction 1 as [|c s Hc _ IH]; cbn [forallb]; [reflexivity|].
  rewrite IH. unfold is_latin1, octet in *.
  destruct (Z.leb_spec 0 c), (Z.leb_spec c 255); cbn; lia.
Qed.

(** [atob] undoes [btoa] on every string [btoa] accepts. *)
Lemma atob_btoa s :
  Forall octet s -> btoa s = Normal (encode s) /\ atob (encode s) = Normal s.
Proof.
  intros H. split.
  - unfold btoa. now rewrite forallb_is_latin1.
  - unfold atob. rewrite filter_encode by assumption.
    rewrite length_encode. cbn [Z.eqb].
    rewrite strip_padding_encode by assumption.
    rewrite length_map.
    destruct (Z.eqb_spec (Z.of_nat (length (groups s)) mod 4) 1) as [E|_].
    + now apply length_groups in E.
    + rewrite sextets_map_enc by now apply groups_sextet.
      now rewrite decode_groups.
Qed.

Lemma Z_of_byte_octet b : octet (Z_of_byte b).
Proof.
  unfold octet, Z_of_byte. pose proof (Byte.to_N_bounded b). lia.
Qed.

Lemma byte_of_Z_of_byte b : byte_of_Z (Z_of_byte b) = b.
Proof.
  unfold byte_of_Z. rewrite Z.mod_small by apply Z_of_byte_octet.
  unfold Z_of_byte. now rewrite N2Z.id, Byte.of_to_N.
Qed.

Lemma map_Z_of_byte_octet buf : Forall octet (map Z_of_byte buf).
Proof. induction buf; constructor; auto using Z_of_byte_octet. Qed.

Lemma map_byte_of_Z_of_byte buf : map byte_of_Z (map Z_of_byte buf) = buf.
Proof.
  induction buf as [|b buf IH]; cbn [map]; [reflexivity|].
  now rewrite byte_of_Z_of_byte, IH.
Qed.

End Base64Facts.

(* ================================================================== *)
(** * Properties of [TextEncoder] and [TextDecoder] *)
(* ================================================================== *)

Module UTF8Facts.
Import UTF8 BitFacts.

(** A Unicode scalar value. *)
Definition scalar (cp : Z) : Prop :=
  0 <= cp < 0x110000 /\ ~ (0xD800 <= cp <= 0xDFFF).

Lemma lor_C0 x : 0 <= x < 64 -> Z.lor 0xC0 x = 0xC0 + x.
Proof. intros. change 0xC0 with (Z.shiftl 3 6). now rewrite lor_shiftl_add by lia. Qed.

Lemma lor_E0 x : 0 <= x < 32 -> Z.lor 0xE0 x = 0xE0 + x.
Proof. intros. change 0xE0 with (Z.shiftl 7 5). now rewrite lor_shiftl_add by lia. Qed.

Lemma lor_F0 x : 0 <= x < 16 -> Z.lor 0xF0 x = 0xF0 + x.
Proof. intros. change 0xF0 with (Z.shiftl 15 4). now rewrite lor_shiftl_add by lia. Qed.

Lemma lor_80 x : 0 <= x < 64 -> Z.lor 0x80 x = 0x80 + x.
Proof. intros. change 0x80 with (Z.shiftl 2 6). now rewrite lor_shiftl_add by lia. Qed.

Lemma land_3F x : 0 <= Z.land x 0x3F < 64.
Proof. change 0x3F with (Z.ones 6). rewrite Z.land_ones by lia. divmod. Qed.

(** The continuation byte that carries the six bits [y]. *)
Definition trail (y : Z) : Z := Z.lor 0x80 (Z.land y 0x3F).

Lemma trail_eq y : trail y = 0x80 + y mod 64.
Proof.
  unfold trail. rewrite lor_80 by apply land_3F.
  change 0x3F with (Z.ones 6). now rewrite Z.land_ones by lia.
Qed.

Lemma run_lead b r :
  run initial (b :: r) = let (out, st') := lead b in out ++ run st' r.
Proof. reflexivity. Qed.

Lemma trail_bits cp y :
  0 <= cp -> Z.lor (Z.shiftl cp 6) (Z.land (trail y) 0x3F) = cp * 64 + y mod 64.
Proof.
  intros Hcp. rewrite trail_eq. change 0x3F with (Z.ones 6).
  rewrite Z.land_ones by lia.
  rewrite lor_shiftl_add by first [lia | divmod]. divmod.
Qed.

Lemma run_trail_last cp lo hi y r :
  0 <= cp -> lo <= 0x80 + y mod 64 <= hi ->
  run (mkDecoder cp 1 lo hi) (trail y :: r) =
  (cp * 64 + y mod 64) :: run initial r.
Proof.
  intros Hcp Hy.
  cbn [run bytes_needed lower_boundary upper_boundary code_point].
  rewrite trail_bits by assumption. rewrite trail_eq.
  destruct (Z.leb_spec lo (128 + y mod 64)); [|lia].
  destruct (Z.leb_spec (128 + y mod 64) hi); [|lia].
  reflexivity.
Qed.

Lemma run_trail_more cp n lo hi y r :
  0 <= cp -> 2 <= n -> lo <= 0x80 + y mod 64 <= hi ->
  run (mkDecoder cp n lo hi) (trail y :: r) =
  run (mkDecoder (cp * 64 + y mod 64) (n - 1) 0x80 0xBF) r.
Proof.
  intros Hcp Hn Hy.
  cbn [run bytes_needed lower_boundary upper_boundary code_point].
  destruct (Z.eqb_spec n 0); [lia|].
  destruct (Z.eqb_spec n 1); [lia|].
  rewrite trail_bits by assumption. rewrite trail_eq.
  destruct (Z.leb_spec lo (128 + y mod 64)); [|lia].
  destruct (Z.leb_spec (128 + y mod 64) hi); [|lia].
  reflexivity.
Qed.

Lemma lead_1 b : 0 <= b < 0x80 -> lead b = ([b], initial).
Proof. intros. unfold lead. cases_cmp. reflexivity. Qed.

Lemma lead_2 x :
  2 <= x < 32 -> lead (Z.lor 0xC0 x) = ([], mkDecoder x 1 0x80 0xBF).
Proof.
  intros. rewrite lor_C0 by lia. unfold lead. cases_cmp. cbn [andb].
  f_equal. f_equal. change 0x1F with (Z.ones 5). rewrite Z.land_ones by lia. divmod.
Qed.

Lemma lead_3 x :
  0 <= x < 16 ->
  lead (Z.lor 0xE0 x) =
  ([], mkDecoder x 2 (if x =? 0 then 0xA0 else 0x80)
                     (if x =? 13 then 0x9F else 0xBF)).
Proof.
  intros. rewrite lor_E0 by lia. unfold lead.
  assert (E : Z.land (224 + x) 15 = x).
  { change 15 with (Z.ones 4). rewrite Z.land_ones by lia. divmod. }
  rewrite E. cases_cmp; reflexivity.
Qed.

Lemma lead_4 x :
  0 <= x <= 4 ->
  lead (Z.lor 0xF0 x) =
  ([], mkDecoder x 3 (if x =? 0 then 0x90 else 0x80)
                     (if x =? 4 then 0x8F else 0xBF)).
Proof.
  intros. rewrite lor_F0 by lia. unfold lead.
  assert (E : Z.land (240 + x) 7 = x).
  { change 7 with (Z.ones 3). rewrite Z.land_ones by lia. divmod. }
  rewrite E. cases_cmp; reflexivity.
Qed.

Lemma run_encode_scalar cp rest :
  scalar cp -> run initial (encode_scalar cp ++ rest) = cp :: run initial rest.
Proof.
  intros [Hr Hs]. unfold encode_scalar.
  destruct (Z.ltb_spec cp 0x80); [|destruct (Z.ltb_spec cp 0x800);
    [|destruct (Z.ltb_spec cp 0x10000)]];
    cbn [app]; rewrite run_lead; fold (trail cp);
    fold (trail (Z.shiftr cp 6)); fold (trail (Z.shiftr cp 12));
    rewrite ?Z.shiftr_div_pow2 by lia.
  - rewrite lead_1 by lia. reflexivity.
  - rewrite lead_2 by divmod. cbn [app].
    rewrite run_trail_last by divmod. f_equal. divmod.
  - rewrite lead_3 by divmod. cbn [app].
    rewrite run_trail_more; [| divmod | lia | cases_cmp; divmod ].
    change (2 - 1) with 1.
    rewrite run_trail_last by divmod. f_equal. divmod.
  - rewrite lead_4 by divmod. cbn [app].
    rewrite run_trail_more; [| divmod | lia | cases_cmp; divmod ].
    change (3 - 1) with 2.
    rewrite run_trail_more by divmod.
    change (2 - 1) with 1.
    rewrite run_trail_last by divmod. f_equal. divmod.
Qed.

Lemma run_encode_scalars cps :
  Forall scalar cps -> run initial (flat_map encode_scalar cps) = cps.
Proof.
  induction 1 as [|cp cps Hcp _ IH]; cbn [flat_map]; [reflexivity|].
  now rewrite run_encode_scalar, IH.
Qed.

Lemma encode_scalar_octets cp : scalar cp -> Forall octet (encode_scalar cp).
Proof.
  intros [Hr Hs]. unfold encode_scalar, octet.
  destruct (Z.ltb_spec cp 0x80); [|destruct (Z.ltb_spec cp 0x800);
    [|destruct (Z.ltb_spec cp 0x10000)]];
    fold (trail cp); fold (trail (Z.shiftr cp 6));
    fold (trail (Z.shiftr cp 12));
    rewrite ?trail_eq, ?Z.shiftr_div_pow2 by lia;
    repeat apply Forall_cons; try apply Forall_nil; try divmod.
  - rewrite lor_C0 by divmod. divmod.
  - rewrite lor_E0 by divmod. divmod.
  - rewrite lor_F0 by divmod. divmod.
Qed.

Lemma Z_of_byte_of_Z z : octet z -> Z_of_byte (byte_of_Z z) = z.
Proof.
  unfold octet, byte_of_Z, Z_of_byte. intros Hz.
  rewrite Z.mod_small by lia.
  destruct (Byte.of_N (Z.to_N z)) as [b|] eqn:E.
  - apply Byte.to_of_N in E. rewrite E. lia.
  - pose proof (Byte.to_of_N_option_map (Z.to_N z)) as H.
    rewrite E in H. cbn [option_map] in H.
    destruct (N.leb_spec (Z.to_N z) 255); [discriminate|lia].
Qed.

Lemma map_Z_of_byte_of_Z l :
  Forall octet l -> map Z_of_byte (map byte_of_Z l) = l.
Proof.
  induction 1 as [|z l Hz _ IH]; cbn [map]; [reflexivity|].
  now rewrite Z_of_byte_of_Z, IH.
Qed.

Lemma flat_map_octets cps :
  Forall scalar cps -> Forall octet (flat_map encode_scalar cps).
Proof.
  induction 1 as [|cp cps Hcp _ IH]; cbn [flat_map]; [constructor|].
  apply Forall_app. split; [now apply encode_scalar_octets|exact IH].
Qed.

Ltac surrogates :=
  unfold is_high_surrogate, is_low_surrogate, is_surrogate in *.

Lemma scalar_values_well_formed s :
  well_formed s = true ->
  Forall scalar (scalar_values s)
  /\ flat_map code_units (scalar_values s) = s.
Proof.
  induction s as [|c|c d r IHr IHd] using pair_ind; intros H.
  - split; [constructor|reflexivity].
  - cbn [well_formed] in H. cbn [scalar_values]. surrogates.
    apply andb_prop in H. destruct H as [Hc Hs].
    apply andb_prop in Hc. destruct Hc as [Hc0 Hc1].
    apply Z.leb_le in Hc0, Hc1. apply negb_true_iff in Hs. rewrite Hs.
    apply andb_false_iff in Hs.
    split.
    + repeat constructor; unfold scalar; lia.
    + cbn [flat_map app]. unfold code_units.
      destruct (Z.ltb_spec c 0x10000); [reflexivity|lia].
  - change (well_formed (c :: d :: r)) with
      ((0 <=? c) && (c <=? 0xFFFF) &&
       (if is_high_surrogate c
        then is_low_surrogate d && well_formed r
        else negb (is_surrogate c) && well_formed (d :: r))) in H.
    change (scalar_values (c :: d :: r)) with
      (if is_high_surrogate c && is_low_surrogate d
       then (0x10000 + Z.shiftl (c - 0xD800) 10 + (d - 0xDC00))
            :: scalar_values r
       else (if is_surrogate c then replacement else c)
            :: scalar_values (d :: r)).
    apply andb_prop in H. destruct H as [Hc H].
    apply andb_prop in Hc. destruct Hc as [Hc0 Hc1].
    apply Z.leb_le in Hc0, Hc1.
    destruct (is_high_surrogate c) eqn:Hh.
    + apply andb_prop in H. destruct H as [Hl Hr].
      rewrite Hl. cbn [andb]. destruct (IHr Hr) as [IH1 IH2].
      surrogates.
      apply andb_prop in Hh, Hl. destruct Hh as [Hh0 Hh1], Hl as [Hl0 Hl1].
      apply Z.leb_le in Hh0, Hh1, Hl0, Hl1.
      split.
      * constructor; [|exact IH1]. unfold scalar.
        rewrite Z.shiftl_mul_pow2 by lia. divmod.
      * cbn [flat_map]. rewrite IH2. unfold code_units.
        rewrite Z.shiftl_mul_pow2 by lia.
        match goal with |- context [?a <? ?b] =>
          destruct (Z.ltb_spec a b); [divmod|] end.
        cbn [app]. f_equal; [|f_equal].
        -- rewrite Z.shiftr_div_pow2 by lia. divmod.
        -- change 0x3FF with (Z.ones 10). rewrite Z.land_ones by lia. divmod.
    + cbn [andb]. apply andb_prop in H. destruct H as [Hs Hd].
      apply negb_true_iff in Hs. rewrite Hs.
      destruct (IHd Hd) as [IH1 IH2]. surrogates.
      apply andb_false_iff in Hs. rewrite !Z.leb_gt in Hs.
      split.
      * constructor; [|exact IH1]. unfold scalar. lia.
      * cbn [flat_map]. rewrite IH2. unfold code_units.
        destruct (Z.ltb_spec c 0x10000); [reflexivity|lia].
Qed.

Lemma drop_byte_order_mark_scalar_values s :
  starts_with_byte_order_mark s = false ->
  drop_byte_order_mark (scalar_values s) = scalar_values s.
Proof.
  destruct s as [|c [|d r]]; intros H; [reflexivity| |];
    cbn [starts_with_byte_order_mark] in H;
    apply Z.eqb_neq in H; unfold byte_order_mark in H.
  - cbn [scalar_values drop_byte_order_mark].
    destruct (is_surrogate c); unfold byte_order_mark, replacement;
      [reflexivity|].
    destruct (Z.eqb_spec c 65279); [lia|reflexivity].
  - change (scalar_values (c :: d :: r)) with
      (if is_high_surrogate c && is_low_surrogate d
       then (0x10000 + Z.shiftl (c - 0xD800) 10 + (d - 0xDC00))
            :: scalar_values r
       else (if is_surrogate c then replacement else c)
            :: scalar_values (d :: r)).
    destruct (is_high_surrogate c && is_low_surrogate d) eqn:Hp.
    + apply andb_prop in Hp. destruct Hp as [Hh Hl]. surrogates.
      apply andb_prop in Hh, Hl. destruct Hh as [Hh0 Hh1], Hl as [Hl0 Hl1].
      apply Z.leb_le in Hh0, Hh1, Hl0, Hl1.
      cbn [drop_byte_order_mark]. unfold byte_order_mark.
      rewrite Z.shiftl_mul_pow2 by lia.
      match goal with |- context [?a =? ?b] =>
        destruct (Z.eqb_spec a b); [divmod|reflexivity] end.
    + cbn [drop_byte_order_mark].
      destruct (is_surrogate c); unfold byte_order_mark, replacement;
        [reflexivity|].
      destruct (Z.eqb_spec c 65279); [lia|reflexivity].
Qed.

(** Decoding the UTF-8 encoding of a well-formed string that does not
    start with U+FEFF gives the string back. *)
Lemma decode_encode s :
  well_formed s = true -> starts_with_byte_order_mark s = false ->
  TextDecoder_decode (TextEncoder_encode s) = s.
Proof.
  intros Hw Hb. destruct (scalar_values_well_formed s Hw) as [Hs Hf].
  unfold TextDecoder_decode, TextEncoder_encode.
  rewrite map_Z_of_byte_of_Z by now apply flat_map_octets.
  rewrite run_encode_scalars by assumption.
  now rewrite drop_byte_order_mark_scalar_values.
Qed.

End UTF8Facts.

(* ================================================================== *)
(** * Properties of [JSON.parse] and [JSON.stringify] *)
(* ================================================================== *)

Module JSONFacts.
Import JSON BitFacts.

Definition code_unit_range (c : Z) : Prop := 0 <= c < 65536.

Lemma hex_value_hex_digit n : 0 <= n < 16 -> hex_value (hex_digit n) = Some n.
Proof.
  intros H. unfold hex_digit.
  cases_cmp; unfold hex_value, is_digit; cases_cmp; cbn [andb]; f_equal; lia.
Qed.

Lemma nibble c k : 0 <= k -> 0 <= Z.land (Z.shiftr c k) 15 < 16.
Proof.
  intros. change 15 with (Z.ones 4). rewrite Z.land_ones by lia.
  apply Z.mod_pos_bound. lia.
Qed.

Lemma nibbles c :
  code_unit_range c ->
  Z.lor (Z.shiftl (Z.land (Z.shiftr c 12) 15) 12)
    (Z.lor (Z.shiftl (Z.land (Z.shiftr c 8) 15) 8)
       (Z.lor (Z.shiftl (Z.land (Z.shiftr c 4) 15) 4) (Z.land c 15))) = c.
Proof.
  unfold code_unit_range. intros H.
  change 15 with (Z.ones 4). rewrite !Z.land_ones by lia.
  rewrite !Z.shiftr_div_pow2 by lia.
  rewrite (lor_shiftl_add _ (c mod 2 ^ 4) 4) by first [lia | divmod].
  rewrite (lor_shiftl_add _ _ 8) by first [lia | divmod].
  rewrite (lor_shiftl_add _ _ 12) by first [lia | divmod].
  divmod.
Qed.

Definition cons_result (c : code_unit) (r : option (jsstring * jsstring))
  : option (jsstring * jsstring) :=
  match r with
  | Some (x, rest) => Some (c :: x, rest)
  | None => None
  end.

Lemma parse_string_plain c s :
  (c =? 34) = false -> (c =? 92) = false -> (c <? 32) = false ->
  parse_string (c :: s) = cons_result c (parse_string s).
Proof.
  intros H1 H2 H3. cbn [parse_string]. rewrite H1, H2, H3. reflexivity.
Qed.

Lemma parse_string_unicode_escape c s :
  code_unit_range c ->
  parse_string (unicode_escape c ++ s) = cons_result c (parse_string s).
Proof.
  intros H. unfold unicode_escape. cbn [app parse_string].
  change (92 =? 34) with false. change (92 =? 92) with true.
  change (117 =? 117) with true. cbv iota.
  rewrite !hex_value_hex_digit by (apply nibble; lia).
  change (Z.land c 15) with (Z.land c 15).
  replace (hex_value (hex_digit (Z.land c 15))) with (Some (Z.land c 15)).
  2:{ symmetry. apply hex_value_hex_digit.
      change 15 with (Z.ones 4). rewrite Z.land_ones by lia.
      apply Z.mod_pos_bound. lia. }
  rewrite nibbles by assumption. reflexivity.
Qed.

Lemma parse_string_escape c s :
  code_unit_range c ->
  parse_string (escape c ++ s) = cons_result c (parse_string s).
Proof.
  intros H. unfold escape.
  destruct (Z.eqb_spec c 8) as [->|]; [reflexivity|].
  destruct (Z.eqb_spec c 9) as [->|]; [reflexivity|].
  destruct (Z.eqb_spec c 10) as [->|]; [reflexivity|].
  destruct (Z.eqb_spec c 12) as [->|]; [reflexivity|].
  destruct (Z.eqb_spec c 13) as [->|]; [reflexivity|].
  destruct (Z.eqb_spec c 34) as [->|]; [reflexivity|].
  destruct (Z.eqb_spec c 92) as [->|]; [reflexivity|].
  destruct ((c <? 32) || UTF8.is_surrogate c) eqn:E.
  - now apply parse_string_unicode_escape.
  - apply orb_false_iff in E. destruct E as [E _].
    cbn [app]. apply parse_string_plain; auto; now apply Z.eqb_neq.
Qed.

Lemma parse_string_quote_body s rest :
  Forall code_unit_range s ->
  parse_string (quote_body s ++ 34 :: rest) = Some (s, rest).
Proof.
  induction s as [|c|c d r IHr IHd] using pair_ind; intros H.
  - reflexivity.
  - cbn [quote_body]. inversion H; subst.
    rewrite parse_string_escape by assumption. reflexivity.
  - change (quote_body (c :: d :: r)) with
      (if UTF8.is_high_surrogate c && UTF8.is_low_surrogate d
       then c :: d :: quote_body r
       else escape c ++ quote_body (d :: r)).
    inversion H as [|? ? Hc H']; subst. inversion H' as [|? ? Hd Hr]; subst.
    destruct (UTF8.is_high_surrogate c && UTF8.is_low_surrogate d) eqn:E.
    + apply andb_prop in E. destruct E as [Eh El].
      unfold UTF8.is_high_surrogate, UTF8.is_low_surrogate in *.
      cbn [app].
      rewrite !parse_string_plain by lia.
      rewrite IHr by assumption. reflexivity.
    + rewrite <- app_assoc, parse_string_escape by assumption.
      rewrite IHd by assumption. reflexivity.
Qed.

Lemma forallb_in_range s :
  forallb in_range s = true -> Forall code_unit_range s.
Proof.
  intros H. apply Forall_forall. intros c Hc.
  rewrite forallb_forall in H. specialize (H c Hc).
  unfold in_range, code_unit_range in *. lia.
Qed.

(** What may follow a value inside a text: nothing, a comma, or a closing
    bracket or brace. *)
Definition delimited (rest : jsstring) : Prop :=
  match rest with
  | [] => True
  | c :: _ => c = 44 \/ c = 93 \/ c = 125
  end.

(** The text does not go on with a digit. *)
Definition no_digit (rest : jsstring) : Prop :=
  match rest with
  | [] => True
  | c :: _ => is_digit c = false
  end.

Lemma digits_app ds rest :
  forallb is_digit ds = true -> no_digit rest ->
  digits (ds ++ rest) = (ds, rest).
Proof.
  intros Hd Hr. induction ds as [|d ds IH]; cbn [app].
  - destruct rest as [|c r]; [reflexivity|].
    cbn [digits]. cbn [no_digit] in Hr. now rewrite Hr.
  - cbn [forallb] in Hd. apply andb_prop in Hd. destruct Hd as [Hd Hds].
    cbn [digits]. now rewrite Hd, IH.
Qed.

Lemma delimited_no_digit rest : delimited rest -> no_digit rest.
Proof.
  destruct rest as [|c r]; [easy|]. cbn [delimited no_digit]. unfold is_digit.
  intros [->| [->| ->]]; reflexivity.
Qed.

Lemma parse_exponent_print ex rest :
  match ex with
  | None => true
  | Some (_, es) => match es with [] => false | _ :: _ => forallb is_digit es end
  end = true ->
  delimited rest ->
  parse_exponent (print_exponent ex ++ rest) = Some (ex, rest).
Proof.
  intros Hex Hr. destruct ex as [[neg es]|]; cbn [print_exponent app].
  - destruct es as [|e es]; [discriminate|].
    unfold parse_exponent. change ((101 =? 101) || (101 =? 69)) with true.
    cbv iota.
    destruct neg.
    + change (45 =? 45) with true. cbv iota.
      now rewrite digits_app by auto using delimited_no_digit.
    + change (43 =? 45) with false. change (43 =? 43) with true. cbv iota.
      now rewrite digits_app by auto using delimited_no_digit.
  - destruct rest as [|c r]; [reflexivity|].
    cbn [delimited] in Hr. unfold parse_exponent.
    destruct Hr as [->| [->| ->]]; reflexivity.
Qed.

(** The head of an exponent, or of what may follow a number. *)
Definition ends_mantissa (tail : jsstring) : Prop :=
  match tail with
  | [] => True
  | c :: _ => is_digit c = false /\ (c =? 46) = false
  end.

Lemma ends_mantissa_exponent ex rest :
  delimited rest -> ends_mantissa (print_exponent ex ++ rest).
Proof.
  intros Hr. destruct ex as [[neg es]|]; cbn [print_exponent app].
  - split; reflexivity.
  - destruct rest as [|c r]; [easy|]. cbn [delimited] in Hr.
    destruct Hr as [->| [->| ->]]; split; reflexivity.
Qed.

Lemma ends_mantissa_no_digit tail : ends_mantissa tail -> no_digit tail.
Proof. destruct tail; [easy|]. now intros [H _]. Qed.

Lemma parse_fraction_print fs tail :
  forallb is_digit fs = true -> ends_mantissa tail ->
  parse_fraction (print_fraction fs ++ tail) = Some (fs, tail).
Proof.
  intros Hf Ht. destruct fs as [|f fs]; cbn [print_fraction app].
  - destruct tail as [|c r]; [reflexivity|].
    cbn [ends_mantissa] in Ht. unfold parse_fraction.
    now rewrite (proj2 Ht).
  - unfold parse_fraction. change (46 =? 46) with true. cbv iota.
    change (f :: fs ++ tail) with ((f :: fs) ++ tail).
    now rewrite digits_app by auto using ends_mantissa_no_digit.
Qed.

Lemma ends_mantissa_fraction fs tail :
  ends_mantissa tail -> no_digit (print_fraction fs ++ tail).
Proof.
  intros Ht. destruct fs; cbn [print_fraction app].
  - now apply ends_mantissa_no_digit.
  - reflexivity.
Qed.

Lemma parse_integer_print int tail :
  match int with
  | [] => false
  | c :: ds =>
      if c =? 48 then match ds with [] => true | _ :: _ => false end
      else is_digit c && forallb is_digit ds
  end = true ->
  no_digit tail ->
  parse_integer (int ++ tail) = Some (int, tail).
Proof.
  intros Hi Ht. destruct int as [|c ds]; [discriminate|].
  cbn [app]. unfold parse_integer.
  destruct (Z.eqb_spec c 48) as [->|Hc].
  - destruct ds; [reflexivity|discriminate].
  - apply andb_prop in Hi. destruct Hi as [Hc' Hds].
    rewrite Hc'. cbn [negb]. now rewrite digits_app.
Qed.

Lemma parse_number_print n rest :
  number_ok n = true -> delimited rest ->
  parse_number (print_number n ++ rest) = Some (n, rest).
Proof.
  destruct n as [neg int fs ex]. unfold number_ok, print_number.
  cbn [negative integer fraction exponent].
  intros H Hr.
  apply andb_prop in H. destruct H as [H Hex].
  apply andb_prop in H. destruct H as [Hint Hfs].
  assert (Htail : parse_number (int ++ print_fraction fs ++ print_exponent ex ++ rest)
                  = Some (mkNumber false int fs ex, rest)
                  /\ exists c r, int ++ print_fraction fs ++ print_exponent ex ++ rest = c :: r
                                 /\ is_digit c = true).
  { split.
    - unfold parse_number.
      destruct int as [|c ds]; [discriminate|]. cbn [app].
      assert (Hc : (c =? 45) = false).
      { destruct (Z.eqb_spec c 48) as [->|]; [reflexivity|].
        apply andb_prop in Hint. unfold is_digit in Hint. lia. }
      rewrite Hc.
      change (c :: ds ++ print_fraction fs ++ print_exponent ex ++ rest)
        with ((c :: ds) ++ print_fraction fs ++ print_exponent ex ++ rest).
      rewrite parse_integer_print;
        auto using ends_mantissa_fraction, ends_mantissa_exponent.
      rewrite parse_fraction_print by auto using ends_mantissa_exponent.
      now rewrite parse_exponent_print.
    - destruct int as [|c ds]; [discriminate|]. exists c. eexists.
      split; [reflexivity|].
      destruct (Z.eqb_spec c 48) as [->|]; [reflexivity|].
      now apply andb_prop in Hint. }
  destruct Htail as [Hp (c & r & Hcr & Hc)].
  rewrite <- !app_assoc.
  destruct neg; cbn [app].
  - unfold parse_number. change (45 =? 45) with true. cbv iota.
    unfold parse_number in Hp. rewrite Hcr in *.
    assert (Hc' : (c =? 45) = false) by (unfold is_digit in Hc; lia).
    rewrite Hc' in Hp.
    destruct (parse_integer (c :: r)) as [[i s2]|]; [|discriminate].
    destruct (parse_fraction s2) as [[f s3]|]; [|discriminate].
    destruct (parse_exponent s3) as [[e s4]|]; [|discriminate].
    now inversion Hp.
  - exact Hp.
Qed.

Lemma print_number_head n rest :
  number_ok n = true ->
  exists c r, print_number n ++ rest = c :: r
              /\ (c = 45 \/ is_digit c = true).
Proof.
  destruct n as [neg int fs ex]. unfold number_ok, print_number.
  cbn [negative integer fraction exponent]. intros H.
  apply andb_prop in H. destruct H as [H _].
  apply andb_prop in H. destruct H as [Hint _].
  destruct neg; cbn [app].
  - eauto.
  - destruct int as [|c ds]; [discriminate|]. cbn [app].
    exists c. eexists. split; [reflexivity|]. right.
    destruct (Z.eqb_spec c 48) as [->|]; [reflexivity|].
    now apply andb_prop in Hint.
Qed.

(** Induction on a value and on the values inside it. *)
Lemma value_induction (P : value -> Prop) :
  P VNull -> (forall b, P (VBool b)) -> (forall n, P (VNum n)) ->
  (forall s, P (VStr s)) ->
  (forall l, Forall P l -> P (VArr l)) ->
  (forall l, Forall (fun m => P (snd m)) l -> P (VObj l)) ->
  forall v, P v.
Proof.
  intros Hnull Hbool Hnum Hstr Harr Hobj.
  fix IH 1. intros [| b | n | s | l | l].
  - exact Hnull.
  - apply Hbool.
  - apply Hnum.
  - apply Hstr.
  - apply Harr. induction l as [|v l IHl]; constructor; [apply IH|exact IHl].
  - apply Hobj. induction l as [|[k v] l IHl]; constructor;
      [apply IH|exact IHl].
Qed.

Fixpoint stringify_elements (l : list value) : jsstring :=
  match l with
  | [] => []
  | v :: l' =>
      stringify v
      ++ match l' with [] => [] | _ :: _ => 44 :: stringify_elements l' end
  end.

Fixpoint stringify_members (l : list (jsstring * value)) : jsstring :=
  match l with
  | [] => []
  | (k, v) :: l' =>
      quote k ++ 58 :: stringify v
      ++ match l' with [] => [] | _ :: _ => 44 :: stringify_members l' end
  end.

Lemma stringify_array l :
  stringify (VArr l) = 91 :: stringify_elements l ++ [93].
Proof.
  reflexivity.
Qed.

Lemma stringify_object (l : list (jsstring * value)) :
  stringify (VObj l) = 123 :: stringify_members l ++ [125].
Proof.
  reflexivity.
Qed.

Lemma well_formed_object (l : list (jsstring * value)) :
  well_formed (VObj l) =
  forallb (fun m => forallb in_range (fst m) && well_formed (snd m)) l.
Proof.
  cbn [well_formed].
  induction l as [|[k v] l IH]; [reflexivity|].
  cbn [forallb fst snd]. now rewrite IH.
Qed.

(** The calls of the parser a value needs. *)
Fixpoint size (v : value) : nat :=
  match v with
  | VArr l => S (list_sum (map (fun v => S (size v)) l))
  | VObj l => S (list_sum (map (fun m => S (size (snd m))) l))
  | _ => 1
  end.

(** The first character of a serialized value: not white space, and none
    of the characters that close an array or an object. *)
Definition opens_value (s : jsstring) : Prop :=
  match s with
  | [] => False
  | c :: _ => is_whitespace c = false /\ (c =? 93) = false /\ (c =? 125) = false
  end.

Lemma opens_value_stringify v rest :
  well_formed v = true -> opens_value (stringify v ++ rest).
Proof.
  destruct v as [| [|] | n | s | l | l]; intros H;
    rewrite ?stringify_array, ?stringify_object;
    try (repeat split; reflexivity).
  cbn [stringify well_formed] in *.
  destruct (print_number_head n rest H) as (c & r & -> & Hc).
  cbn [opens_value]. unfold is_whitespace, is_digit in *.
  destruct Hc as [->|Hc]; [repeat split; reflexivity|].
  repeat split; lia.
Qed.

Lemma skip_whitespace_opens s : opens_value s -> skip_whitespace s = s.
Proof.
  destruct s as [|c r]; [easy|]. intros [H _].
  cbn [skip_whitespace]. now rewrite H.
Qed.

Lemma skip_whitespace_delimiter c r :
  c = 44 \/ c = 93 \/ c = 125 \/ c = 58 \/ c = 34 ->
  skip_whitespace (c :: r) = c :: r.
Proof.
  intros H. cbn [skip_whitespace].
  replace (is_whitespace c) with false; [reflexivity|].
  unfold is_whitespace. lia.
Qed.

Lemma skip_whitespace_cons c r :
  is_whitespace c = false -> skip_whitespace (c :: r) = c :: r.
Proof. intros H. cbn [skip_whitespace]. now rewrite H. Qed.

Lemma parse_string_quote s rest :
  forallb in_range s = true ->
  parse_string (quote_body s ++ 34 :: rest) = Some (s, rest).
Proof.
  intros H. apply parse_string_quote_body. now apply forallb_in_range.
Qed.

(** Appends to the right, conses to the front. *)
Ltac reassociate := repeat progress (rewrite <- ?app_assoc; cbn [app]).

Ltac sums := unfold list_sum in *; cbn [map fold_right snd] in *; lia.

Section Roundtrip.

(** The statement for one value, as the induction goes. *)
Definition parses (v : value) : Prop :=
  well_formed v = true ->
  forall fuel rest,
    (size v <= fuel)%nat -> delimited rest ->
    parse_value fuel (stringify v ++ rest) = Some (v, rest).

Lemma parse_elements_stringify l :
  Forall parses l -> l <> [] -> forallb well_formed l = true ->
  forall fuel rest,
    (list_sum (map (fun v => S (size v)) l) <= fuel)%nat ->
    parse_elements fuel (stringify_elements l ++ 93 :: rest) = Some (l, rest).
Proof.
  induction 1 as [|v l Hv Hl IH]; [congruence|].
  intros _ Hw fuel rest Hf.
  cbn [forallb] in Hw. apply andb_prop in Hw. destruct Hw as [Hwv Hwl].
  cbn [map list_sum fold_right] in Hf.
  destruct fuel as [|fuel]; [sums|].
  cbn [stringify_elements parse_elements]. rewrite <- app_assoc.
  destruct l as [|v' l'].
  - cbn [app]. rewrite Hv; [|assumption|cbn [map list_sum fold_right] in Hf; sums|cbn; auto].
    rewrite skip_whitespace_delimiter by auto. reflexivity.
  - rewrite Hv; [|assumption|sums|cbn; auto].
    cbn [app]. rewrite skip_whitespace_delimiter by auto.
    change (44 =? 44) with true. cbv iota.
    rewrite IH; [reflexivity|discriminate|assumption|sums].
Qed.

Lemma parse_members_stringify (l : list (jsstring * value)) :
  Forall (fun m => parses (snd m)) l -> l <> [] ->
  forallb (fun m => forallb in_range (fst m) && well_formed (snd m)) l = true ->
  forall fuel rest,
    (list_sum (map (fun m : jsstring * value => S (size (snd m))) l)
     <= fuel)%nat ->
    parse_members fuel (stringify_members l ++ 125 :: rest) = Some (l, rest).
Proof.
  induction 1 as [|[k v] l Hv Hl IH]; [congruence|].
  intros _ Hw fuel rest Hf.
  cbn [forallb fst snd] in Hw. apply andb_prop in Hw. destruct Hw as [Hw Hwl].
  apply andb_prop in Hw. destruct Hw as [Hwk Hwv].
  cbn [map list_sum fold_right snd] in Hf. cbn [snd] in Hv.
  destruct fuel as [|fuel]; [sums|].
  cbn [stringify_members parse_members]. unfold quote.
  cbn [app]. rewrite skip_whitespace_cons by reflexivity.
  change (34 =? 34) with true. cbv iota.
  reassociate.
  rewrite parse_string_quote by assumption.
  rewrite skip_whitespace_delimiter by auto.
  change (58 =? 58) with true. cbv iota.
  destruct l as [|m' l'].
  - cbn [app]. rewrite Hv; [|assumption|cbn [map list_sum fold_right] in Hf; sums|cbn; auto].
    rewrite skip_whitespace_delimiter by auto. reflexivity.
  - rewrite Hv; [|assumption|sums|cbn; auto].
    cbn [app]. rewrite skip_whitespace_delimiter by auto.
    change (44 =? 44) with true. cbv iota.
    rewrite IH; [reflexivity|discriminate|assumption|sums].
Qed.

Lemma parse_value_stringify v : parses v.
Proof.
  induction v as [| b | n | s | l IH | l IH] using value_induction;
    intros Hw fuel rest Hf Hr;
    (destruct fuel as [|fuel]; [cbn [size] in Hf; sums|]).
  - reflexivity.
  - destruct b; reflexivity.
  - cbn [well_formed stringify] in *.
    destruct (print_number_head n rest Hw) as (c & r & E & Hc).
    cbn [parse_value].
    rewrite skip_whitespace_opens
      by (apply (opens_value_stringify (VNum n)); assumption).
    rewrite E.
    assert (Hd : (c =? 110) = false /\ (c =? 116) = false
                 /\ (c =? 102) = false /\ (c =? 34) = false
                 /\ (c =? 91) = false /\ (c =? 123) = false).
    { unfold is_digit in Hc. repeat split; sums. }
    destruct Hd as (-> & -> & -> & -> & -> & ->).
    rewrite <- E. now rewrite parse_number_print.
  - cbn [well_formed stringify] in *. unfold quote.
    cbn [parse_value app]. rewrite skip_whitespace_cons by reflexivity.
    change (34 =? 110) with false. change (34 =? 116) with false.
    change (34 =? 102) with false. change (34 =? 34) with true. cbv iota.
    rewrite <- app_assoc. cbn [app]. now rewrite parse_string_quote.
  - rewrite stringify_array. cbn [well_formed size] in *.
    cbn [parse_value app]. rewrite skip_whitespace_cons by reflexivity.
    change (91 =? 110) with false. change (91 =? 116) with false.
    change (91 =? 102) with false. change (91 =? 34) with false.
    change (91 =? 91) with true. cbv iota.
    rewrite <- app_assoc. cbn [app].
    destruct l as [|v l].
    + cbn [stringify_elements app].
      rewrite skip_whitespace_delimiter by auto. reflexivity.
    + match goal with
      | |- context [skip_whitespace ?s] => remember s as text eqn:E
      end.
      assert (Ho : opens_value text).
      { subst text. cbn [stringify_elements]. rewrite <- app_assoc.
        apply opens_value_stringify.
        cbn [forallb] in Hw. now apply andb_prop in Hw. }
      rewrite (skip_whitespace_opens _ Ho).
      destruct text as [|c r]; [easy|].
      destruct Ho as (_ & -> & _). rewrite E.
      rewrite parse_elements_stringify;
        [reflexivity|assumption|discriminate|assumption|sums].
  - rewrite stringify_object. rewrite well_formed_object in Hw.
    cbn [size] in *.
    cbn [parse_value app]. rewrite skip_whitespace_cons by reflexivity.
    change (123 =? 110) with false. change (123 =? 116) with false.
    change (123 =? 102) with false. change (123 =? 34) with false.
    change (123 =? 91) with false. change (123 =? 123) with true. cbv iota.
    rewrite <- app_assoc. cbn [app].
    destruct l as [|[k v] l].
    + cbn [stringify_members app].
      rewrite skip_whitespace_delimiter by auto. reflexivity.
    + match goal with
      | |- context [skip_whitespace ?s] => remember s as text eqn:E
      end.
      assert (Ho : exists r, text = 34 :: r).
      { subst text. cbn [stringify_members]. unfold quote. cbn [app]. eauto. }
      destruct Ho as (r & Hr'). rewrite Hr' at 1.
      rewrite skip_whitespace_cons by reflexivity.
      change (34 =? 125) with false. cbv iota. rewrite E.
      rewrite parse_members_stringify;
        [reflexivity|assumption|discriminate|assumption|sums].
Qed.

End Roundtrip.

Lemma length_stringify v :
  well_formed v = true -> (size v <= 2 * length (stringify v))%nat.
Proof.
  induction v as [| b | n | s | l IH | l IH] using value_induction; intros Hw.
  - cbn. lia.
  - destruct b; cbn; lia.
  - cbn [well_formed stringify size] in *.
    destruct (print_number_head n [] Hw) as (c & r & E & _).
    rewrite app_nil_r in E. rewrite E. cbn [length]. lia.
  - cbn [size stringify]. unfold quote. cbn [length]. lia.
  - rewrite stringify_array. cbn [size length well_formed] in *.
    rewrite length_app. cbn [length].
    assert (H : (list_sum (map (fun v => S (size v)) l)
                 <= 2 * length (stringify_elements l) + 1)%nat).
    { induction IH as [|v l Hv _ IHl]; [cbn; lia|].
      cbn [forallb] in Hw. apply andb_prop in Hw. destruct Hw as [Hwv Hwl].
      specialize (Hv Hwv). specialize (IHl Hwl).
      cbn [stringify_elements]. rewrite length_app.
      destruct l as [|v' l']; cbn [length]; sums. }
    lia.
  - rewrite stringify_object. rewrite well_formed_object in Hw.
    cbn [size length]. rewrite length_app. cbn [length].
    assert (H : (list_sum (map (fun m : jsstring * value => S (size (snd m))) l)
                 <= 2 * length (stringify_members l) + 1)%nat).
    { induction IH as [|[k v] l Hv _ IHl]; [cbn; lia|].
      cbn [forallb fst snd] in Hw, Hv.
      apply andb_prop in Hw. destruct Hw as [Hw Hwl].
      apply andb_prop in Hw. destruct Hw as [_ Hwv].
      specialize (Hv Hwv). specialize (IHl Hwl).
      cbn [stringify_members]. rewrite length_app. cbn [length].
      rewrite length_app.
      destruct l as [|m' l']; cbn [length]; sums. }
    lia.
Qed.

(** [JSON.parse] undoes [JSON.stringify]. *)
Lemma parse_stringify v :
  well_formed v = true -> parse (stringify v) = Normal v.
Proof.
  intros Hw. unfold parse.
  pose proof (parse_value_stringify v Hw
                (2 * length (stringify v) + 2)%nat []) as H.
  rewrite app_nil_r in H. rewrite H; [reflexivity| |exact I].
  pose proof (length_stringify v Hw). lia.
Qed.

End JSONFacts.

Section SecurityFacts.
Context (W : WebCrypto).

Lemma arrayBufferToBase64_inv b :
  exists t, arrayBufferToBase64 b = Normal t /\ base64ToArrayBuffer t = Normal b.
Proof.
  exists (Base64.encode (map Z_of_byte b)).
  destruct (Base64Facts.atob_btoa _ (Base64Facts.map_Z_of_byte_octet b))
    as [Hb Ha].
  split; [exact Hb|].
  unfold base64ToArrayBuffer. rewrite Ha. cbn [bind].
  now rewrite Base64Facts.map_byte_of_Z_of_byte.
Qed.

Lemma arrayBufferToBase64_inj b1 b2 t :
  arrayBufferToBase64 b1 = Normal t -> arrayBufferToBase64 b2 = Normal t ->
  b1 = b2.
Proof.
  intros H1 H2.
  destruct (arrayBufferToBase64_inv b1) as (t1 & E1 & D1).
  destruct (arrayBufferToBase64_inv b2) as (t2 & E2 & D2).
  congruence.
Qed.

(** What [encryptData] returns, and what [decryptData] makes of it. *)
Lemma encryptData_decryptData text key rng :
  let nonce := fst (getRandomValues 12 rng) in
  exists e,
    encryptData W text key rng = (Normal e, snd (getRandomValues 12 rng))
    /\ arrayBufferToBase64 nonce = Normal (iv e)
    /\ arrayBufferToBase64
         (subtle_encrypt W key nonce (UTF8.TextEncoder_encode text))
       = Normal (data e)
    /\ decryptData W (data e) (iv e) key
       = Normal (UTF8.TextDecoder_decode (UTF8.TextEncoder_encode text)).
Proof.
  cbn zeta. unfold encryptData.
  destruct (getRandomValues 12 rng) as [nonce rng'] eqn:G. cbn [fst snd].
  destruct (arrayBufferToBase64_inv nonce) as (ti & Ei & Di).
  destruct (arrayBufferToBase64_inv
              (subtle_encrypt W key nonce (UTF8.TextEncoder_encode text)))
    as (td & Ed & Dd).
  exists (mkEncrypted ti td). rewrite Ei, Ed. cbn [bind iv data].
  repeat split; try reflexivity.
  unfold decryptData. rewrite Di, Dd. cbn [bind].
  now rewrite decrypt_encrypt.
Qed.

Lemma length_getRandomValues n rng : length (fst (getRandomValues n rng)) = n.
Proof. cbn [getRandomValues fst]. now rewrite length_map, length_seq. Qed.

End SecurityFacts.

Section LinkFacts.
Context (L : LZString).
Import JSON.

Lemma parseLinkHash_generateLinkHash d k c :
  well_formed d = true -> forallb in_range k = true ->
  parseLinkHash L (generateLinkHash L d k) c
  = (Done (VObj [(str "s", d); (str "k", VStr k)]), c).
Proof.
  intros Hd Hk. unfold parseLinkHash, generateLinkHash, try_catch, andThen, lift.
  set (v := VObj [(str "s", d); (str "k", VStr k)]).
  assert (Hv : well_formed v = true).
  { subst v. cbn [well_formed]. rewrite Hd, Hk. reflexivity. }
  assert (Hs : exists x r, stringify v = x :: r).
  { subst v. rewrite JSONFacts.stringify_object. eauto. }
  destruct Hs as (x & r & Hs).
  rewrite decompress_compress by (rewrite Hs; discriminate).
  rewrite Hs. rewrite <- Hs. rewrite (JSONFacts.parse_stringify v Hv).
  reflexivity.
Qed.

Lemma parseLinkHash_decoded hash c :
  exists c', parseLinkHash L hash c = (Done (decoded L hash), c').
Proof.
  unfold parseLinkHash, decoded, try_catch, andThen, lift, console_error,
    modify, ret.
  destruct (decompressFromEncodedURIComponent L hash) as [[[|x r]|]|e];
    eauto.
  destruct (parse (x :: r)); eauto.
Qed.

End LinkFacts.

(* ================================================================== *)
(** * Properties of the coordinator *)
(* ================================================================== *)

Section WaitFacts.

(** [check] is registered until [resolve] has been called, once. *)
Definition settled (w : ice_wait) : Prop :=
  (listening w = true /\ resolved w = 0%nat)
  \/ (listening w = false /\ resolved w = 1%nat).

Lemma settled_start g : settled (waitForIce_start g).
Proof. unfold settled, waitForIce_start. destruct (is_complete g); auto. Qed.

Lemma settled_check w g : settled w -> settled (check w g).
Proof.
  unfold settled, check. intros [[Hl Hr]|[Hl Hr]]; rewrite Hl.
  - destruct (is_complete g); cbn; auto.
  - auto.
Qed.

Lemma resolved_check w g :
  settled w ->
  resolved (check w g)
  = (if (resolved w =? 1)%nat || is_complete g then 1 else 0)%nat.
Proof.
  unfold settled, check. intros [[Hl Hr]|[Hl Hr]]; rewrite Hl, Hr.
  - destruct (is_complete g); cbn; auto.
  - reflexivity.
Qed.

Lemma resolved_fold evs w :
  settled w ->
  resolved (fold_left check evs w)
  = (if (resolved w =? 1)%nat || existsb is_complete evs then 1 else 0)%nat.
Proof.
  revert w. induction evs as [|g evs IH]; intros w Hw; cbn [fold_left existsb].
  - rewrite orb_false_r. destruct Hw as [[_ ->]|[_ ->]]; reflexivity.
  - rewrite IH by now apply settled_check.
    rewrite resolved_check by assumption.
    destruct Hw as [[_ ->]|[_ ->]]; cbn [Nat.eqb orb];
      destruct (is_complete g); reflexivity.
Qed.

Lemma resolved_waitForIce_events pc :
  resolved (waitForIce_events pc)
  = (if gathering_complete pc then 1 else 0)%nat.
Proof.
  unfold waitForIce_events, gathering_complete.
  rewrite resolved_fold by apply settled_start.
  unfold waitForIce_start. destruct (is_complete (iceGatheringState pc));
    reflexivity.
Qed.

Lemma waitForIce_pending {S} pc (s : S) :
  gathering_complete pc = false -> waitForIce pc s = (Suspended, s).
Proof.
  intros H. unfold waitForIce. rewrite resolved_waitForIce_events, H.
  reflexivity.
Qed.

Lemma waitForIce_resolved {S} pc (s : S) :
  gathering_complete pc = true -> waitForIce pc s = (Done tt, s).
Proof.
  intros H. unfold waitForIce. rewrite resolved_waitForIce_events, H.
  reflexivity.
Qed.

End WaitFacts.

(** The monad and the setters, unfolded. *)
Ltac unfold_handlers :=
  unfold run, initPeer, setupDataChannel, onopen in *;
  unfold alert, setState, setSharedKey, setOfferLink, setAnswerData,
    set_pcRef, set_dcRef, appendMessage, on_console, console_error in *;
  unfold andThen, try_catch, lift, ret, modify, read in *;
  cbn beta iota zeta delta
    [fst snd state sharedKey messages offerLink answerData manualInput
     pcRef dcRef alerts console] in *.

(** Case analysis on what the platform answers, call after call. *)
Ltac platform_cases :=
  repeat match goal with
  | |- context [match ?x with _ => _ end] =>
      match x with
      | context [match _ with _ => _ end] => fail 1
      | _ => destruct x eqn:?; cbn [fst snd]
      end
  end.

(** Case analysis on every result the goal branches on. *)
Ltac platform_outcomes :=
  repeat match goal with
  | |- context [match ?x with Normal _ => _ | Throw _ => _ end] =>
      destruct x eqn:?
  | |- context [if ?x then _ else _] => destruct x eqn:?
  end.

Section AppFacts.
Context (W : WebCrypto) (L : LZString).
Import JSON.

Lemma startHost_pending snap env a :
  gathering_complete (new_RTCPeerConnection env) = false ->
  offerLink (snd (startHost W L snap env a)) = offerLink a
  /\ state (snd (startHost W L snap env a)) <> HOST_WAITING.
Proof.
  intros Hg. unfold startHost. unfold_handlers.
  cbn [state sharedKey messages offerLink answerData manualInput pcRef dcRef
       alerts console].
  destruct (generateKey env) as [key|e]; cbn.
  2: split; [reflexivity|discriminate].
  destruct (exportKey W key) as [rawKey|e]; cbn.
  2: split; [reflexivity|discriminate].
  destruct (createOffer (new_RTCPeerConnection env)) as [o|e]; cbn.
  2: split; [reflexivity|discriminate].
  destruct (setLocalDescription (new_RTCPeerConnection env) o) as [[]|e]; cbn.
  2: split; [reflexivity|discriminate].
  rewrite waitForIce_pending by assumption. cbn.
  split; [reflexivity|discriminate].
Qed.

Ltac decode_invite hash a c' Hp payload :=
  unfold handleGuestLoad; unfold_handlers;
  cbn [state sharedKey messages offerLink answerData manualInput pcRef dcRef
       alerts console];
  destruct (parseLinkHash_decoded L hash (console a)) as (c' & Hp);
  rewrite Hp; clear Hp;
  remember (decoded L hash) as payload.

Lemma handleGuestLoad_invalid snap env hash a :
  invite_fields (decoded L hash) = None ->
  exists c,
    handleGuestLoad W L snap env hash a
    = (Done tt, reported a INIT (str "Invalid Invite Link") c).
Proof.
  intros Hi. decode_invite hash a c' Hp payload. exists c'.
  unfold reported.
  destruct payload as [| [|] | n | s | l | ms]; cbn [truthy get] in *;
    try reflexivity.
  - destruct (Number_value n); reflexivity.
  - destruct s; reflexivity.
  - cbn [invite_fields] in Hi.
    destruct (lookup (str "s") ms) as [s|]; cbn [truthy_opt]; [|reflexivity].
    destruct (truthy s) eqn:Hs; [|reflexivity].
    destruct (lookup (str "k") ms) as [k|]; [|reflexivity].
    cbn [andb] in *. destruct (truthy k); [discriminate|reflexivity].
Qed.

Lemma handleGuestLoad_valid snap env hash a s k :
  invite_fields (decoded L hash) = Some (s, k) ->
  let pc := new_RTCPeerConnection env in
  let failure := [str "Failed to join session"] in
  exists c,
    handleGuestLoad W L snap env hash a
    = match importKey_untyped W k with
      | Throw e =>
          (Done tt, reported a INIT (str "Failed to join session")
                      (c ++ [([], e)]))
      | Normal key =>
          match setRemoteDescription pc s with
          | Throw e =>
              (Done tt, joined a INIT key pc failure (c ++ [([], e)])
                          (answerData a))
          | Normal _ =>
              match createAnswer pc with
              | Throw e =>
                  (Done tt, joined a INIT key pc failure (c ++ [([], e)])
                              (answerData a))
              | Normal ans =>
                  match setLocalDescription pc ans with
                  | Throw e =>
                      (Done tt, joined a INIT key pc failure (c ++ [([], e)])
                                  (answerData a))
                  | Normal _ =>
                      if gathering_complete pc then
                        match Base64.btoa
                                (stringify (toJSON (localDescription pc))) with
                        | Throw e =>
                            (Done tt, joined a INIT key pc failure
                                        (c ++ [([], e)]) (answerData a))
                        | Normal token =>
                            (Done tt, joined a GUEST_ANSWER_READY key pc []
                                        c token)
                        end
                      else
                        (Suspended, joined a GUEST_PROCESSING key pc [] c
                                      (answerData a))
                  end
              end
          end
      end.
Proof.
  intros Hi pc failure. decode_invite hash a c' Hp payload. exists c'.
  unfold reported, joined. subst pc failure.
  destruct payload as [| [|] | n | x | l | ms]; cbn [invite_fields] in Hi;
    try discriminate.
  cbn [truthy get].
  destruct (lookup (str "s") ms) as [s'|]; [|discriminate].
  destruct (lookup (str "k") ms) as [k'|]; [|discriminate].
  destruct (truthy s') eqn:Hs; cbn [andb] in Hi; [|discriminate].
  destruct (truthy k') eqn:Hk; [|discriminate].
  injection Hi as <- <-. cbn [truthy_opt]. rewrite Hs, Hk. cbn [andb].
  destruct (importKey_untyped W k') as [key|e]; cbn; [|reflexivity].
  destruct (setRemoteDescription (new_RTCPeerConnection env) s')
    as [[]|e]; cbn; [|reflexivity].
  destruct (createAnswer (new_RTCPeerConnection env)) as [ans|e]; cbn;
    [|reflexivity].
  destruct (setLocalDescription (new_RTCPeerConnection env) ans)
    as [[]|e]; cbn; [|reflexivity].
  destruct (gathering_complete (new_RTCPeerConnection env)) eqn:Hg.
  - rewrite waitForIce_resolved by assumption. cbn.
    destruct (Base64.btoa _) as [token|e]; cbn; rewrite ?app_nil_r;
      reflexivity.
  - rewrite waitForIce_pending by assumption. cbn. rewrite app_nil_r.
    reflexivity.
Qed.

Lemma btoa_inv s t :
  Base64.btoa s = Normal t ->
  t = Base64.encode s /\ Base64.atob t = Normal s.
Proof.
  unfold Base64.btoa. intros H.
  destruct (forallb Base64.is_latin1 s) eqn:E; [|discriminate].
  injection H as <-. split; [reflexivity|].
  apply Base64Facts.atob_btoa. apply Forall_forall. intros c Hc.
  rewrite forallb_forall in E. specialize (E c Hc).
  unfold Base64.is_latin1, BitFacts.octet in *. lia.
Qed.

End AppFacts.

Section MessageFacts.
Context (W : WebCrypto).
Import JSON.

Lemma unchanged (a : App W) :
  mkApp W (state a) (sharedKey a) (messages a) (offerLink a) (answerData a)
    (manualInput a) (pcRef a) (dcRef a) (alerts a) (console a) = a.
Proof. now destruct a. Qed.

(** What [onmessage] does, by what the message is. *)
Lemma onmessage_cases key data fresh now a :
  onmessage W key data fresh now a
  = match parse data with
    | Throw e => (Done tt, logged a e)
    | Normal payload =>
        match get payload (str "iv") with
        | Throw e => (Done tt, logged a e)
        | Normal iv =>
            match iv, get payload (str "data"), key with
            | Some iv, Normal (Some d), Some key =>
                if truthy iv && truthy d then
                  match decryptData_untyped W d iv key with
                  | Throw e => (Done tt, logged a e)
                  | Normal text =>
                      (Done tt,
                       received a {| id := fresh; text := text;
                                     sender := peer; timestamp := now |})
                  end
                else (Done tt, a)
            | _, _, _ => (Done tt, a)
            end
        end
    end.
Proof.
  unfold onmessage. unfold_handlers. unfold logged, received.
  destruct (parse data) as [payload|e]; [|reflexivity].
  destruct payload as [| b | n | s | l | ms]; cbn [get]; try reflexivity.
  destruct (lookup (str "iv") ms) as [iv|]; cbn [truthy_opt]; [|reflexivity].
  destruct (truthy iv); cbn [andb]; [|
    destruct (lookup (str "data") ms), key; reflexivity].
  destruct (lookup (str "data") ms) as [d|]; [|reflexivity].
  destruct key as [key|]; [|destruct (truthy d); reflexivity].
  destruct (truthy d); [|reflexivity].
  destruct (decryptData_untyped W d iv key); reflexivity.
Qed.

End MessageFacts.

Section AnswerFacts.
Context (W : WebCrypto) (L : LZString).
Import JSON.

Lemma handleHostProcessAnswer_blank snapshot a :
  is_empty (trim (manualInput snapshot)) = true ->
  handleHostProcessAnswer W L snapshot a = (Done tt, a).
Proof. intros H. unfold handleHostProcessAnswer. now rewrite H. Qed.

Lemma answer_from_token_eq input a :
  exists c,
    answer_from_token W L input VNull a
    = (Done match compressed_token L input with
            | Some d => d
            | None => VNull
            end,
       with_console a c).
Proof.
  unfold answer_from_token. unfold_handlers.
  destruct (parseLinkHash_decoded L input (console a)) as (c & Hp).
  rewrite Hp. clear Hp. exists c.
  unfold compressed_token, with_console.
  destruct (decoded L input) as [| [|] | n | s | l | ms]; cbn [truthy get];
    try reflexivity.
  - destruct (Number_value n); reflexivity.
  - destruct s; reflexivity.
  - destruct (lookup (str "s") ms) as [s|]; [|reflexivity].
    destruct (truthy s); reflexivity.
Qed.

Lemma compressed_token_truthy input d :
  compressed_token L input = Some d -> truthy d = true.
Proof.
  unfold compressed_token.
  destruct (decoded L input); try discriminate.
  destruct (lookup _ _) as [s|]; [|discriminate].
  destruct (truthy s) eqn:E; [|discriminate]. now intros [= <-].
Qed.

Lemma structured_truthy text d : structured text = Some d -> truthy d = true.
Proof.
  unfold structured. destruct (let? t := text in parse t) as [v|];
    [|discriminate].
  destruct (truthy v) eqn:E; [|discriminate]. now intros [= <-].
Qed.

(** What [answer_from_base64] leaves in [answerSDP]: a value that is
    falsy when the branch gave no descriptor. *)
Lemma answer_from_base64_eq input (a : App W) :
  exists v,
    answer_from_base64 W input VNull a = (Done v, a)
    /\ match base64_structured input with
       | Some d => v = d
       | None => truthy v = false
       end.
Proof.
  unfold answer_from_base64, base64_structured, structured, bind.
  unfold_handlers. cbn [truthy negb].
  destruct (Base64.atob input) as [binary|e]; [|now exists VNull].
  destruct (parse binary) as [v|e]; [|now exists VNull].
  exists v. split; [reflexivity|].
  destruct (truthy v); reflexivity.
Qed.

Lemma answer_from_base64_skip input d (a : App W) :
  truthy d = true -> answer_from_base64 W input d a = (Done d, a).
Proof. intros H. unfold answer_from_base64. now rewrite H. Qed.

Lemma answer_from_text_skip input d (a : App W) :
  truthy d = true -> answer_from_text W input d a = (Done d, a).
Proof. intros H. unfold answer_from_text. now rewrite H. Qed.

Lemma apply_answer_truthy d (a : App W) :
  truthy d = true ->
  try_catch (apply_answer W d)
    (fun e => on_console W (console_error [] e) ;; alert W (str "Error connecting"))
    a
  = (Done tt, handed a d).
Proof.
  intros H. unfold apply_answer, handed, error_connecting, invalid_answer.
  unfold_handlers. rewrite H.
  destruct a as [st k ms ol ad mi [pc|] dc al co];
    cbn [state sharedKey messages offerLink answerData manualInput pcRef
         dcRef alerts console]; [|reflexivity].
  destruct (setRemoteDescription pc d) as [[]|e]; reflexivity.
Qed.

Lemma apply_answer_falsy d (a : App W) :
  truthy d = false ->
  try_catch (apply_answer W d)
    (fun e => on_console W (console_error [] e) ;; alert W (str "Error connecting"))
    a
  = (Done tt, invalid_answer a).
Proof.
  intros H. unfold apply_answer, invalid_answer. unfold_handlers. rewrite H.
  destruct a as [st k ms ol ad mi [pc|] dc al co]; reflexivity.
Qed.

(** [try { m ;; k } catch] when [m] returns. *)
Lemma try_catch_done {S A B} (m : M S A) (k : A -> M S B) h s v s' :
  m s = (Done v, s') ->
  try_catch (x <- m ;; k x) h s = try_catch (k v) h s'.
Proof. intros H. unfold try_catch, andThen. now rewrite H. Qed.

Lemma handleHostProcessAnswer_chain snapshot a :
  is_empty (trim (manualInput snapshot)) = false ->
  let input := manualInput snapshot in
  exists c,
    handleHostProcessAnswer W L snapshot a
    = (Done tt,
       match first_valid [compressed_token L input; base64_structured input] with
       | Some d => handed (with_console a c) d
       | None =>
           if startsWith_brace input then
             match parse input with
             | Normal v =>
                 if truthy v then handed (with_console a c) v
                 else invalid_answer (with_console a c)
             | Throw e => error_connecting (with_console a c) e
             end
           else invalid_answer (with_console a c)
       end).
Proof.
  intros Hb input. subst input. unfold handleHostProcessAnswer. rewrite Hb.
  cbv zeta. set (input := manualInput snapshot).
  destruct (answer_from_token_eq input a) as (c & Ha). exists c.
  rewrite (try_catch_done _ _ _ _ _ _ Ha). cbn [first_valid].
  destruct (compressed_token L input) as [d|] eqn:Hc.
  - pose proof (compressed_token_truthy _ _ Hc) as Hd.
    rewrite (try_catch_done _ _ _ _ _ _
               (answer_from_base64_skip input d _ Hd)).
    rewrite (try_catch_done _ _ _ _ _ _ (answer_from_text_skip input d _ Hd)).
    now apply apply_answer_truthy.
  - destruct (answer_from_base64_eq input (with_console a c))
      as (v & Hv & Hs).
    rewrite (try_catch_done _ _ _ _ _ _ Hv).
    destruct (base64_structured input) as [d|] eqn:Hd.
    + subst v. pose proof (structured_truthy _ _ Hd) as Ht.
      rewrite (try_catch_done _ _ _ _ _ _
                 (answer_from_text_skip input d _ Ht)).
      now apply apply_answer_truthy.
    + unfold answer_from_text at 1. rewrite Hs. cbn [negb andb].
      destruct (startsWith_brace input).
      * destruct (parse input) as [v'|e] eqn:Hp.
        -- assert (Hl : lift (S := App W) (Normal v') (with_console a c)
                        = (Done v', with_console a c)) by reflexivity.
           rewrite (try_catch_done _ _ _ _ _ _ Hl).
           destruct (truthy v') eqn:Ht;
             [now apply apply_answer_truthy|now apply apply_answer_falsy].
        -- reflexivity.
      * assert (Hl : ret (S := App W) v (with_console a c)
                     = (Done v, with_console a c)) by reflexivity.
        rewrite (try_catch_done _ _ _ _ _ _ Hl).
        now apply apply_answer_falsy.
Qed.

End AnswerFacts.


(* ================================================================== *)
(** * More on [atob], [btoa] and the decoder *)
(* ================================================================== *)

Module Base64More.
Import Base64 BitFacts Base64Facts.

Lemma In_strip_padding c d : In c d -> c <> pad -> In c (strip_padding d).
Proof.
  intros Hin Hc. induction d as [|x r IH]; [contradiction|].
  cbn [strip_padding].
  destruct (is_padding_tail (x :: r)) eqn:E.
  - exfalso. destruct r as [|y [|z r']]; cbn [is_padding_tail] in E;
      try discriminate.
    + apply Z.eqb_eq in E. destruct Hin as [<-|[]]. contradiction.
    + apply andb_prop in E. destruct E as [E1 E2].
      apply Z.eqb_eq in E1, E2.
      destruct Hin as [<-|[<-|[]]]; contradiction.
  - destruct Hin as [<-|Hin]; [now left|right; now apply IH].
Qed.

Lemma sextets_outside c d : In c d -> dec c = None -> sextets d = None.
Proof.
  intros Hin Hc. induction d as [|x r IH]; [contradiction|].
  cbn [sextets]. destruct Hin as [<-|Hin].
  - now rewrite Hc.
  - rewrite (IH Hin). now destruct (dec x).
Qed.

Lemma atob_outside s c :
  In c s -> dec c = None -> c <> pad -> is_ascii_whitespace c = false ->
  atob s = Throw InvalidCharacterError.
Proof.
  intros Hin Hd Hp Hw. unfold atob.
  set (d := filter (fun c => negb (is_ascii_whitespace c)) s).
  assert (Hf : In c d).
  { apply filter_In. split; [exact Hin|now rewrite Hw]. }
  set (d' := if Z.of_nat (length d) mod 4 =? 0 then strip_padding d else d).
  assert (Hd' : In c d').
  { subst d'. destruct (_ =? 0); [now apply In_strip_padding|exact Hf]. }
  destruct (_ =? 1); [reflexivity|].
  now rewrite (sextets_outside c d' Hd' Hd).
Qed.

Lemma atob_throws s e : atob s = Throw e -> e = InvalidCharacterError.
Proof.
  unfold atob.
  destruct (_ =? 1); [now intros [= <-]|].
  destruct (sextets _); [discriminate|now intros [= <-]].
Qed.

Lemma base64_alphabet_enc n : sextet n -> base64_alphabet (enc n) = true.
Proof. intros H. unfold base64_alphabet. now rewrite dec_enc. Qed.

Lemma base64_character_enc n : sextet n -> base64_character (enc n) = true.
Proof. intros H. unfold base64_character. now rewrite base64_alphabet_enc. Qed.

(** A string with a character that [atob] does not accept. *)
Lemma atob_rejects s :
  forallb atob_accepts s = false -> atob s = Throw InvalidCharacterError.
Proof.
  intros H.
  assert (Hc : exists c, In c s /\ atob_accepts c = false).
  { induction s as [|x r IH]; [discriminate|]. cbn [forallb] in H.
    destruct (atob_accepts x) eqn:E.
    - destruct (IH H) as (c & Hin & Hc). exists c. split; [now right|exact Hc].
    - exists x. split; [now left|exact E]. }
  destruct Hc as (c & Hin & Hc). unfold atob_accepts, base64_character in Hc.
  apply orb_false_iff in Hc. destruct Hc as [Hc Hw].
  apply orb_false_iff in Hc. destruct Hc as [Ha Hp].
  apply (atob_outside s c Hin); [|now apply Z.eqb_neq|exact Hw].
  unfold base64_alphabet in Ha. now destruct (dec c).
Qed.

Lemma in_range_enc n : sextet n -> JSON.in_range (enc n) = true.
Proof.
  unfold sextet, enc, JSON.in_range. intros H. cases_cmp; reflexivity.
Qed.

Lemma is_trimmed_enc n : sextet n -> is_trimmed (enc n) = false.
Proof.
  unfold sextet, enc, is_trimmed. intros H. cases_cmp; reflexivity.
Qed.

Lemma encode_chars (P : code_unit -> Prop) l :
  (forall n, sextet n -> P (enc n)) -> P pad ->
  Forall octet l -> Forall P (encode l).
Proof.
  intros He Hp. induction l as [| a | a b | a b c r IH] using list_ind3;
    intros H; cbn [encode].
  - constructor.
  - inversion_clear H.
    repeat apply Forall_cons; try apply Forall_nil; try exact Hp;
      apply He; auto using sextet_1, sextet_2_last.
  - inversion_clear H as [|? ? Ha H']. inversion_clear H' as [|? ? Hb _].
    repeat apply Forall_cons; try apply Forall_nil; try exact Hp;
      apply He; auto using sextet_1, sextet_2, sextet_3_last.
  - inversion_clear H as [|? ? Ha H']. inversion_clear H' as [|? ? Hb H''].
    inversion_clear H'' as [|? ? Hc Hr].
    repeat apply Forall_cons; try (apply IH; assumption);
      apply He; auto using sextet_1, sextet_2, sextet_3, sextet_4.
Qed.

Lemma forallb_encode (p : code_unit -> bool) l :
  (forall n, sextet n -> p (enc n) = true) -> p pad = true ->
  Forall octet l -> forallb p (encode l) = true.
Proof.
  intros He Hp Hl. apply forallb_forall. apply Forall_forall.
  now apply (encode_chars (fun c => p c = true)).
Qed.

(** Three octets at a time, no padding. *)
Lemma encode_triples (P : code_unit -> Prop) l :
  (forall n, sextet n -> P (enc n)) ->
  Z.of_nat (length l) mod 3 = 0 ->
  Forall octet l -> Forall P (encode l).
Proof.
  intros He. induction l as [| a | a b | a b c r IH] using list_ind3;
    intros Hm H; cbn [encode].
  - constructor.
  - cbn in Hm. discriminate.
  - cbn in Hm. discriminate.
  - inversion_clear H as [|? ? Ha H']. inversion_clear H' as [|? ? Hb H''].
    inversion_clear H'' as [|? ? Hc Hr].
    assert (Hm' : Z.of_nat (length r) mod 3 = 0).
    { cbn [List.length] in Hm. rewrite !Nat2Z.inj_succ in Hm.
      revert Hm. generalize (Z.of_nat (length r)). clear. intros z Hz.
      unfold Z.succ in Hz. Z.div_mod_to_equations. lia. }
    repeat apply Forall_cons; try (apply IH; assumption);
      apply He; auto using sextet_1, sextet_2, sextet_3, sextet_4.
Qed.

Lemma length_encode_eq l :
  Z.of_nat (length (encode l)) = 4 * ((Z.of_nat (length l) + 2) / 3).
Proof.
  induction l as [| a | a b | a b c r IH] using list_ind3; cbn [encode];
    try reflexivity.
  cbn [List.length]. rewrite !Nat2Z.inj_succ. rewrite IH.
  generalize (Z.of_nat (length r)). clear. intros z.
  unfold Z.succ. Z.div_mod_to_equations. lia.
Qed.

Lemma encode_nonempty l : l <> [] -> encode l <> [].
Proof. destruct l as [|a [|b [|c r]]]; [congruence| | |]; discriminate. Qed.

End Base64More.

Module UTF8More.
Import UTF8 BitFacts UTF8Facts.

(** The states the decoder of [run] can be in, with the bounds that the
    lead byte and the bytes read since put on the code point. *)
Definition reachable (st : decoder) : Prop :=
  let cp := code_point st in
  let lo := lower_boundary st in
  let hi := upper_boundary st in
  bytes_needed st = 0
  \/ (bytes_needed st = 1 /\ 0x80 <= lo /\ hi <= 0xBF
      /\ 2 <= cp <= 0x43FF /\ ~ (0x360 <= cp <= 0x37F))
  \/ (bytes_needed st = 2 /\ 0x80 <= lo /\ hi <= 0xBF
      /\ ((0 <= cp <= 15 /\ (cp = 0 -> 0xA0 <= lo) /\ (cp = 13 -> hi <= 0x9F))
          \/ 0x10 <= cp <= 0x10F))
  \/ (bytes_needed st = 3 /\ 0x80 <= lo /\ hi <= 0xBF
      /\ 0 <= cp <= 4 /\ (cp = 0 -> 0x90 <= lo) /\ (cp = 4 -> hi <= 0x8F)).

Lemma scalar_replacement : scalar replacement.
Proof. unfold scalar, replacement. lia. Qed.

Lemma reachable_initial : reachable initial.
Proof. now left. Qed.

Lemma land_ones_octet b k :
  0 <= k -> Z.land b (Z.ones k) = b mod 2 ^ k.
Proof. intros. now rewrite Z.land_ones by lia. Qed.

Ltac decide_leb :=
  repeat match goal with
  | |- context [?a <=? ?b] =>
      first [ replace (a <=? b) with true by (symmetry; apply Z.leb_le; lia)
            | replace (a <=? b) with false by (symmetry; apply Z.leb_gt; lia) ]
  end;
  cbn [andb fst snd].

Lemma lead_reachable b :
  octet b -> Forall scalar (fst (lead b)) /\ reachable (snd (lead b)).
Proof.
  unfold octet, lead. intros Hb.
  assert (Hc : b <= 0x7F \/ 0x80 <= b < 0xC2 \/ 0xC2 <= b <= 0xDF
               \/ 0xE0 <= b <= 0xEF \/ 0xF0 <= b <= 0xF4 \/ 0xF4 < b) by lia.
  destruct Hc as [Hc|[Hc|[Hc|[Hc|[Hc|Hc]]]]]; decide_leb.
  - split; [|apply reachable_initial].
    repeat constructor; unfold scalar; lia.
  - split; [|apply reachable_initial].
    constructor; [apply scalar_replacement|constructor].
  - split; [constructor|]. right. left.
    cbn [bytes_needed lower_boundary upper_boundary code_point].
    change (Z.land b 0x1F) with (Z.land b (Z.ones 5)). rewrite Z.land_ones by lia.
    repeat split; try lia; divmod.
  - split; [constructor|]. right. right. left.
    cbn [bytes_needed lower_boundary upper_boundary code_point].
    change (Z.land b 0xF) with (Z.land b (Z.ones 4)). rewrite Z.land_ones by lia.
    split; [reflexivity|].
    split; [destruct (Z.eqb_spec b 0xE0); lia|].
    split; [destruct (Z.eqb_spec b 0xED); lia|].
    left. split; [divmod|].
    split; intros E.
    + destruct (Z.eqb_spec b 0xE0); [lia|]. exfalso. divmod.
    + destruct (Z.eqb_spec b 0xED); [lia|]. exfalso. divmod.
  - split; [constructor|]. right. right. right.
    cbn [bytes_needed lower_boundary upper_boundary code_point].
    change (Z.land b 0x7) with (Z.land b (Z.ones 3)). rewrite Z.land_ones by lia.
    split; [reflexivity|].
    split; [destruct (Z.eqb_spec b 0xF0); lia|].
    split; [destruct (Z.eqb_spec b 0xF4); lia|].
    split; [divmod|].
    split; intros E.
    + destruct (Z.eqb_spec b 0xF0); [lia|]. exfalso. divmod.
    + destruct (Z.eqb_spec b 0xF4); [lia|]. exfalso. divmod.
  - split; [|apply reachable_initial].
    constructor; [apply scalar_replacement|constructor].
Qed.

Lemma continuation cp b :
  0 <= cp -> 0x80 <= b <= 0xBF ->
  Z.lor (Z.shiftl cp 6) (Z.land b 0x3F) = cp * 64 + (b - 0x80).
Proof.
  intros Hcp Hb. change 0x3F with (Z.ones 6). rewrite Z.land_ones by lia.
  rewrite lor_shiftl_add by first [lia | divmod]. divmod.
Qed.

(** Whatever the bytes, the decoder emits scalar values. *)
Lemma run_scalar bs :
  Forall octet bs -> forall st, reachable st -> Forall scalar (run st bs).
Proof.
  induction 1 as [|b r Hb Hr IH]; intros st Hst.
  - cbn [run]. destruct (bytes_needed st =? 0); [constructor|].
    constructor; [apply scalar_replacement|constructor].
  - cbn [run]. destruct (lead_reachable b Hb) as [Hout Hst'].
    destruct (Z.eqb_spec (bytes_needed st) 0) as [E0|E0].
    { destruct (lead b) as [out st']. cbn [fst snd] in *.
      apply Forall_app. split; [exact Hout|now apply IH]. }
    destruct (Z.leb_spec (lower_boundary st) b); cbn [andb].
    2: { destruct (lead b) as [out st']. cbn [fst snd] in *.
         constructor; [apply scalar_replacement|].
         apply Forall_app. split; [exact Hout|now apply IH]. }
    destruct (Z.leb_spec b (upper_boundary st)); cbn [andb].
    2: { destruct (lead b) as [out st']. cbn [fst snd] in *.
         constructor; [apply scalar_replacement|].
         apply Forall_app. split; [exact Hout|now apply IH]. }
    unfold reachable in Hst. cbv zeta in Hst.
    destruct Hst as [Hn0|[Hn1|[Hn2|Hn3]]]; [contradiction| | |].
    + destruct Hn1 as (En & Hlo & Hhi & Hcp & Hsur). rewrite En.
      change (1 =? 1) with true. cbv iota.
      rewrite continuation by lia.
      constructor; [unfold scalar; lia|].
      apply IH, reachable_initial.
    + destruct Hn2 as (En & Hlo & Hhi & Hcp). rewrite En.
      change (2 =? 1) with false. cbv iota.
      rewrite continuation by lia.
      apply IH. right. left.
      cbn [bytes_needed lower_boundary upper_boundary code_point].
      repeat split; lia.
    + destruct Hn3 as (En & Hlo & Hhi & Hcp & Hl & Hh). rewrite En.
      change (3 =? 1) with false. cbv iota.
      rewrite continuation by lia.
      apply IH. right. right. left.
      cbn [bytes_needed lower_boundary upper_boundary code_point].
      repeat split; lia.
Qed.

Lemma well_formed_plain c s :
  0 <= c <= 0xFFFF -> ~ (0xD800 <= c <= 0xDFFF) ->
  well_formed (c :: s) = well_formed s.
Proof.
  intros Hc Hs. cbn [well_formed]. surrogates.
  destruct (Z.leb_spec 0 c); [|lia].
  destruct (Z.leb_spec c 0xFFFF); [|lia]. cbn [andb].
  assert (E : (0xD800 <=? c) && (c <=? 0xDFFF) = false).
  { apply andb_false_iff. rewrite !Z.leb_gt. lia. }
  assert (E' : (0xD800 <=? c) && (c <=? 0xDBFF) = false).
  { apply andb_false_iff. rewrite !Z.leb_gt. lia. }
  destruct s as [|d r]; rewrite ?E, ?E'; reflexivity.
Qed.

Lemma well_formed_pair h l s :
  0xD800 <= h <= 0xDBFF -> 0xDC00 <= l <= 0xDFFF ->
  well_formed (h :: l :: s) = well_formed s.
Proof.
  intros Hh Hl.
  change (well_formed (h :: l :: s)) with
    ((0 <=? h) && (h <=? 0xFFFF) &&
     (if is_high_surrogate h
      then is_low_surrogate l && well_formed s
      else negb (is_surrogate h) && well_formed (l :: s))).
  surrogates.
  destruct (Z.leb_spec 0 h); [|lia].
  destruct (Z.leb_spec h 0xFFFF); [|lia].
  destruct (Z.leb_spec 0xD800 h); [|lia].
  destruct (Z.leb_spec h 0xDBFF); [|lia].
  destruct (Z.leb_spec 0xDC00 l); [|lia].
  destruct (Z.leb_spec l 0xDFFF); [|lia].
  reflexivity.
Qed.

Lemma code_units_well_formed cps :
  Forall scalar cps -> well_formed (flat_map code_units cps) = true.
Proof.
  induction 1 as [|cp cps [Hr Hs] _ IH]; [reflexivity|].
  cbn [flat_map]. unfold code_units.
  destruct (Z.ltb_spec cp 0x10000); cbn [app].
  - rewrite well_formed_plain by lia. exact IH.
  - rewrite well_formed_pair; [exact IH| |].
    + rewrite Z.shiftr_div_pow2 by lia. divmod.
    + change 0x3FF with (Z.ones 10). rewrite Z.land_ones by lia. divmod.
Qed.

Lemma TextDecoder_decode_well_formed buffer :
  well_formed (TextDecoder_decode buffer) = true.
Proof.
  unfold TextDecoder_decode. apply code_units_well_formed.
  assert (H : Forall scalar (run initial (map Z_of_byte buffer))).
  { apply run_scalar; [apply Base64Facts.map_Z_of_byte_octet|].
    apply reachable_initial. }
  unfold drop_byte_order_mark.
  destruct (run initial (map Z_of_byte buffer)) as [|cp r]; [constructor|].
  destruct (cp =? byte_order_mark); [now inversion H|exact H].
Qed.

End UTF8More.

(* ================================================================== *)
(** * More on [lib/security.ts] *)
(* ================================================================== *)

Section SecurityMore.
Context (W : WebCrypto).
Import Base64More.

Lemma arrayBufferToBase64_eq b :
  arrayBufferToBase64 b = Normal (Base64.encode (map Z_of_byte b)).
Proof.
  unfold arrayBufferToBase64, Base64.btoa.
  now rewrite Base64Facts.forallb_is_latin1
    by apply Base64Facts.map_Z_of_byte_octet.
Qed.



Lemma base64ToArrayBuffer_rejects s :
  forallb atob_accepts s = false ->
  base64ToArrayBuffer s = Throw InvalidCharacterError.
Proof.
  intros H. unfold base64ToArrayBuffer. now rewrite (atob_rejects s H).
Qed.

Lemma base64ToArrayBuffer_throws s e :
  base64ToArrayBuffer s = Throw e -> e = InvalidCharacterError.
Proof.
  unfold base64ToArrayBuffer.
  destruct (Base64.atob s) eqn:E; [discriminate|].
  cbn [bind]. intros [= <-]. now apply atob_throws in E.
Qed.

Lemma encryptData_eq text key rng :
  let nonce := fst (getRandomValues 12 rng) in
  encryptData W text key rng
  = (Normal
       (mkEncrypted
          (Base64.encode (map Z_of_byte nonce))
          (Base64.encode
             (map Z_of_byte
                (subtle_encrypt W key nonce (UTF8.TextEncoder_encode text))))),
     snd (getRandomValues 12 rng)).
Proof.
  cbv zeta. unfold encryptData.
  destruct (getRandomValues 12 rng) as [nonce rng'] eqn:G. cbn [fst snd].
  now rewrite !arrayBufferToBase64_eq.
Qed.

End SecurityMore.

Section EncoderFacts.
Import UTF8 UTF8Facts.

(** [TextEncoder] maps different well-formed strings to different
    bytes. *)
Lemma TextEncoder_encode_inj s1 s2 :
  well_formed s1 = true -> well_formed s2 = true ->
  TextEncoder_encode s1 = TextEncoder_encode s2 -> s1 = s2.
Proof.
  intros H1 H2 E.
  destruct (scalar_values_well_formed s1 H1) as [V1 F1].
  destruct (scalar_values_well_formed s2 H2) as [V2 F2].
  unfold TextEncoder_encode in E.
  apply (f_equal (map Z_of_byte)) in E.
  rewrite !map_Z_of_byte_of_Z in E by now apply flat_map_octets.
  apply (f_equal (run initial)) in E.
  rewrite !run_encode_scalars in E by assumption.
  rewrite <- F1, <- F2. now rewrite E.
Qed.

End EncoderFacts.

(* ================================================================== *)
(** * More on the coordinator *)
(* ================================================================== *)

Section HostFacts.
Context (W : WebCrypto) (L : LZString).
Import JSON.

(** [exportKey] never throws. *)
Lemma exportKey_eq key :
  exportKey W key
  = Normal (Base64.encode (map Z_of_byte (subtle_exportKey W key))).
Proof. apply arrayBufferToBase64_eq. Qed.

(** What [startHost] does, by what the platform answers. *)
Lemma startHost_cases snap env a :
  let pc := new_RTCPeerConnection env in
  let dc := {| label := str "secure-chat";
               onmessage_sharedKey := sharedKey snap |} in
  let failure := [str "Failed to initialize host"] in
  startHost W L snap env a
  = match generateKey env with
    | Throw e =>
        (Done tt, reported a INIT (str "Failed to initialize host")
                    (console a ++ [([], e)]))
    | Normal key =>
        let rawKey :=
          Base64.encode (map Z_of_byte (subtle_exportKey W key)) in
        match createOffer pc with
        | Throw e =>
            (Done tt, hosted a INIT key pc dc failure (console a ++ [([], e)])
                        (offerLink a))
        | Normal o =>
            match setLocalDescription pc o with
            | Throw e =>
                (Done tt, hosted a INIT key pc dc failure
                            (console a ++ [([], e)]) (offerLink a))
            | Normal _ =>
                if gathering_complete pc then
                  (Done tt,
                   hosted a HOST_WAITING key pc dc [] (console a)
                     (location env ++ str "#"
                      ++ generateLinkHash L (toJSON (localDescription pc))
                           rawKey))
                else
                  (Suspended,
                   hosted a HOST_GENERATING key pc dc [] (console a)
                     (offerLink a))
            end
        end
    end.
Proof.
  cbv zeta. unfold startHost. unfold_handlers. unfold reported, hosted.
  cbn [state sharedKey messages offerLink answerData manualInput pcRef dcRef
       alerts console].
  destruct (generateKey env) as [key|e]; cbn; [|reflexivity].
  rewrite exportKey_eq. cbn.
  destruct (createOffer (new_RTCPeerConnection env)) as [o|e]; cbn;
    [|reflexivity].
  destruct (setLocalDescription (new_RTCPeerConnection env) o) as [[]|e]; cbn;
    [|reflexivity].
  destruct (gathering_complete (new_RTCPeerConnection env)) eqn:Hg.
  - rewrite waitForIce_resolved by assumption. cbn. rewrite app_nil_r.
    reflexivity.
  - rewrite waitForIce_pending by assumption. cbn. rewrite app_nil_r.
    reflexivity.
Qed.

(** When the Guest shows its answer, it is [btoa] of the descriptor. *)
Lemma handleGuestLoad_ready snap env hash a :
  state (snd (handleGuestLoad W L snap env hash a)) = GUEST_ANSWER_READY ->
  Base64.btoa
    (stringify (toJSON (localDescription (new_RTCPeerConnection env))))
  = Normal (answerData (snd (handleGuestLoad W L snap env hash a))).
Proof.
  destruct (invite_fields (decoded L hash)) as [[s k]|] eqn:Hi.
  - destruct (handleGuestLoad_valid W L snap env hash a s k Hi) as (c & H).
    cbv zeta in H. rewrite H. clear H. platform_outcomes; cbn;
      try discriminate. intros _. reflexivity.
  - destruct (handleGuestLoad_invalid W L snap env hash a Hi) as (c & H).
    rewrite H. cbn. discriminate.
Qed.

Lemma well_formed_toJSON d :
  forallb in_range (sdp d) = true -> well_formed (toJSON (Some d)) = true.
Proof.
  intros H. cbn [toJSON well_formed]. rewrite H.
  destruct (sdp_type d); reflexivity.
Qed.

Lemma trim_start_id s :
  Forall (fun c => is_trimmed c = false) s -> trim_start s = s.
Proof. destruct 1 as [|c r Hc _]; cbn [trim_start]; [|rewrite Hc]; reflexivity. Qed.

Lemma trim_id s :
  Forall (fun c => is_trimmed c = false) s -> trim s = s.
Proof.
  intros H. unfold trim. rewrite (trim_start_id s H).
  rewrite trim_start_id by now apply Forall_rev.
  apply rev_involutive.
Qed.

(** A text in base64 is its own [trim]. *)
Lemma trim_encode l :
  Forall BitFacts.octet l -> trim (Base64.encode l) = Base64.encode l.
Proof.
  intros H. apply trim_id.
  apply (Base64More.encode_chars (fun c => is_trimmed c = false));
    [apply Base64More.is_trimmed_enc|reflexivity|exact H].
Qed.

Lemma latin1_octets s :
  forallb Base64.is_latin1 s = true -> Forall BitFacts.octet s.
Proof.
  intros E. apply Forall_forall. intros c Hc.
  rewrite forallb_forall in E. specialize (E c Hc).
  unfold Base64.is_latin1, BitFacts.octet in *. lia.
Qed.

End HostFacts.

Section ChatFacts.
Context (W : WebCrypto) (L : LZString).
Import JSON.

(** What [sendMessage] does, by what it finds and what the channel
    answers. *)
Lemma sendMessage_cases snapshot channel fresh now c :
  sendMessage W snapshot channel fresh now c
  = if is_empty (trim (inputText snapshot)) then (Done tt, c)
    else
      match sharedKey (component snapshot), dcRef (component c) with
      | Some key, Some _ =>
          match encryptData W (inputText snapshot) key (random c) with
          | (Normal e, rng) =>
              match channel with
              | Normal _ =>
                  (Done tt,
                   delivered c {| id := fresh; text := inputText snapshot;
                                  sender := me; timestamp := now |}
                     (wire e) rng)
              | Throw err => (Done tt, send_failed c err rng)
              end
          | (Throw err, rng) => (Done tt, send_failed c err rng)
          end
      | _, _ => (Done tt, c)
      end.
Proof.
  unfold sendMessage. cbv zeta.
  destruct (is_empty (trim (inputText snapshot))); [reflexivity|].
  destruct (sharedKey (component snapshot)) as [key|]; [|reflexivity].
  unfold andThen at 1. unfold read at 1.
  destruct (dcRef (component c)) as [dc|]; [|reflexivity].
  unfold try_catch, andThen, await_encryptData, send, on_app, setInputText,
    delivered, send_failed, received, with_console, wire.
  unfold_handlers.
  destruct (encryptData W (inputText snapshot) key (random c)) as [[e|err] rng];
    cbn [component inputText sent random]; [|reflexivity].
  destruct channel as [[]|err]; reflexivity.
Qed.




Lemma in_range_encode l :
  Forall BitFacts.octet l -> forallb in_range (Base64.encode l) = true.
Proof.
  apply Base64More.forallb_encode; [apply Base64More.in_range_enc|reflexivity].
Qed.

End ChatFacts.

Section SessionFacts.
Context (W : WebCrypto) (L : LZString).
Import JSON.

(** What the Guest reads in an invitation made by [generateLinkHash]. *)
Lemma decoded_generateLinkHash d k :
  well_formed d = true -> forallb in_range k = true ->
  decoded L (generateLinkHash L d k) = VObj [(str "s", d); (str "k", VStr k)].
Proof.
  intros Hd Hk.
  pose proof (parseLinkHash_generateLinkHash L d k [] Hd Hk) as P.
  destruct (parseLinkHash_decoded L (generateLinkHash L d k) []) as (c & Q).
  rewrite P in Q. now injection Q as <- _.
Qed.

Lemma invite_fields_pair s k :
  truthy s = true -> truthy k = true ->
  invite_fields (VObj [(str "s", s); (str "k", k)]) = Some (s, k).
Proof.
  intros Hs Hk. unfold invite_fields.
  change (lookup (str "s") [(str "s", s); (str "k", k)]) with (Some s).
  change (lookup (str "k") [(str "s", s); (str "k", k)]) with (Some k).
  cbv iota beta. now rewrite Hs, Hk.
Qed.

(** With the key of the invitation imported, the Guest holds it,
    whatever the transport does then. *)
Lemma handleGuestLoad_key snap env hash a s k key :
  invite_fields (decoded L hash) = Some (s, k) ->
  importKey_untyped W k = Normal key ->
  sharedKey (snd (handleGuestLoad W L snap env hash a)) = Some key.
Proof.
  intros Hi Hk.
  destruct (handleGuestLoad_valid W L snap env hash a s k Hi) as (c & H).
  cbv zeta in H. rewrite H, Hk. clear H.
  platform_outcomes; reflexivity.
Qed.

(** Once gathering is complete, further events change nothing. *)
Lemma check_resolved w g : listening w = false -> check w g = w.
Proof. intros H. unfold check. now rewrite H. Qed.

Lemma fold_check_resolved more w :
  listening w = false -> fold_left check more w = w.
Proof.
  intros H. induction more as [|g more IH]; [reflexivity|].
  cbn [fold_left]. now rewrite check_resolved.
Qed.

Lemma listening_check w g :
  settled w -> listening (check w g) = listening w && negb (is_complete g).
Proof.
  unfold settled, check. intros [[Hl Hr]|[Hl Hr]]; rewrite Hl.
  - destruct (is_complete g); cbn; auto.
  - cbn. exact Hl.
Qed.

Lemma settled_fold evs w : settled w -> settled (fold_left check evs w).
Proof.
  revert w. induction evs as [|g evs IH]; intros w Hw; [exact Hw|].
  cbn [fold_left]. apply IH. now apply settled_check.
Qed.

Lemma listening_fold evs w :
  settled w ->
  listening (fold_left check evs w)
  = listening w && negb (existsb is_complete evs).
Proof.
  revert w. induction evs as [|g evs IH]; intros w Hw; cbn [fold_left existsb].
  - now rewrite andb_true_r.
  - rewrite IH by now apply settled_check.
    rewrite listening_check by assumption.
    rewrite negb_orb. now rewrite andb_assoc.
Qed.

End SessionFacts.

(* ================================================================== *)
(** * The fuel of [JSON.parse] *)
(* ================================================================== *)

Module JSONFuel.
Import JSON.

Local Open Scope nat_scope.

Lemma length_skip_whitespace s : length (skip_whitespace s) <= length s.
Proof.
  induction s as [|c r IH]; cbn [skip_whitespace]; [lia|].
  destruct (is_whitespace c); cbn [List.length] in *; lia.
Qed.

Lemma skip_whitespace_cons_length s c r :
  skip_whitespace s = c :: r -> length r < length s.
Proof.
  intros H. pose proof (length_skip_whitespace s) as L.
  rewrite H in L. cbn [List.length] in L. lia.
Qed.

Lemma length_parse_string s x rest :
  parse_string s = Some (x, rest) -> length rest < length s.
Proof.
  remember (length s) as n eqn:En. revert s x rest En.
  induction n as [n IH] using lt_wf_ind. intros s x rest En H.
  destruct s as [|c r]; [discriminate|]. cbn [parse_string] in H.
  cbn [List.length] in En.
  destruct (c =? 34)%Z.
  { injection H as _ <-. lia. }
  destruct (c =? 92)%Z.
  { destruct r as [|e r1]; [discriminate|].
    destruct (e =? 117)%Z.
    - destruct r1 as [|h1 [|h2 [|h3 [|h4 r2]]]]; try discriminate.
      destruct (hex_value h1), (hex_value h2), (hex_value h3), (hex_value h4);
        try discriminate.
      destruct (parse_string r2) as [[y rest']|] eqn:E; [|discriminate].
      injection H as _ <-.
      cbn [List.length] in *.
      pose proof (IH (length r2) ltac:(lia) r2 y rest' eq_refl E). lia.
    - destruct (unescape e); [|discriminate].
      destruct (parse_string r1) as [[y rest']|] eqn:E; [|discriminate].
      injection H as _ <-. cbn [List.length] in *.
      pose proof (IH (length r1) ltac:(lia) r1 y rest' eq_refl E). lia. }
  destruct (c <? 32)%Z; [discriminate|].
  destruct (parse_string r) as [[y rest']|] eqn:E; [|discriminate].
  injection H as _ <-.
  pose proof (IH (length r) ltac:(lia) r y rest' eq_refl E). lia.
Qed.

Lemma length_digits s : length (snd (digits s)) <= length s.
Proof.
  induction s as [|c r IH]; cbn [digits]; [cbn; lia|].
  destruct (is_digit c); [|cbn; lia].
  destruct (digits r) as [ds rest]. cbn [snd List.length] in *. lia.
Qed.

Lemma length_parse_integer s x rest :
  parse_integer s = Some (x, rest) -> length rest < length s.
Proof.
  unfold parse_integer. destruct s as [|c r]; [discriminate|].
  destruct (negb (is_digit c)); [discriminate|].
  destruct (c =? 48)%Z.
  - intros [= _ <-]. cbn. lia.
  - pose proof (length_digits r) as L.
    destruct (digits r) as [ds rest']. intros [= _ <-].
    cbn [snd List.length] in *. lia.
Qed.

Lemma length_parse_fraction s x rest :
  parse_fraction s = Some (x, rest) -> length rest <= length s.
Proof.
  unfold parse_fraction. destruct s as [|p r]; [now intros [= _ <-]|].
  destruct (p =? 46)%Z; [|now intros [= _ <-]].
  pose proof (length_digits r) as L.
  destruct (digits r) as [[|f fs] rest']; [discriminate|].
  intros [= _ <-]. cbn [snd List.length] in *. lia.
Qed.

Lemma length_parse_exponent s x rest :
  parse_exponent s = Some (x, rest) -> length rest <= length s.
Proof.
  unfold parse_exponent. destruct s as [|e r]; [now intros [= _ <-]|].
  destruct ((e =? 101) || (e =? 69))%Z; [|now intros [= _ <-]].
  assert (H : forall r', length r' <= length r ->
              forall neg,
              (let (es, rest0) := digits r' in
               match es with
               | [] => None
               | _ :: _ => Some (Some (neg, es), rest0)
               end) = Some (x, rest) ->
              length rest <= length (e :: r)).
  { intros r' Hr neg. pose proof (length_digits r') as L.
    destruct (digits r') as [[|d ds] rest']; [discriminate|].
    intros [= _ <-]. cbn [snd List.length] in *. lia. }
  destruct r as [|g r']; [apply (H [] ltac:(cbn; lia))|].
  destruct (g =? 45)%Z; [apply H; cbn; lia|].
  destruct (g =? 43)%Z; apply H; cbn; lia.
Qed.

Lemma length_parse_number s n rest :
  parse_number s = Some (n, rest) -> length rest < length s.
Proof.
  unfold parse_number.
  assert (H : forall neg s1, length s1 <= length s ->
              match parse_integer s1 with
              | None => None
              | Some (int, s2) =>
                  match parse_fraction s2 with
                  | None => None
                  | Some (fs, s3) =>
                      match parse_exponent s3 with
                      | None => None
                      | Some (ex, rest0) =>
                          Some (mkNumber neg int fs ex, rest0)
                      end
                  end
              end = Some (n, rest) -> length rest < length s).
  { intros neg s1 Hs.
    destruct (parse_integer s1) as [[int s2]|] eqn:E1; [|discriminate].
    destruct (parse_fraction s2) as [[fs s3]|] eqn:E2; [|discriminate].
    destruct (parse_exponent s3) as [[ex rest0]|] eqn:E3; [|discriminate].
    intros [= _ <-].
    apply length_parse_integer in E1. apply length_parse_fraction in E2.
    apply length_parse_exponent in E3. lia. }
  destruct s as [|c r]; [apply H; lia|].
  destruct (c =? 45)%Z; apply H; cbn; lia.
Qed.

Lemma length_expect word s rest :
  expect word s = Some rest -> length rest <= length s.
Proof.
  revert s. induction word as [|w word IH]; intros s; cbn [expect].
  - now intros [= <-].
  - destruct s as [|c r]; [discriminate|].
    destruct (c =? w)%Z; [|discriminate].
    intros H. apply IH in H. cbn. lia.
Qed.

Lemma length_literal word v s x rest :
  literal word v s = Some (x, rest) -> length rest <= length s.
Proof.
  unfold literal. destruct (expect word s) eqn:E; [|discriminate].
  intros [= _ <-]. now apply length_expect in E.
Qed.

(** A call that returns with some fuel consumes input, and returns the
    same with any fuel above twice the length of the input. *)
Definition value_bound (m : nat) : Prop :=
  forall s v rest,
    parse_value m s = Some (v, rest) ->
    length rest < length s
    /\ forall n, 2 * length s <= n -> parse_value n s = Some (v, rest).

Definition elements_bound (m : nat) : Prop :=
  forall s vs rest,
    parse_elements m s = Some (vs, rest) ->
    length rest < length s
    /\ forall n, 2 * length s + 1 <= n -> parse_elements n s = Some (vs, rest).

Definition members_bound (m : nat) : Prop :=
  forall s ms rest,
    parse_members m s = Some (ms, rest) ->
    length rest < length s
    /\ forall n, 2 * length s + 1 <= n -> parse_members n s = Some (ms, rest).

Lemma value_step m :
  elements_bound m -> members_bound m -> value_bound (S m).
Proof.
  intros IHe IHm s v rest H. cbn [parse_value] in H.
  destruct (skip_whitespace s) as [|c r] eqn:Es; [discriminate|].
  pose proof (skip_whitespace_cons_length s c r Es) as Ls.
  assert (G : forall n, 2 * length s <= n -> exists n', n = S n').
  { intros n Hn. destruct n; [lia|eauto]. }
  destruct (c =? 110)%Z eqn:Q1.
  { pose proof (length_literal _ _ _ _ _ H). split; [lia|].
    intros n Hn. destruct (G n Hn) as (n' & ->).
    cbn [parse_value]. now rewrite Es, Q1. }
  destruct (c =? 116)%Z eqn:Q2.
  { pose proof (length_literal _ _ _ _ _ H). split; [lia|].
    intros n Hn. destruct (G n Hn) as (n' & ->).
    cbn [parse_value]. now rewrite Es, Q1, Q2. }
  destruct (c =? 102)%Z eqn:Q3.
  { pose proof (length_literal _ _ _ _ _ H). split; [lia|].
    intros n Hn. destruct (G n Hn) as (n' & ->).
    cbn [parse_value]. now rewrite Es, Q1, Q2, Q3. }
  destruct (c =? 34)%Z eqn:Q4.
  { destruct (parse_string r) as [[x rest']|] eqn:E; [|discriminate].
    injection H as <- <-. apply length_parse_string in E as L.
    split; [lia|].
    intros n Hn. destruct (G n Hn) as (n' & ->).
    cbn [parse_value]. now rewrite Es, Q1, Q2, Q3, Q4, E. }
  destruct (c =? 91)%Z eqn:Q5.
  { destruct (skip_whitespace r) as [|c' r'] eqn:Er; [discriminate|].
    pose proof (skip_whitespace_cons_length r c' r' Er) as Lr.
    destruct (c' =? 93)%Z eqn:Q6.
    - injection H as <- <-. split; [lia|].
      intros n Hn. destruct (G n Hn) as (n' & ->).
      cbn [parse_value]. now rewrite Es, Q1, Q2, Q3, Q4, Q5, Er, Q6.
    - destruct (parse_elements m r) as [[vs rest']|] eqn:E; [|discriminate].
      injection H as <- <-. destruct (IHe r vs rest' E) as [L K].
      split; [lia|].
      intros n Hn. destruct (G n Hn) as (n' & ->).
      cbn [parse_value]. rewrite Es, Q1, Q2, Q3, Q4, Q5, Er, Q6.
      now rewrite K by lia. }
  destruct (c =? 123)%Z eqn:Q7.
  { destruct (skip_whitespace r) as [|c' r'] eqn:Er; [discriminate|].
    pose proof (skip_whitespace_cons_length r c' r' Er) as Lr.
    destruct (c' =? 125)%Z eqn:Q8.
    - injection H as <- <-. split; [lia|].
      intros n Hn. destruct (G n Hn) as (n' & ->).
      cbn [parse_value]. now rewrite Es, Q1, Q2, Q3, Q4, Q5, Q7, Er, Q8.
    - destruct (parse_members m r) as [[ms rest']|] eqn:E; [|discriminate].
      injection H as <- <-. destruct (IHm r ms rest' E) as [L K].
      split; [lia|].
      intros n Hn. destruct (G n Hn) as (n' & ->).
      cbn [parse_value]. rewrite Es, Q1, Q2, Q3, Q4, Q5, Q7, Er, Q8.
      now rewrite K by lia. }
  destruct (parse_number (c :: r)) as [[x rest']|] eqn:E; [|discriminate].
  injection H as <- <-. apply length_parse_number in E as L.
  cbn [List.length] in L. split; [lia|].
  intros n Hn. destruct (G n Hn) as (n' & ->).
  cbn [parse_value]. now rewrite Es, Q1, Q2, Q3, Q4, Q5, Q7, E.
Qed.

Lemma elements_step m :
  value_bound m -> elements_bound m -> elements_bound (S m).
Proof.
  intros IHv IHe s vs rest H. cbn [parse_elements] in H.
  destruct (parse_value m s) as [[v r]|] eqn:Ev; [|discriminate].
  destruct (IHv s v r Ev) as [Lv Kv].
  destruct (skip_whitespace r) as [|c r'] eqn:Er; [discriminate|].
  pose proof (skip_whitespace_cons_length r c r' Er) as Lr.
  assert (G : forall n, 2 * length s + 1 <= n -> exists n', n = S n').
  { intros n Hn. destruct n; [lia|eauto]. }
  destruct (c =? 44)%Z eqn:Q1.
  - destruct (parse_elements m r') as [[vs' rest']|] eqn:E; [|discriminate].
    injection H as <- <-. destruct (IHe r' vs' rest' E) as [L K].
    split; [lia|].
    intros n Hn. destruct (G n Hn) as (n' & ->).
    cbn [parse_elements]. rewrite Kv by lia. rewrite Er, Q1.
    now rewrite K by lia.
  - destruct (c =? 93)%Z eqn:Q2; [|discriminate].
    injection H as <- <-. split; [lia|].
    intros n Hn. destruct (G n Hn) as (n' & ->).
    cbn [parse_elements]. rewrite Kv by lia. now rewrite Er, Q1, Q2.
Qed.

Lemma members_step m :
  value_bound m -> members_bound m -> members_bound (S m).
Proof.
  intros IHv IHm s ms rest H. cbn [parse_members] in H.
  destruct (skip_whitespace s) as [|q r] eqn:Es; [discriminate|].
  pose proof (skip_whitespace_cons_length s q r Es) as Ls.
  destruct (q =? 34)%Z eqn:Q0; [|discriminate].
  destruct (parse_string r) as [[k r1]|] eqn:Ek; [|discriminate].
  apply length_parse_string in Ek as Lk.
  destruct (skip_whitespace r1) as [|c r2] eqn:E1; [discriminate|].
  pose proof (skip_whitespace_cons_length r1 c r2 E1) as L1.
  destruct (c =? 58)%Z eqn:Q1; [|discriminate].
  destruct (parse_value m r2) as [[v r3]|] eqn:Ev; [|discriminate].
  destruct (IHv r2 v r3 Ev) as [Lv Kv].
  destruct (skip_whitespace r3) as [|c' r4] eqn:E3; [discriminate|].
  pose proof (skip_whitespace_cons_length r3 c' r4 E3) as L3.
  assert (G : forall n, 2 * length s + 1 <= n -> exists n', n = S n').
  { intros n Hn. destruct n; [lia|eauto]. }
  destruct (c' =? 44)%Z eqn:Q2.
  - destruct (parse_members m r4) as [[ms' rest']|] eqn:E; [|discriminate].
    injection H as <- <-. destruct (IHm r4 ms' rest' E) as [L K].
    split; [lia|].
    intros n Hn. destruct (G n Hn) as (n' & ->).
    cbn [parse_members]. rewrite Es, Q0, Ek, E1, Q1.
    rewrite Kv by lia. rewrite E3, Q2. now rewrite K by lia.
  - destruct (c' =? 125)%Z eqn:Q3; [|discriminate].
    injection H as <- <-. split; [lia|].
    intros n Hn. destruct (G n Hn) as (n' & ->).
    cbn [parse_members]. rewrite Es, Q0, Ek, E1, Q1.
    rewrite Kv by lia. now rewrite E3, Q2, Q3.
Qed.

Lemma bounds m : value_bound m /\ elements_bound m /\ members_bound m.
Proof.
  induction m as [|m (IHv & IHe & IHm)].
  - split; [|split]; intros s x rest H; discriminate H.
  - split; [now apply value_step|].
    split; [now apply elements_step|now apply members_step].
Qed.

(** The fuel [JSON.parse] gives is enough: what [parse_value] returns
    with any fuel, it returns with that of [parse]. *)
Lemma parse_value_fuel m s v rest :
  parse_value m s = Some (v, rest) ->
  parse_value (2 * length s + 2) s = Some (v, rest).
Proof.
  intros H. destruct (bounds m) as (Hv & _ & _).
  destruct (Hv s v rest H) as [_ K]. apply K. lia.
Qed.

(** [JSON.parse] returns [v] exactly when the text is one value [v] of
    the grammar, for some fuel, between white space. *)
Lemma parse_complete text v :
  parse text = Normal v
  <-> exists m rest,
        parse_value m text = Some (v, rest) /\ skip_whitespace rest = [].
Proof.
  unfold parse. split.
  - destruct (parse_value (2 * length text + 2) text) as [[x rest]|] eqn:E;
      [|discriminate].
    destruct (skip_whitespace rest) eqn:Er; [|discriminate].
    intros [= <-]. eauto.
  - intros (m & rest & H & Hr). rewrite (parse_value_fuel m text v rest H).
    now rewrite Hr.
Qed.

End JSONFuel.


(* ================================================================== *)
(** * Numbers as the platform reads them *)
(* ================================================================== *)

Module NumberExamples.
Import JSON.

Definition literal_of (text : jsstring) : number :=
  match parse_number text with
  | Some (n, _) => n
  | None => mkNumber false [] [] None
  end.

Definition printed (text : jsstring) : jsstring :=
  Number_toString (negative (literal_of text)) (Number_value (literal_of text)).

(** Literals and what [String] makes of the Numbers they denote. *)
Lemma Number_toString_examples :
  map printed
    [str "0.1"; str "1e21"; str "1111111111111111111111"; str "1e-400";
     str "1e400"; str "5e-324"; str "3e-324"; str "9007199254740993";
     str "1e-7"; str "0.000001"; str "-1.50"; str "-0"]
  = [str "0.1"; str "1e+21"; str "1.1111111111111111e+21"; str "0";
     str "Infinity"; str "5e-324"; str "5e-324"; str "9007199254740992";
     str "1e-7"; str "0.000001"; str "-1.5"; str "0"].
Proof. vm_compute. reflexivity. Qed.

(** A literal below half of the least double is zero, and falsy; one
    above it is not. *)
Lemma truthy_examples :
  map (fun text => truthy (VNum (literal_of text)))
    [str "0"; str "-0.0"; str "1e-400"; str "2.4703282292062327e-324";
     str "2.4703282292062328e-324"; str "5e-324"; str "1e400"; str "0.1"]
  = [false; false; false; false; true; true; true; true].
Proof. vm_compute. reflexivity. Qed.

(** The handlers on payloads with such numbers.  A descriptor [1e-400]
    is no descriptor for the Guest, nor for the Host that is given its
    base64; a nonce [1e-400] is no nonce; and a key of 22 digits prints
    with a point and an exponent, which [atob] rejects. *)
Lemma handlers_read_doubles :
  handleGuestLoad Scenario.W Scenario.L (initial Scenario.W)
    (Scenario.environment Scenario.rejecting)
    (ModelLZ.compress (json "{'s':1e-400,'k':'AQIDBAUGBwgJCgsMDQ4PEA=='}"))
    (initial Scenario.W)
  = (Done tt,
     reported (initial Scenario.W) INIT (str "Invalid Invite Link") [])
  /\ handleGuestLoad Scenario.W Scenario.L (initial Scenario.W)
       (Scenario.environment Scenario.accepting)
       (ModelLZ.compress (json "{'s':{},'k':1111111111111111111111}"))
       (initial Scenario.W)
     = (Done tt,
        reported (initial Scenario.W) INIT (str "Failed to join session")
          [([], InvalidCharacterError)])
  /\ HostScenario.process (HostScenario.pasted (str "MWUtNDAw"))
     = (Done tt, invalid_answer (HostScenario.pasted (str "MWUtNDAw")))
  /\ onmessage Scenario.W (Some ModelCipher.key)
       (json "{'iv':1e-400,'data':'AAAA'}") (str "1") 1 (initial Scenario.W)
     = (Done tt, initial Scenario.W).
Proof. vm_compute. repeat split. Qed.

End NumberExamples.

(* ================================================================== *)
(** * The claims *)
(* ================================================================== *)


(** C10: for every byte buffer [b], [arrayBufferToBase64 b] returns a
    string, and [base64ToArrayBuffer] applied to that string returns a
    buffer with exactly the bytes of [b]. *)
Theorem base64_helpers_roundtrip (b : ArrayBuffer) :
  exists t, arrayBufferToBase64 b = Normal t
            /\ base64ToArrayBuffer t = Normal b.
Proof. apply arrayBufferToBase64_inv. Qed.

(** C2, as amended: for every key and every text payload that is
    well-formed UTF-16 (no unpaired surrogate) and does not begin with
    U+FEFF, including the empty string and non-ASCII text, [encryptData]
    returns an [(iv, data)] pair and [decryptData] applied to it with the
    same key returns exactly the payload. *)
Theorem decrypt_encrypt_roundtrip
  (W : WebCrypto) (text : jsstring) (key : CryptoKey W) (rng : entropy) :
  UTF8.well_formed text = true ->
  UTF8.starts_with_byte_order_mark text = false ->
  exists e, fst (encryptData W text key rng) = Normal e
            /\ decryptData W (data e) (iv e) key = Normal text.
Proof.
  intros Hw Hb.
  destruct (encryptData_decryptData W text key rng) as (e & E & _ & _ & D).
  exists e. rewrite E. split; [reflexivity|].
  now rewrite D, UTF8Facts.decode_encode.
Qed.

Lemma decrypt_encrypt_roundtrip_witness :
  exists e,
    fst (encryptData ModelCipher.crypto [0x68; 0xE9; 0x20AC; 0xD83D; 0xDE00]
           ModelCipher.key ModelCipher.counter) = Normal e
    /\ decryptData ModelCipher.crypto (data e) (iv e) ModelCipher.key
       = Normal [0x68; 0xE9; 0x20AC; 0xD83D; 0xDE00].
Proof.
  apply (decrypt_encrypt_roundtrip ModelCipher.crypto
           [0x68; 0xE9; 0x20AC; 0xD83D; 0xDE00]); reflexivity.
Defined.

(** C2 as stated fails: a payload that begins with U+FEFF comes back
    without it, and an unpaired surrogate comes back as U+FFFD, whatever
    the key and the cipher. *)
Lemma decrypt_encrypt_not_identity :
  exists text1 text2 : jsstring,
    text1 = [0xFEFF; 0x41] /\ text2 = [0xD800] /\
    (forall (W : WebCrypto) (key : CryptoKey W) (rng : entropy),
       exists e1 e2,
         fst (encryptData W text1 key rng) = Normal e1
         /\ decryptData W (data e1) (iv e1) key = Normal [0x41]
         /\ fst (encryptData W text2 key rng) = Normal e2
         /\ decryptData W (data e2) (iv e2) key = Normal [0xFFFD]).
Proof.
  exists [0xFEFF; 0x41], [0xD800]. repeat split.
  intros W key rng.
  destruct (encryptData_decryptData W [0xFEFF; 0x41] key rng)
    as (e1 & E1 & _ & _ & D1).
  destruct (encryptData_decryptData W [0xD800] key rng)
    as (e2 & E2 & _ & _ & D2).
  exists e1, e2. rewrite E1, E2, D1, D2. repeat split.
Qed.

(** C8: a call to [encryptData] takes the next twelve bytes of the random
    source as its nonce and returns them as [iv]; when the draws of two
    successive calls with the same key and plaintext differ, so do the two
    nonces and the two ciphertexts. *)
Theorem encryptData_fresh_nonce
  (W : WebCrypto) (text : jsstring) (key : CryptoKey W) (rng : entropy) :
  let draw1 := fst (getRandomValues 12 rng) in
  let rng1 := snd (encryptData W text key rng) in
  let draw2 := fst (getRandomValues 12 rng1) in
  draw1 <> draw2 ->
  exists e1 e2,
    fst (encryptData W text key rng) = Normal e1
    /\ fst (encryptData W text key rng1) = Normal e2
    /\ length draw1 = 12%nat /\ length draw2 = 12%nat
    /\ base64ToArrayBuffer (iv e1) = Normal draw1
    /\ base64ToArrayBuffer (iv e2) = Normal draw2
    /\ iv e1 <> iv e2
    /\ data e1 <> data e2.
Proof.
  cbn zeta. intros Hd.
  destruct (encryptData_decryptData W text key rng) as (e1 & E1 & I1 & C1 & _).
  rewrite E1 in *. cbn [fst snd] in *.
  set (rng1 := snd (getRandomValues 12 rng)) in *.
  destruct (encryptData_decryptData W text key rng1) as (e2 & E2 & I2 & C2 & _).
  rewrite E2. cbn [fst].
  exists e1, e2.
  split; [reflexivity|]. split; [reflexivity|].
  split; [apply length_getRandomValues|].
  split; [apply length_getRandomValues|].
  repeat split.
  - destruct (arrayBufferToBase64_inv (fst (getRandomValues 12 rng)))
      as (t & Et & Dt). congruence.
  - destruct (arrayBufferToBase64_inv (fst (getRandomValues 12 rng1)))
      as (t & Et & Dt). congruence.
  - intros E. apply Hd. rewrite <- E in I2.
    exact (arrayBufferToBase64_inj _ _ _ I1 I2).
  - intros E. apply Hd. rewrite <- E in C2.
    pose proof (arrayBufferToBase64_inj _ _ _ C1 C2) as Hc.
    apply encrypt_nonce in Hc; auto using length_getRandomValues.
Qed.

Lemma encryptData_fresh_nonce_witness :
  exists e1 e2,
    fst (encryptData ModelCipher.crypto (str "hello") ModelCipher.key
           ModelCipher.counter) = Normal e1
    /\ fst (encryptData ModelCipher.crypto (str "hello") ModelCipher.key
              (snd (encryptData ModelCipher.crypto (str "hello")
                      ModelCipher.key ModelCipher.counter))) = Normal e2
    /\ iv e1 = str "AAECAwQFBgcICQoL"
    /\ iv e2 = str "DA0ODxAREhMUFRYX"
    /\ iv e1 <> iv e2
    /\ data e1 <> data e2.
Proof.
  destruct (encryptData_fresh_nonce ModelCipher.crypto (str "hello")
              ModelCipher.key ModelCipher.counter)
    as (e1 & e2 & E1 & E2 & _ & _ & _ & _ & Hi & Hd).
  - vm_compute. discriminate.
  - exists e1, e2. repeat split; try assumption.
    + vm_compute in E1. injection E1 as <-. reflexivity.
    + vm_compute in E2. injection E2 as <-. reflexivity.
Defined.

(** C1: for every descriptor [d] and exported key string [k] (JSON values
    with code units in range), [parseLinkHash] applied to
    [generateLinkHash d k] returns the object [{s: d, k: k}], and writes
    nothing to the console. *)
Theorem link_hash_roundtrip
  (L : LZString) (d : JSON.value) (k : jsstring) (c : Console) :
  JSON.well_formed d = true -> forallb JSON.in_range k = true ->
  parseLinkHash L (generateLinkHash L d k) c
  = (Done (JSON.VObj [(str "s", d); (str "k", JSON.VStr k)]), c).
Proof. apply parseLinkHash_generateLinkHash. Qed.

Lemma link_hash_roundtrip_witness :
  parseLinkHash ModelLZ.codec
    (generateLinkHash ModelLZ.codec
       (toJSON (Some {| sdp_type := offer; sdp := str "v=0" |}))
       (str "AAECAwQFBgcICQoLDA0ODw=="))
    []
  = (Done (JSON.VObj
             [(str "s", toJSON (Some {| sdp_type := offer; sdp := str "v=0" |}));
              (str "k", JSON.VStr (str "AAECAwQFBgcICQoLDA0ODw=="))]),
     []).
Proof.
  apply (link_hash_roundtrip ModelLZ.codec); reflexivity.
Defined.

(** C5, as amended: for every input string, [parseLinkHash] returns a
    value and neither throws nor stays suspended.  The value is [null]
    when the library throws, returns [null] or the empty string, or
    returns a text that [JSON.parse] rejects (as for an empty, truncated
    or non-alphabet token), and one line is written to the console
    exactly when something was thrown.  A text that is JSON is returned
    as parsed, whatever it lacks, with nothing written. *)
Theorem parseLinkHash_never_throws
  (L : LZString) (hash : jsstring) (c : Console) :
  exists v c',
    parseLinkHash L hash c = (Done v, c')
    /\ match decompressFromEncodedURIComponent L hash with
       | Normal (Some (x :: r)) =>
           match JSON.parse (x :: r) with
           | Normal parsed => v = parsed /\ c' = c
           | Throw e =>
               v = JSON.VNull /\ c' = c ++ [(str "Link parse error", e)]
           end
       | Normal _ => v = JSON.VNull /\ c' = c
       | Throw e => v = JSON.VNull /\ c' = c ++ [(str "Link parse error", e)]
       end.
Proof.
  unfold parseLinkHash, try_catch, andThen, lift, console_error, modify, ret.
  destruct (decompressFromEncodedURIComponent L hash) as [[[|x r]|]|e];
    try (do 2 eexists; split; [reflexivity|split; reflexivity]).
  destruct (JSON.parse (x :: r)) as [parsed|e];
    do 2 eexists; (split; [reflexivity|split; reflexivity]).
Qed.

(** C5 as stated fails: a payload that is structurally incomplete is not
    answered with [null].  The token of the text of an empty object, of
    an object with no descriptor, or of a number decodes to that value;
    for the empty object this holds with every codec that returns what
    was compressed. *)
Lemma parseLinkHash_returns_incomplete_payloads :
  parseLinkHash ModelLZ.codec (ModelLZ.compress (json "{}")) []
  = (Done (JSON.VObj []), [])
  /\ parseLinkHash ModelLZ.codec (ModelLZ.compress (json "{'k':'x'}")) []
     = (Done (JSON.VObj [(str "k", JSON.VStr (str "x"))]), [])
  /\ parseLinkHash ModelLZ.codec (ModelLZ.compress (str "5")) []
     = (Done (JSON.VNum (JSON.mkNumber false (str "5") [] None)), [])
  /\ (forall (L : LZString) (c : Console),
        parseLinkHash L (compressToEncodedURIComponent L (json "{}")) c
        = (Done (JSON.VObj []), c)).
Proof.
  repeat apply conj; try reflexivity.
  intros L c. unfold parseLinkHash, try_catch, andThen, lift.
  rewrite decompress_compress by discriminate. reflexivity.
Qed.

(** C6, as amended: a Guest load never throws; when it ends without an
    answer it is back in [INIT] with one more alert, and the channel, the
    tokens and the messages are as before.  When the token decodes to no
    result or lacks a descriptor or a key, and when the key import fails,
    the key and the connection are as before too.  When the transport
    rejects the remote descriptor, the imported key and the new connection
    stay in the component. *)
Theorem guest_load_failure
  (W : WebCrypto) (L : LZString) (snap : App W) (env : Environment W)
  (hash : jsstring) (a : App W) :
  let r := handleGuestLoad W L snap env hash a in
  let pc := new_RTCPeerConnection env in
  (fst r = Done tt \/ fst r = Suspended)
  /\ (fst r = Done tt -> state (snd r) <> GUEST_ANSWER_READY ->
      state (snd r) = INIT
      /\ (exists m, alerts (snd r) = alerts a ++ [m])
      /\ dcRef (snd r) = dcRef a
      /\ answerData (snd r) = answerData a
      /\ offerLink (snd r) = offerLink a
      /\ messages (snd r) = messages a)
  /\ (invite_fields (decoded L hash) = None ->
      exists c, r = (Done tt, reported a INIT (str "Invalid Invite Link") c))
  /\ (forall s k e,
        invite_fields (decoded L hash) = Some (s, k) ->
        importKey_untyped W k = Throw e ->
        exists c,
          r = (Done tt, reported a INIT (str "Failed to join session") c))
  /\ (forall s k key e,
        invite_fields (decoded L hash) = Some (s, k) ->
        importKey_untyped W k = Normal key ->
        setRemoteDescription pc s = Throw e ->
        exists c,
          r = (Done tt, joined a INIT key pc [str "Failed to join session"]
                          c (answerData a))).
Proof.
  cbv zeta.
  destruct (invite_fields (decoded L hash)) as [[s k]|] eqn:Hi.
  - destruct (handleGuestLoad_valid W L snap env hash a s k Hi) as (c & H).
    cbv zeta in H. rewrite H. clear H. platform_outcomes.
    all: repeat apply conj; cbn [fst snd]; unfold reported, joined; cbn;
      intros.
    all: try match goal with
         | E : Some _ = Some _ |- _ => injection E as <- <-
         end.
    all: try (exfalso; congruence).
    all: try match goal with
         | H : ?x = Normal _, H' : ?x = Normal _ |- _ =>
             rewrite H in H'; injection H' as <-
         end.
    all: repeat split; eauto.
  - destruct (handleGuestLoad_invalid W L snap env hash a Hi) as (c & H).
    rewrite H. cbn [fst snd]. unfold reported.
    repeat apply conj; cbn; intros.
    all: try (exfalso; congruence).
    all: repeat split; eauto.
Qed.

(** C6 as stated fails: the invite decodes, the key imports, the
    transport rejects the remote descriptor; the component is back in
    [INIT] with an alert, and the key and the connection are populated. *)
Lemma guest_load_failure_keeps_key :
  let r := run (fun snapshot =>
                  handleGuestLoad Scenario.W Scenario.L snapshot
                    (Scenario.environment Scenario.rejecting) Scenario.invite)
             (initial Scenario.W) in
  fst r = Done tt
  /\ state (snd r) = INIT
  /\ alerts (snd r) = [str "Failed to join session"]
  /\ console (snd r) = [([], TransportError)]
  /\ sharedKey (snd r) = Some ModelCipher.key
  /\ pcRef (snd r) = Some Scenario.rejecting.
Proof. vm_compute. repeat split. Qed.

(** C3: when the Guest shows a response token, it is [btoa] of
    [JSON.stringify] of the local descriptor and nothing else: [atob]
    gives the serialized descriptor back, no decompression being
    involved, and the descriptor has no field [k]. *)
Theorem response_token_plain_base64
  (W : WebCrypto) (L : LZString) (snap : App W) (env : Environment W)
  (hash : jsstring) (a : App W) :
  state (snd (handleGuestLoad W L snap env hash a)) = GUEST_ANSWER_READY ->
  let descriptor := toJSON (localDescription (new_RTCPeerConnection env)) in
  let token := answerData (snd (handleGuestLoad W L snap env hash a)) in
  Base64.btoa (JSON.stringify descriptor) = Normal token
  /\ Base64.atob token = Normal (JSON.stringify descriptor)
  /\ (JSON.well_formed descriptor = true ->
      JSON.parse (JSON.stringify descriptor) = Normal descriptor)
  /\ match descriptor with
     | JSON.VObj members => JSON.lookup (str "k") members = None
     | other => other = JSON.VNull
     end.
Proof.
  intros Hs descriptor token.
  assert (Hb : Base64.btoa (JSON.stringify descriptor) = Normal token).
  { subst token descriptor. revert Hs.
    destruct (invite_fields (decoded L hash)) as [[s k]|] eqn:Hi.
    - destruct (handleGuestLoad_valid W L snap env hash a s k Hi) as (c & H).
      cbv zeta in H. rewrite H. clear H. platform_outcomes; cbn;
        try discriminate. intros _. reflexivity.
    - destruct (handleGuestLoad_invalid W L snap env hash a Hi) as (c & H).
      rewrite H. cbn. discriminate. }
  split; [exact Hb|].
  split; [exact (proj2 (btoa_inv _ _ Hb))|].
  split; [apply JSONFacts.parse_stringify|].
  subst descriptor. unfold toJSON.
  destruct (localDescription (new_RTCPeerConnection env)); reflexivity.
Qed.

Lemma response_token_plain_base64_witness :
  let r := handleGuestLoad Scenario.W Scenario.L (initial Scenario.W)
             (Scenario.environment Scenario.accepting) Scenario.invite
             (initial Scenario.W) in
  Base64.btoa (JSON.stringify (toJSON (Some Scenario.answered)))
  = Normal (answerData (snd r))
  /\ answerData (snd r)
     = str "eyJ0eXBlIjoiYW5zd2VyIiwic2RwIjoidj0wIG89Z3Vlc3QifQ=="
  /\ Base64.atob (answerData (snd r))
     = Normal (json "{'type':'answer','sdp':'v=0 o=guest'}").
Proof.
  cbv zeta.
  destruct (response_token_plain_base64 Scenario.W Scenario.L
              (initial Scenario.W) (Scenario.environment Scenario.accepting)
              Scenario.invite (initial Scenario.W))
    as (Hb & Ha & _ & _).
  - reflexivity.
  - split; [exact Hb|]. split; [reflexivity|]. exact Ha.
Defined.

(** C9: the promise of [waitForIce] is resolved once when the transport
    has signalled that gathering is complete, and not at all before; the
    [await] of it returns then, and only then.  As long as gathering is
    not complete, neither flow has built its token or left its processing
    state, and a flow whose calls succeeded is suspended; once it is
    complete, such a flow goes on and shows its token.  When the Host
    shows its link, gathering is complete and the link is built from the
    descriptor the connection has then. *)
Theorem no_token_before_gathering_complete
  (W : WebCrypto) (L : LZString) (snap : App W) (env : Environment W)
  (hash : jsstring) (a : App W) :
  let pc := new_RTCPeerConnection env in
  let host := startHost W L snap env a in
  let guest := handleGuestLoad W L snap env hash a in
  resolved (waitForIce_events pc)
  = (if gathering_complete pc then 1 else 0)%nat
  /\ waitForIce pc a
     = (if gathering_complete pc then Done tt else Suspended, a)
  /\ (gathering_complete pc = false ->
      offerLink (snd host) = offerLink a
      /\ state (snd host) <> HOST_WAITING
      /\ answerData (snd guest) = answerData a
      /\ state (snd guest) <> GUEST_ANSWER_READY)
  /\ (state (snd host) = HOST_WAITING ->
      gathering_complete pc = true
      /\ exists rawKey,
           offerLink (snd host)
           = location env ++ str "#"
             ++ generateLinkHash L (toJSON (localDescription pc)) rawKey)
  /\ (state (snd guest) = GUEST_ANSWER_READY ->
      gathering_complete pc = true)
  /\ (forall key o rawKey,
        generateKey env = Normal key ->
        exportKey W key = Normal rawKey ->
        createOffer pc = Normal o ->
        setLocalDescription pc o = Normal tt ->
        if gathering_complete pc then
          fst host = Done tt
          /\ state (snd host) = HOST_WAITING
          /\ offerLink (snd host)
             = location env ++ str "#"
               ++ generateLinkHash L (toJSON (localDescription pc)) rawKey
        else
          fst host = Suspended /\ state (snd host) = HOST_GENERATING)
  /\ (forall s k key answer token,
        invite_fields (decoded L hash) = Some (s, k) ->
        importKey_untyped W k = Normal key ->
        setRemoteDescription pc s = Normal tt ->
        createAnswer pc = Normal answer ->
        setLocalDescription pc answer = Normal tt ->
        Base64.btoa (JSON.stringify (toJSON (localDescription pc)))
        = Normal token ->
        if gathering_complete pc then
          fst guest = Done tt
          /\ state (snd guest) = GUEST_ANSWER_READY
          /\ answerData (snd guest) = token
        else
          fst guest = Suspended /\ state (snd guest) = GUEST_PROCESSING).
Proof.
  cbv zeta. split; [apply resolved_waitForIce_events|].
  split.
  { destruct (gathering_complete (new_RTCPeerConnection env)) eqn:Hg;
      [now apply waitForIce_resolved|now apply waitForIce_pending]. }
  assert (Hguest : gathering_complete (new_RTCPeerConnection env) = false ->
                   answerData (snd (handleGuestLoad W L snap env hash a))
                   = answerData a
                   /\ state (snd (handleGuestLoad W L snap env hash a))
                      <> GUEST_ANSWER_READY).
  { intros Hg.
    destruct (invite_fields (decoded L hash)) as [[s k]|] eqn:Hi.
    - destruct (handleGuestLoad_valid W L snap env hash a s k Hi) as (c & H).
      cbv zeta in H. rewrite H, Hg. clear H.
      platform_outcomes; cbn; split; (reflexivity || discriminate).
    - destruct (handleGuestLoad_invalid W L snap env hash a Hi) as (c & H).
      rewrite H. cbn. split; [reflexivity|discriminate]. }
  split; [|split; [|split; [|split]]].
  - intros Hg. destruct (startHost_pending W L snap env a Hg) as [H1 H2].
    destruct (Hguest Hg) as [H3 H4]. auto.
  - intros Hs.
    destruct (gathering_complete (new_RTCPeerConnection env)) eqn:Hg.
    + split; [reflexivity|]. revert Hs.
      unfold startHost. unfold_handlers.
      destruct (generateKey env) as [key|e]; cbn; [|discriminate].
      destruct (exportKey W key) as [rawKey|e]; cbn; [|discriminate].
      destruct (createOffer (new_RTCPeerConnection env)) as [o|e]; cbn;
        [|discriminate].
      destruct (setLocalDescription (new_RTCPeerConnection env) o)
        as [[]|e]; cbn; [|discriminate].
      rewrite waitForIce_resolved by assumption. cbn. eauto.
    + now destruct (startHost_pending W L snap env a Hg) as [_ H2].
  - intros Hs.
    destruct (gathering_complete (new_RTCPeerConnection env)) eqn:Hg;
      [reflexivity|].
    now destruct (Hguest eq_refl) as [_ H4].
  - intros key o rawKey Hk Hr Ho Hl.
    unfold startHost. unfold_handlers. rewrite Hk. cbn. rewrite Hr. cbn.
    rewrite Ho. cbn. rewrite Hl. cbn.
    destruct (gathering_complete (new_RTCPeerConnection env)) eqn:Hg.
    + rewrite waitForIce_resolved by assumption. cbn. repeat split.
    + rewrite waitForIce_pending by assumption. cbn. repeat split.
  - intros s k key answer token Hi Hk Hr Ha Hl Hb.
    destruct (handleGuestLoad_valid W L snap env hash a s k Hi) as (c & H).
    cbv zeta in H. rewrite H, Hk, Hr, Ha, Hl, Hb. clear H.
    destruct (gathering_complete (new_RTCPeerConnection env));
      cbn; repeat split.
Qed.

(** The two flows of C9 with a transport that completes gathering after
    the flow has started to wait: each ends with its token shown. *)
Lemma no_token_before_gathering_complete_witness :
  let env := Scenario.environment Scenario.accepting in
  let host := startHost Scenario.W Scenario.L (initial Scenario.W) env
                (initial Scenario.W) in
  let guest := handleGuestLoad Scenario.W Scenario.L (initial Scenario.W) env
                 Scenario.invite (initial Scenario.W) in
  iceGatheringState Scenario.accepting = gathering
  /\ gathering_complete Scenario.accepting = true
  /\ waitForIce Scenario.accepting (initial Scenario.W)
     = (Done tt, initial Scenario.W)
  /\ (fst host = Done tt
      /\ state (snd host) = HOST_WAITING
      /\ offerLink (snd host)
         = location env ++ str "#"
           ++ generateLinkHash Scenario.L (toJSON (Some Scenario.answered))
                (str "AQIDBAUGBwgJCgsMDQ4PEA=="))
  /\ (fst guest = Done tt
      /\ state (snd guest) = GUEST_ANSWER_READY
      /\ answerData (snd guest)
         = str "eyJ0eXBlIjoiYW5zd2VyIiwic2RwIjoidj0wIG89Z3Vlc3QifQ==").
Proof.
  cbv zeta.
  destruct (no_token_before_gathering_complete Scenario.W Scenario.L
              (initial Scenario.W) (Scenario.environment Scenario.accepting)
              Scenario.invite (initial Scenario.W))
    as (_ & Hw & _ & _ & _ & Hh & Hg).
  split; [reflexivity|]. split; [reflexivity|].
  split; [exact Hw|].
  split.
  - exact (Hh ModelCipher.key Scenario.offered
             (str "AQIDBAUGBwgJCgsMDQ4PEA==")
             eq_refl eq_refl eq_refl eq_refl).
  - exact (Hg (toJSON (Some Scenario.offered))
             (JSON.VStr (str "AQIDBAUGBwgJCgsMDQ4PEA=="))
             ModelCipher.key Scenario.answered
             (str "eyJ0eXBlIjoiYW5zd2VyIiwic2RwIjoidj0wIG89Z3Vlc3QifQ==")
             eq_refl eq_refl eq_refl eq_refl eq_refl eq_refl).
Defined.



(** C4, as amended: an input that is blank after [trim] is ignored.  For
    any other input the descriptor is the first that the compressed-token
    decoding and then the base64-of-JSON decoding give, their failures
    being swallowed; when neither gives one, the input is parsed as JSON
    text only if it starts with a brace, and a failure of that parse is
    reported as a connection error.  A descriptor goes to the connection;
    without one the code is reported invalid. *)
Theorem host_answer_decoding
  (W : WebCrypto) (L : LZString) (snapshot a : App W) :
  let input := manualInput snapshot in
  (is_empty (trim input) = true ->
   handleHostProcessAnswer W L snapshot a = (Done tt, a))
  /\ (is_empty (trim input) = false ->
      exists c,
        handleHostProcessAnswer W L snapshot a
        = (Done tt,
           match first_valid [compressed_token L input;
                              base64_structured input] with
           | Some d => handed (with_console a c) d
           | None =>
               if startsWith_brace input then
                 match JSON.parse input with
                 | Normal v =>
                     if JSON.truthy v then handed (with_console a c) v
                     else invalid_answer (with_console a c)
                 | Throw e => error_connecting (with_console a c) e
                 end
               else invalid_answer (with_console a c)
           end)).
Proof.
  cbv zeta. split.
  - apply handleHostProcessAnswer_blank.
  - apply handleHostProcessAnswer_chain.
Qed.

(** C4 as stated fails.  A blank input is not decoded at all and nothing
    is reported.  JSON text that does not start with a brace (here, after
    a space) is a descriptor for the third decoding, and the code is
    reported invalid.  JSON text cut short fails the third decoding, and
    the failure is not discarded: it is logged and reported as a
    connection error. *)
Lemma host_answer_not_first_of_three :
  HostScenario.process (HostScenario.pasted (str " "))
  = (Done tt, HostScenario.pasted (str " "))
  /\ (let input := json " {'type':'answer','sdp':'v=0 o=guest'}" in
      first_valid [compressed_token Scenario.L input;
                   base64_structured input; raw_structured input]
      = Some (toJSON (Some Scenario.answered))
      /\ HostScenario.process (HostScenario.pasted input)
         = (Done tt, invalid_answer (HostScenario.pasted input)))
  /\ (let input := json "{'type':'answer'" in
      first_valid [compressed_token Scenario.L input;
                   base64_structured input; raw_structured input]
      = None
      /\ HostScenario.process (HostScenario.pasted input)
         = (Done tt,
            error_connecting (HostScenario.pasted input) SyntaxError)).
Proof. vm_compute. repeat split. Qed.

(* ================================================================== *)
(** * Further properties *)
(* ================================================================== *)

(** X1: [importKey] undoes [exportKey]: when the platform imports the raw
    bytes it exported for [key] as [key] again, [exportKey] returns a
    string and [importKey] of that string returns [key]. *)
Theorem importKey_undoes_exportKey (W : WebCrypto) (key : CryptoKey W) :
  subtle_importKey W (subtle_exportKey W key) = Some key ->
  exists t, exportKey W key = Normal t /\ importKey W t = Normal key.
Proof.
  intros H.
  destruct (arrayBufferToBase64_inv (subtle_exportKey W key)) as (t & E & D).
  exists t. split; [exact E|].
  unfold importKey. rewrite D. cbn [bind]. now rewrite H.
Qed.

Lemma importKey_undoes_exportKey_witness :
  exists t,
    exportKey ModelCipher.crypto ModelCipher.key = Normal t
    /\ importKey ModelCipher.crypto t = Normal ModelCipher.key.
Proof.
  apply (importKey_undoes_exportKey ModelCipher.crypto ModelCipher.key).
  reflexivity.
Defined.

(** X2: a string with a character that is neither of the base64
    alphabet, nor [=], nor ASCII white space is rejected with
    [InvalidCharacterError] by [base64ToArrayBuffer], by [importKey], and
    by [decryptData] in the place of the nonce or of the ciphertext,
    whatever the key and the other argument: the cipher does not decide. *)
Theorem malformed_base64_rejected (s : jsstring) :
  forallb atob_accepts s = false ->
  base64ToArrayBuffer s = Throw InvalidCharacterError
  /\ (forall W : WebCrypto, importKey W s = Throw InvalidCharacterError)
  /\ (forall (W : WebCrypto) (other : jsstring) (key : CryptoKey W),
        decryptData W other s key = Throw InvalidCharacterError
        /\ decryptData W s other key = Throw InvalidCharacterError).
Proof.
  intros H. pose proof (base64ToArrayBuffer_rejects s H) as E.
  split; [exact E|]. split.
  - intros W. unfold importKey. now rewrite E.
  - intros W other key. unfold decryptData. rewrite E. split; [reflexivity|].
    destruct (base64ToArrayBuffer other) as [b|e] eqn:Eo; [reflexivity|].
    cbn [bind]. now rewrite (base64ToArrayBuffer_throws other e Eo).
Qed.

Lemma malformed_base64_rejected_witness :
  base64ToArrayBuffer (str "AAEC*wQF") = Throw InvalidCharacterError
  /\ importKey ModelCipher.crypto (str "AAEC*wQF") = Throw InvalidCharacterError
  /\ decryptData ModelCipher.crypto (str "AAAA") (str "AAEC*wQF")
       ModelCipher.key
     = Throw InvalidCharacterError.
Proof.
  destruct (malformed_base64_rejected (str "AAEC*wQF")) as (H1 & H2 & H3);
    [reflexivity|].
  split; [exact H1|]. split; [apply H2|].
  apply (H3 ModelCipher.crypto (str "AAAA") ModelCipher.key).
Defined.

(** X3: whatever the ciphertext, the nonce and the key, a text that
    [decryptData] returns is a well-formed string: every code unit is in
    range and every surrogate is paired, bytes that are not UTF-8 having
    become U+FFFD. *)
Theorem decryptData_well_formed
  (W : WebCrypto) (encryptedData ivStr : jsstring) (key : CryptoKey W)
  (text : jsstring) :
  decryptData W encryptedData ivStr key = Normal text ->
  UTF8.well_formed text = true.
Proof.
  unfold decryptData.
  destruct (base64ToArrayBuffer ivStr) as [nonce|]; [|discriminate].
  destruct (base64ToArrayBuffer encryptedData) as [bytes|]; [|discriminate].
  cbn [bind].
  destruct (subtle_decrypt W key nonce bytes) as [decrypted|];
    [|discriminate].
  intros [= <-]. apply UTF8More.TextDecoder_decode_well_formed.
Qed.

Lemma decryptData_well_formed_witness :
  let nonce := fst (getRandomValues 12 ModelCipher.counter) in
  let ciphertext :=
    ModelCipher.encrypt ModelCipher.key nonce [xed; xa0; x80; x41; xff] in
  let data64 := Base64.encode (map Z_of_byte ciphertext) in
  let text := [0xFFFD; 0xFFFD; 0xFFFD; 0x41; 0xFFFD] in
  decryptData ModelCipher.crypto data64 (str "AAECAwQFBgcICQoL")
    ModelCipher.key = Normal text
  /\ UTF8.well_formed text = true.
Proof.
  cbv zeta. split; [vm_compute; reflexivity|].
  apply (decryptData_well_formed ModelCipher.crypto
           (Base64.encode
              (map Z_of_byte
                 (ModelCipher.encrypt ModelCipher.key
                    (fst (getRandomValues 12 ModelCipher.counter))
                    [xed; xa0; x80; x41; xff])))
           (str "AAECAwQFBgcICQoL") ModelCipher.key).
  vm_compute. reflexivity.
Defined.

(** X4: [encryptData] returns for every text, key and random source, and
    takes exactly twelve bytes from the source.  The [iv] it returns is
    sixteen characters of the base64 alphabet, without padding; [data] is
    base64 text, four characters for every three bytes of the ciphertext
    or part of them. *)
Theorem encryptData_format
  (W : WebCrypto) (text : jsstring) (key : CryptoKey W) (rng : entropy) :
  let ciphertext :=
    subtle_encrypt W key (fst (getRandomValues 12 rng))
      (UTF8.TextEncoder_encode text) in
  exists e,
    encryptData W text key rng = (Normal e, fun i => rng (12 + i)%nat)
    /\ length (iv e) = 16%nat
    /\ forallb base64_alphabet (iv e) = true
    /\ Z.of_nat (length (data e))
       = 4 * ((Z.of_nat (length ciphertext) + 2) / 3)
    /\ forallb base64_character (data e) = true.
Proof.
  cbv zeta. rewrite encryptData_eq. cbv zeta. eexists.
  split; [reflexivity|]. cbn [iv data].
  split; [reflexivity|].
  split.
  - apply forallb_forall. apply Forall_forall.
    apply (Base64More.encode_triples (fun c => base64_alphabet c = true)).
    + apply Base64More.base64_alphabet_enc.
    + reflexivity.
    + apply Base64Facts.map_Z_of_byte_octet.
  - split.
    + rewrite Base64More.length_encode_eq. now rewrite length_map.
    + apply Base64More.forallb_encode;
        [apply Base64More.base64_character_enc|reflexivity|].
      apply Base64Facts.map_Z_of_byte_octet.
Qed.

(** X5: two invitations with the same token have the same descriptor and
    the same key (JSON values with code units in range). *)
Theorem generateLinkHash_injective
  (L : LZString) (d1 d2 : JSON.value) (k1 k2 : jsstring) :
  JSON.well_formed d1 = true -> JSON.well_formed d2 = true ->
  forallb JSON.in_range k1 = true -> forallb JSON.in_range k2 = true ->
  generateLinkHash L d1 k1 = generateLinkHash L d2 k2 ->
  d1 = d2 /\ k1 = k2.
Proof.
  intros Hd1 Hd2 Hk1 Hk2 E.
  pose proof (parseLinkHash_generateLinkHash L d1 k1 [] Hd1 Hk1) as P1.
  pose proof (parseLinkHash_generateLinkHash L d2 k2 [] Hd2 Hk2) as P2.
  rewrite E in P1. rewrite P1 in P2. injection P2 as -> ->. now split.
Qed.

Lemma generateLinkHash_injective_witness :
  toJSON (Some Scenario.offered) = toJSON (Some Scenario.offered)
  /\ str "AQIDBAUGBwgJCgsMDQ4PEA==" = str "AQIDBAUGBwgJCgsMDQ4PEA==".
Proof.
  apply (generateLinkHash_injective Scenario.L
           (toJSON (Some Scenario.offered)) (toJSON (Some Scenario.offered))
           (str "AQIDBAUGBwgJCgsMDQ4PEA==") (str "AQIDBAUGBwgJCgsMDQ4PEA=="));
    reflexivity.
Defined.

(** X16: the ciphertext determines the text.  Under one key and one
    state of the random source, two well-formed texts for which
    [encryptData] returns the same [data] are the same text. *)
Theorem encryptData_injective
  (W : WebCrypto) (key : CryptoKey W) (rng : entropy) (text1 text2 : jsstring)
  (e1 e2 : encrypted) :
  UTF8.well_formed text1 = true -> UTF8.well_formed text2 = true ->
  fst (encryptData W text1 key rng) = Normal e1 ->
  fst (encryptData W text2 key rng) = Normal e2 ->
  data e1 = data e2 ->
  text1 = text2.
Proof.
  intros H1 H2 E1 E2 Hd.
  destruct (encryptData_decryptData W text1 key rng)
    as (x1 & X1 & _ & C1 & _).
  destruct (encryptData_decryptData W text2 key rng)
    as (x2 & X2 & _ & C2 & _).
  cbv zeta in C1, C2.
  rewrite X1 in E1. rewrite X2 in E2. cbn [fst] in E1, E2.
  injection E1 as ->. injection E2 as ->.
  rewrite <- Hd in C2.
  pose proof (arrayBufferToBase64_inj _ _ _ C1 C2) as Hc.
  apply (f_equal (subtle_decrypt W key (fst (getRandomValues 12 rng)))) in Hc.
  rewrite !decrypt_encrypt in Hc. injection Hc as Hc.
  now apply TextEncoder_encode_inj.
Qed.

Lemma encryptData_injective_witness :
  exists e,
    fst (encryptData ModelCipher.crypto (str "hello") ModelCipher.key
           ModelCipher.counter) = Normal e
    /\ str "hello" = str "hello".
Proof.
  eexists. split; [vm_compute; reflexivity|].
  eapply (encryptData_injective ModelCipher.crypto ModelCipher.key
            ModelCipher.counter (str "hello") (str "hello"));
    [reflexivity | reflexivity | vm_compute; reflexivity
    | vm_compute; reflexivity | reflexivity].
Defined.

(** X6: the link the Host shows opens the session for the Guest.  When
    [startHost] ends in [HOST_WAITING] with the key [key] and the local
    descriptor [d], the link is the location, [#] and a token in which
    the Guest finds [d] and the exported key; [importKey] of that string
    is [key], and after [handleGuestLoad] the Guest holds [key], whatever
    its transport does.  The platform must import what it exported for
    [key] as [key], and the exported key must not be empty. *)
Theorem host_link_gives_guest_the_key
  (W : WebCrypto) (L : LZString) (host a guest b : App W)
  (host_env guest_env : Environment W) (key : CryptoKey W)
  (d : RTCSessionDescription) :
  generateKey host_env = Normal key ->
  subtle_importKey W (subtle_exportKey W key) = Some key ->
  subtle_exportKey W key <> [] ->
  localDescription (new_RTCPeerConnection host_env) = Some d ->
  forallb JSON.in_range (sdp d) = true ->
  state (snd (startHost W L host host_env a)) = HOST_WAITING ->
  exists hash rawKey,
    offerLink (snd (startHost W L host host_env a))
    = location host_env ++ str "#" ++ hash
    /\ exportKey W key = Normal rawKey
    /\ invite_fields (decoded L hash)
       = Some (toJSON (Some d), JSON.VStr rawKey)
    /\ importKey W rawKey = Normal key
    /\ sharedKey (snd (handleGuestLoad W L guest guest_env hash b))
       = Some key.
Proof.
  intros Hg Hi Hne Hd Hr Hs.
  rewrite startHost_cases in *. cbv zeta in *. rewrite Hg, Hd in *.
  set (rawKey := Base64.encode (map Z_of_byte (subtle_exportKey W key))) in *.
  assert (Himp : importKey W rawKey = Normal key).
  { destruct (arrayBufferToBase64_inv (subtle_exportKey W key))
      as (t & E & D).
    rewrite arrayBufferToBase64_eq in E. injection E as <-.
    unfold importKey, rawKey. rewrite D. cbn [bind]. now rewrite Hi. }
  assert (Hf : invite_fields
                 (decoded L (generateLinkHash L (toJSON (Some d)) rawKey))
               = Some (toJSON (Some d), JSON.VStr rawKey)).
  { rewrite decoded_generateLinkHash.
    - apply invite_fields_pair; [reflexivity|].
      cbn [JSON.truthy].
      destruct rawKey eqn:E; [|reflexivity].
      exfalso. apply (Base64More.encode_nonempty
                        (map Z_of_byte (subtle_exportKey W key))); [|exact E].
      destruct (subtle_exportKey W key); [congruence|discriminate].
    - now apply well_formed_toJSON.
    - apply in_range_encode. apply Base64Facts.map_Z_of_byte_octet. }
  exists (generateLinkHash L (toJSON (Some d)) rawKey), rawKey.
  split.
  { revert Hs. platform_outcomes; cbn; try discriminate. reflexivity. }
  split; [apply exportKey_eq|].
  split; [exact Hf|].
  split; [exact Himp|].
  exact (handleGuestLoad_key W L guest guest_env _ b _ _ key Hf Himp).
Qed.

Lemma host_link_gives_guest_the_key_witness :
  let host_env := Scenario.environment ChatScenario.offering in
  let hosting := snd (startHost Scenario.W Scenario.L (initial Scenario.W)
                        host_env (initial Scenario.W)) in
  exists hash rawKey,
    offerLink hosting = location host_env ++ str "#" ++ hash
    /\ exportKey Scenario.W ModelCipher.key = Normal rawKey
    /\ invite_fields (decoded Scenario.L hash)
       = Some (toJSON (Some Scenario.offered), JSON.VStr rawKey)
    /\ importKey Scenario.W rawKey = Normal ModelCipher.key
    /\ sharedKey
         (snd (handleGuestLoad Scenario.W Scenario.L (initial Scenario.W)
                 (Scenario.environment Scenario.rejecting) hash
                 (initial Scenario.W)))
       = Some ModelCipher.key.
Proof.
  cbv zeta.
  apply (host_link_gives_guest_the_key Scenario.W Scenario.L
           (initial Scenario.W) (initial Scenario.W)
           (initial Scenario.W) (initial Scenario.W)
           (Scenario.environment ChatScenario.offering)
           (Scenario.environment Scenario.rejecting)
           ModelCipher.key Scenario.offered);
    try reflexivity.
  discriminate.
Defined.

(** X7: the answer the Guest shows is accepted by the Host.  When
    [handleGuestLoad] ends in [GUEST_ANSWER_READY] with the local
    descriptor [d], and the text it shows is what the Host has in its
    answer field, [handleHostProcessAnswer] hands [d] to the connection of
    the Host, provided the compressed-token decoding, which is tried
    first, finds no descriptor in that text. *)
Theorem guest_answer_reaches_host
  (W : WebCrypto) (L : LZString) (guest b : App W)
  (guest_env : Environment W) (hash : jsstring) (host a : App W)
  (d : RTCSessionDescription) :
  state (snd (handleGuestLoad W L guest guest_env hash b))
  = GUEST_ANSWER_READY ->
  localDescription (new_RTCPeerConnection guest_env) = Some d ->
  forallb JSON.in_range (sdp d) = true ->
  manualInput host
  = answerData (snd (handleGuestLoad W L guest guest_env hash b)) ->
  compressed_token L (manualInput host) = None ->
  exists c,
    handleHostProcessAnswer W L host a
    = (Done tt, handed (with_console a c) (toJSON (Some d))).
Proof.
  intros Hs Hd Hr Hm Hc.
  pose proof (handleGuestLoad_ready W L guest guest_env hash b Hs) as Hb.
  rewrite Hd, <- Hm in Hb. clear Hs Hm.
  destruct (btoa_inv _ _ Hb) as [He Ha].
  assert (Ho : Forall BitFacts.octet (JSON.stringify (toJSON (Some d)))).
  { apply latin1_octets. unfold Base64.btoa in Hb.
    now destruct (forallb Base64.is_latin1 _). }
  assert (Hn : is_empty (trim (manualInput host)) = false).
  { rewrite He, trim_encode by exact Ho.
    destruct (Base64.encode _) eqn:E; [|reflexivity].
    exfalso. apply (Base64More.encode_nonempty _) in E; [exact E|].
    cbn [toJSON]. rewrite JSONFacts.stringify_object. discriminate. }
  destruct (handleHostProcessAnswer_chain W L host a Hn) as (c & H).
  cbv zeta in H. exists c. rewrite H. cbn [first_valid]. rewrite Hc.
  unfold base64_structured, structured. rewrite Ha. cbn [bind].
  rewrite JSONFacts.parse_stringify by now apply well_formed_toJSON.
  reflexivity.
Qed.

Lemma guest_answer_reaches_host_witness :
  let answering :=
    snd (handleGuestLoad Scenario.W Scenario.L (initial Scenario.W)
           (Scenario.environment Scenario.accepting) Scenario.invite
           (initial Scenario.W)) in
  let host := HostScenario.pasted (answerData answering) in
  exists c,
    handleHostProcessAnswer Scenario.W Scenario.L host host
    = (Done tt, handed (with_console host c) (toJSON (Some Scenario.answered))).
Proof.
  cbv zeta.
  apply (guest_answer_reaches_host Scenario.W Scenario.L
           (initial Scenario.W) (initial Scenario.W)
           (Scenario.environment Scenario.accepting) Scenario.invite);
    reflexivity.
Defined.




(** X10: [handleHostProcessAnswer] never throws and never moves the
    session: the state, the key, the messages, the tokens, the answer
    field, the connection and the channel are as before, whatever was
    pasted and whatever the transport answers; at most one alert is
    added, "Invalid Answer Code" or "Error connecting". *)
Theorem answer_processing_keeps_session
  (W : WebCrypto) (L : LZString) (snapshot a : App W) :
  let r := handleHostProcessAnswer W L snapshot a in
  fst r = Done tt
  /\ state (snd r) = state a
  /\ sharedKey (snd r) = sharedKey a
  /\ messages (snd r) = messages a
  /\ offerLink (snd r) = offerLink a
  /\ answerData (snd r) = answerData a
  /\ manualInput (snd r) = manualInput a
  /\ pcRef (snd r) = pcRef a
  /\ dcRef (snd r) = dcRef a
  /\ (alerts (snd r) = alerts a
      \/ alerts (snd r) = alerts a ++ [str "Invalid Answer Code"]
      \/ alerts (snd r) = alerts a ++ [str "Error connecting"]).
Proof.
  cbv zeta.
  destruct (is_empty (trim (manualInput snapshot))) eqn:Hb.
  - rewrite handleHostProcessAnswer_blank by assumption.
    cbn [fst snd]. repeat split. now left.
  - destruct (handleHostProcessAnswer_chain W L snapshot a Hb) as (c & H).
    cbv zeta in H. rewrite H. clear H. cbn [fst snd].
    assert (Hh : forall d,
               let x := handed (with_console a c) d in
               state x = state a /\ sharedKey x = sharedKey a
               /\ messages x = messages a /\ offerLink x = offerLink a
               /\ answerData x = answerData a
               /\ manualInput x = manualInput a
               /\ pcRef x = pcRef a /\ dcRef x = dcRef a
               /\ (alerts x = alerts a
                   \/ alerts x = alerts a ++ [str "Invalid Answer Code"]
                   \/ alerts x = alerts a ++ [str "Error connecting"])).
    { intros d. cbv zeta. unfold handed, with_console, error_connecting,
        invalid_answer.
      cbn [state sharedKey messages offerLink answerData manualInput pcRef
           dcRef alerts console].
      destruct (pcRef a) as [pc|].
      - destruct (setRemoteDescription pc d); cbn; repeat split; auto.
      - cbn. repeat split; auto. }
    assert (Hi : let x := invalid_answer (with_console a c) in
               state x = state a /\ sharedKey x = sharedKey a
               /\ messages x = messages a /\ offerLink x = offerLink a
               /\ answerData x = answerData a
               /\ manualInput x = manualInput a
               /\ pcRef x = pcRef a /\ dcRef x = dcRef a
               /\ (alerts x = alerts a
                   \/ alerts x = alerts a ++ [str "Invalid Answer Code"]
                   \/ alerts x = alerts a ++ [str "Error connecting"])).
    { cbv zeta. unfold with_console, invalid_answer. cbn. repeat split; auto. }
    assert (He : forall e,
               let x := error_connecting (with_console a c) e in
               state x = state a /\ sharedKey x = sharedKey a
               /\ messages x = messages a /\ offerLink x = offerLink a
               /\ answerData x = answerData a
               /\ manualInput x = manualInput a
               /\ pcRef x = pcRef a /\ dcRef x = dcRef a
               /\ (alerts x = alerts a
                   \/ alerts x = alerts a ++ [str "Invalid Answer Code"]
                   \/ alerts x = alerts a ++ [str "Error connecting"])).
    { intros e. cbv zeta. unfold with_console, error_connecting. cbn.
      repeat split; auto. }
    cbv zeta in Hh, Hi, He. split; [reflexivity|].
    destruct (first_valid _) as [d|]; [apply Hh|].
    destruct (startsWith_brace _); [|apply Hi].
    destruct (JSON.parse _) as [v|e]; [|apply He].
    destruct (JSON.truthy v); [apply Hh|apply Hi].
Qed.

(** X11: [sendMessage] never throws, and what the sender sees is what
    went out: either nothing was given to the channel, no message was
    appended and the input is as it was, or exactly one string was given
    to the channel, the text of the render was appended as a message of
    [me], untrimmed, and the input was cleared.  The state of the session,
    the key, the connection and the channel are as before. *)
Theorem sendMessage_shows_what_it_sent
  (W : WebCrypto) (snapshot : Chat W) (channel : completion unit)
  (fresh : jsstring) (now : Z) (c : Chat W) :
  let r := sendMessage W snapshot channel fresh now c in
  fst r = Done tt
  /\ ((sent (snd r) = sent c
       /\ messages (component (snd r)) = messages (component c)
       /\ inputText (snd r) = inputText c)
      \/ (exists payload,
            sent (snd r) = sent c ++ [payload]
            /\ messages (component (snd r))
               = messages (component c)
                 ++ [{| id := fresh; text := inputText snapshot;
                        sender := me; timestamp := now |}]
            /\ inputText (snd r) = []))
  /\ state (component (snd r)) = state (component c)
  /\ sharedKey (component (snd r)) = sharedKey (component c)
  /\ pcRef (component (snd r)) = pcRef (component c)
  /\ dcRef (component (snd r)) = dcRef (component c)
  /\ alerts (component (snd r)) = alerts (component c).
Proof.
  cbv zeta. rewrite sendMessage_cases.
  destruct (is_empty _); [repeat split; now left|].
  destruct (sharedKey (component snapshot)) as [key|];
    [|repeat split; now left].
  destruct (dcRef (component c)) as [dc|] eqn:Hdc;
    [|repeat split; auto].
  destruct (encryptData W (inputText snapshot) key (random c))
    as [[e|err] rng].
  - destruct channel as [[]|err]; unfold delivered, send_failed, received,
      with_console; cbn; repeat split; eauto.
  - unfold send_failed, with_console; cbn; repeat split; auto.
Qed.



(** X13: when the channel does not take the message, nothing is shown as
    sent: the error is written to the console under "Send failed", no
    message is appended, the input keeps its text and nothing is on the
    wire; the twelve bytes of the nonce are spent all the same. *)
Theorem sendMessage_channel_failure
  (W : WebCrypto) (snapshot c : Chat W) (key : CryptoKey W)
  (dc : RTCDataChannel W) (err : exn) (fresh : jsstring) (now : Z) :
  is_empty (trim (inputText snapshot)) = false ->
  sharedKey (component snapshot) = Some key ->
  dcRef (component c) = Some dc ->
  sendMessage W snapshot (Throw err) fresh now c
  = (Done tt, send_failed c err (fun i => random c (12 + i)%nat)).
Proof.
  intros Hb Hk Hdc. rewrite sendMessage_cases, Hb, Hk, Hdc.
  rewrite encryptData_eq. reflexivity.
Qed.

Lemma sendMessage_channel_failure_witness :
  let typing := ChatScenario.typing (str "hello") in
  sendMessage Scenario.W typing (Throw TransportError) (str "1") 1 typing
  = (Done tt,
     send_failed typing TransportError
       (fun i => ModelCipher.counter (12 + i)%nat)).
Proof.
  cbv zeta.
  refine (sendMessage_channel_failure Scenario.W _ _ ModelCipher.key
            {| label := str "secure-chat"; onmessage_sharedKey := None |}
            TransportError (str "1") 1 _ _ _);
    reflexivity.
Defined.

(** X14: the listener of [waitForIce] is registered exactly as long as
    gathering has not been found complete; once it has, the listener is
    removed and later events change nothing: [resolve] is not called
    again. *)
Theorem waitForIce_listener_removed (pc : RTCPeerConnection) :
  listening (waitForIce_events pc) = negb (gathering_complete pc)
  /\ (forall later,
        gathering_complete pc = true ->
        fold_left check later (waitForIce_events pc) = waitForIce_events pc).
Proof.
  assert (H : listening (waitForIce_events pc) = negb (gathering_complete pc)).
  { unfold waitForIce_events, gathering_complete.
    rewrite listening_fold by apply settled_start.
    unfold waitForIce_start.
    destruct (is_complete (iceGatheringState pc)); cbn [listening];
      [reflexivity|].
    now destruct (existsb is_complete (icegatheringstatechange pc)). }
  split; [exact H|].
  intros later Hg. apply fold_check_resolved. now rewrite H, Hg.
Qed.

(** X15: [CONNECTED] is entered by [onopen] alone.  [startHost] ends in
    [HOST_WAITING], [INIT] or [HOST_GENERATING], and [handleGuestLoad] in
    [GUEST_ANSWER_READY], [INIT] or [GUEST_PROCESSING];
    [handleHostProcessAnswer] and [onmessage] leave the state as it is,
    also when the answer was accepted.  A change of the ICE state to
    [disconnected] shows "Connection lost" and returns to [INIT], the
    key, the messages, the connection and the channel staying in the
    component; any other ICE state changes nothing. *)
Theorem connected_only_by_onopen
  (W : WebCrypto) (L : LZString) (snap : App W) (env : Environment W)
  (hash : jsstring) (key : option (CryptoKey W)) (data fresh : jsstring)
  (now : Z) (s : RTCIceConnectionState) (a : App W) :
  In (state (snd (startHost W L snap env a)))
    [HOST_WAITING; INIT; HOST_GENERATING]
  /\ In (state (snd (handleGuestLoad W L snap env hash a)))
       [GUEST_ANSWER_READY; INIT; GUEST_PROCESSING]
  /\ state (snd (handleHostProcessAnswer W L snap a)) = state a
  /\ state (snd (onmessage W key data fresh now a)) = state a
  /\ oniceconnectionstatechange W s a
     = (Done tt,
        match s with
        | disconnected =>
            reported a INIT (str "Connection lost") (console a)
        | _ => a
        end)
  /\ state (snd (onopen W a)) = CONNECTED.
Proof.
  repeat apply conj.
  - rewrite startHost_cases. cbv zeta.
    platform_outcomes; cbn; auto.
  - destruct (invite_fields (decoded L hash)) as [[d k]|] eqn:Hi.
    + destruct (handleGuestLoad_valid W L snap env hash a d k Hi) as (c & H).
      cbv zeta in H. rewrite H. clear H. platform_outcomes; cbn; auto.
    + destruct (handleGuestLoad_invalid W L snap env hash a Hi) as (c & H).
      rewrite H. cbn. auto.
  - destruct (is_empty (trim (manualInput snap))) eqn:Hb.
    + now rewrite handleHostProcessAnswer_blank.
    + destruct (handleHostProcessAnswer_chain W L snap a Hb) as (c & H).
      cbv zeta in H. rewrite H. clear H. cbn [snd].
      unfold handed, invalid_answer, error_connecting, with_console.
      cbn [pcRef].
      repeat match goal with
      | |- context [match ?x with _ => _ end] => destruct x
      end; reflexivity.
  - rewrite onmessage_cases. unfold logged, received.
    repeat match goal with
    | |- context [match ?x with _ => _ end] => destruct x
    end; reflexivity.
  - unfold oniceconnectionstatechange, reported. unfold_handlers.
    destruct s; reflexivity.
  - reflexivity.
Qed.
